(** * The tag selection engine: artists and characters

    A shallow embedding of [artists_selector.py] and [character_selector.py]:
    the two selector classes, their two drawing modes ("random" and "only"),
    the explicit reset of the used-set and the copyright catalogue.

    Python objects are mutated in place and exceptions leave every earlier
    mutation behind, so a method is a function from the world before the
    call to the world after it together with what the call returned or
    raised.  The world holds the selector object, the pseudo-random source
    and what has been printed so far. *)

From stdpp Require Import gmap strings list sorting.
From Stdlib Require Import QArith Qpower Qabs Lqa.

Local Open Scope Z_scope.
Set Warnings "-clear-no-such-hyp".

(** ** Exceptions and printed lines *)

(** Which of the two range checks failed. *)
Inductive range_kind := CountRange | WeightRange.

(** The exceptions the two classes raise, or let through from the libraries
    they call.  [InvalidParameterError], [NoEligibleRecordsError] and
    [InvalidModeError] are all [ValueError] in the source and differ by
    message; they carry the names the specification gives them. *)
Inductive error :=
  | NotLoadedError                        (* Exception("CSV文件未加载") *)
  | InvalidParameterError (k : range_kind) (* ValueError("最小数量不能大于最大数量"),
                                              ValueError("最小权重不能大于最大权重") *)
  | NoEligibleRecordsError                (* ValueError("没有找到...") *)
  | InvalidModeError                      (* ValueError("无效的选取模式") *)
  | KeyError (key : string)               (* config[...]['mode'] on a missing key *)
  | EmptyRangeError                       (* random.randint(a, b) with b < a *)
  | SampleSizeError.                      (* DataFrame.sample(n) with n < 0 or
                                             n above the number of rows *)

Inductive outcome (A : Type) :=
  | Raised (e : error)
  | Returned (a : A).
Arguments Raised {A} e.
Arguments Returned {A} a.

(** The lines the selectors print, with the numbers they interpolate. *)
Inductive notice :=
  | RandomReport (csv : string) (total eligible selected : Z)
  | ResetNotice (csv : string)
  | OnlyReport (csv : string) (total eligible available used selected : Z).

(** ** The pseudo-random source

    The source is a tape of raw draws; each library call consumes the draws
    it needs.  A theorem quantified over every tape covers every behaviour
    the libraries allow. *)
Definition tape := list N.

Record world (S : Type) := World {
  self : S;
  rng : tape;
  stdout : list notice
}.
Arguments World {S} self rng stdout.
Arguments self {S} w.
Arguments rng {S} w.
Arguments stdout {S} w.

(** ** The monad of methods *)
Definition M (S A : Type) : Type := world S → world S * outcome A.

Definition ret {S A} (a : A) : M S A := λ w, (w, Returned a).

Definition bind {S A B} (m : M S A) (f : A → M S B) : M S B :=
  λ w, match m w with
       | (w', Returned a) => f a w'
       | (w', Raised e) => (w', Raised e)
       end.

Definition raise {S A} (e : error) : M S A := λ w, (w, Raised e).

Notation "'do' x <- m ; k" := (bind m (λ x, k))
  (at level 10, x name, m at level 100, k at level 200,
   format "'[v' 'do'  x  <-  m ; '/' k ']'").
Notation "'do_' m ; k" := (bind m (λ _, k))
  (at level 10, m at level 100, k at level 200,
   format "'[v' 'do_'  m ; '/' k ']'").

Definition gets {S A} (f : S → A) : M S A := λ w, (w, Returned (f (self w))).

Definition modify {S} (f : S → S) : M S unit :=
  λ w, (World (f (self w)) (rng w) (stdout w), Returned tt).

(** [print(...)]: the line goes to the end of the output. *)
Definition print {S} (n : notice) : M S unit :=
  λ w, (World (self w) (rng w) (stdout w ++ [n]), Returned tt).

(** One raw draw; an exhausted tape goes on with zeros. *)
Definition draw {S} : M S N :=
  λ w, (World (self w) (tl (rng w)) (stdout w), Returned (hd 0%N (rng w))).

(** [random.randint(a, b)]: an integer of [a..b], both ends included;
    [ValueError] on an empty range. *)
Definition randint {S} (a b : Z) : M S Z :=
  if b <? a then raise EmptyRangeError
  else do r <- draw; ret (a + Z.of_N r mod (b - a + 1)).

(** ** Floats

    A Python float is an IEEE 754 double; here it is the rational number the
    double is.  Every arithmetic operation of the source gives the double
    nearest to the exact result, the one with the even mantissa at a tie;
    [double] is that rounding, subnormal numbers included.  The exponent
    range has no upper end here: where the source overflows to [inf] the
    model goes on with a finite number, so what is stated about the value
    of a weight carries a bound on the size of the numbers involved. *)

(** The nearest integer, the even one at a tie. *)
Definition round_half_even (x : Q) : Z :=
  let n := Qnum x in
  let d := Z.pos (Qden x) in
  let q := n / d in
  let r := n mod d in
  match 2 * r ?= d with
  | Lt => q
  | Gt => q + 1
  | Eq => if Z.even q then q else q + 1
  end.

(** 2^k, for any integer k. *)
Definition pow2 (k : Z) : Q := (2 ^ k)%Q.

(** The binade of a number other than 0: the k with 2^k <= |x| < 2^(k+1). *)
Definition ilog2 (x : Q) : Z :=
  let k := Z.log2 (Z.abs (Qnum x)) - Z.log2 (Z.pos (Qden x)) in
  if Qle_bool (pow2 k) (Qabs x) then k else k - 1.

(** The exponent of the last place of the doubles around [x]: 52 binary
    places below the binade, and never below the subnormal step 2^-1074. *)
Definition ulp_exponent (x : Q) : Z := Z.max (ilog2 x) (-1022) - 52.

(** The double nearest to [x]. *)
Definition double (x : Q) : Q :=
  let e := ulp_exponent x in
  (inject_Z (round_half_even (x / pow2 e)) * pow2 e)%Q.

(** [random.random()]: a multiple of 2^-53 in [0, 1), which is a double. *)
Definition random {S} : M S Q :=
  do r <- draw; ret (Z.of_N (r mod 2 ^ 53) # 2 ^ 53).

(** [random.uniform(a, b)] is [a + (b - a) * random()]: a subtraction, a
    product and a sum, each rounded. *)
Definition uniform {S} (a b : Q) : M S Q :=
  do u <- random; ret (double (a + double (double (b - a) * u))).

(** [round(x, 2)]: the exact value of [x] is rounded to the nearest multiple
    of 1/100, the even one at a tie, and the double nearest to that is
    returned. *)
Definition round2 (x : Q) : Q := double (round_half_even (x * 100) # 100).

(** Drawing [n] rows one after the other, each from the rows that are left. *)
Fixpoint pick {A} (n : nat) (l : list A) (t : tape) : list A * tape :=
  match n with
  | O => ([], t)
  | S n' =>
      match l with
      | [] => ([], t)
      | _ :: _ =>
          let r := hd 0%N t in
          let i := (N.to_nat r mod length l)%nat in
          match l !! i with
          | Some x =>
              let '(xs, t') := pick n' (delete i l) (tl t) in (x :: xs, t')
          | None => ([], tl t)
          end
      end
  end.

(** [df.sample(n=n)]: [n] rows at different positions, in the order drawn;
    [ValueError] when [n] is negative or exceeds the number of rows. *)
Definition sample {S A} (n : Z) (df : list A) : M S (list A) :=
  if n <? 0 then raise SampleSizeError
  else if Z.of_nat (length df) <? n then raise SampleSizeError
  else λ w, let '(rows, t) := pick (Z.to_nat n) df (rng w) in
            (World (self w) t (stdout w), Returned rows).

(** [result = []; for x in rows: ...; result.append(body x)]. *)
Fixpoint for_each {S A B} (rows : list A) (body : A → M S B) : M S (list B) :=
  match rows with
  | [] => ret []
  | x :: rows' =>
      do y <- body x;
      do ys <- for_each rows' body;
      ret (y :: ys)
  end.

(** Comparison of two floats, [a > b]. *)
Definition Qgtb (a b : Q) : bool := negb (Qle_bool a b).

(** ** 64-bit integers

    The numbers of a pandas integer column, and the sums pandas takes of
    them, are signed 64-bit integers: arithmetic on them wraps around. *)
Definition int64 (z : Z) : Prop := - 2 ^ 63 ≤ z < 2 ^ 63.

Definition wrap64 (z : Z) : Z := (z + 2 ^ 63) mod 2 ^ 64 - 2 ^ 63.

(** An argument left at [None] falls back to the configured value. *)
Definition or_config {A} (arg : option A) (configured : A) : A :=
  match arg with
  | Some a => a
  | None => configured
  end.

(** ** The artist selector *)
Module ArtistSelector.

Record row := Row {
  artist : string;
  trigger : string;
  count : Z;
  url : string
}.

(** [config['artist_selector']]: the constructor checks every key but
    ['mode'], which may therefore be missing. *)
Record settings := Settings {
  cfg_min_count : Z;
  cfg_max_count : Z;
  cfg_min_weight : Q;
  cfg_max_weight : Q;
  cfg_min_works : Z;
  cfg_mode : option string
}.

(** The object: [_used_artists] is an attribute that exists only once
    the "only" mode has run. *)
Record t := Make {
  csv_path : string;
  artists_df : option (list row);
  config : settings;
  _used_artists : option (gset string)
}.

(** The tokens the used-set holds; none while the attribute is missing. *)
Definition used (s : t) : gset string := default ∅ (_used_artists s).

Definition set_used (u : option (gset string)) (s : t) : t :=
  Make (csv_path s) (artists_df s) (config s) u.

(** [if self.artists_df is None: raise Exception(...)]. *)
Definition loaded_df : M t (list row) :=
  do df <- gets artists_df;
  match df with
  | None => raise NotLoadedError
  | Some rows => ret rows
  end.

(** [self.artists_df[self.artists_df['count'] >= min_works]]. *)
Definition eligible (min_works : Z) (df : list row) : list row :=
  filter (λ r, min_works ≤ count r) df.

(** [all_valid[~all_valid['trigger'].isin(self._used_artists)]]. *)
Definition unused (u : gset string) (rows : list row) : list row :=
  filter (λ r, trigger r ∉ u) rows.

Definition _select_artists_random
    (min_count max_count : Z) (min_weight max_weight : Q) (min_works : Z)
    : M t (list (string * Q)) :=
  do df <- loaded_df;
  if min_count >? max_count then raise (InvalidParameterError CountRange)
  else if Qgtb min_weight max_weight
  then raise (InvalidParameterError WeightRange)
  else
    let valid_artists := eligible min_works df in
    match valid_artists with
    | [] => raise NoEligibleRecordsError
    | _ :: _ =>
        do k <- randint min_count max_count;
        let count := Z.min k (Z.of_nat (length valid_artists)) in
        do selected_artists <- sample count valid_artists;
        do result <- for_each selected_artists (λ artist_row,
          do x <- uniform min_weight max_weight;
          ret (trigger artist_row, round2 x));
        do csv <- gets csv_path;
        do_ print (RandomReport csv (Z.of_nat (length df))
                     (Z.of_nat (length valid_artists)) count);
        ret result
    end.

Definition _select_artists_only
    (min_count max_count : Z) (min_weight max_weight : Q) (min_works : Z)
    : M t (list (string * Q)) :=
  do_ modify (λ s, match _used_artists s with
                   | None => set_used (Some ∅) s
                   | Some _ => s
                   end);
  do df <- loaded_df;
  if min_count >? max_count then raise (InvalidParameterError CountRange)
  else if Qgtb min_weight max_weight
  then raise (InvalidParameterError WeightRange)
  else
    let all_valid_artists := eligible min_works df in
    do u <- gets used;
    do csv <- gets csv_path;
    do valid_artists <-
      match unused u all_valid_artists with
      | [] =>
          do_ modify (set_used (Some ∅));
          do_ print (ResetNotice csv);
          ret all_valid_artists
      | r :: rows => ret (r :: rows)
      end;
    match valid_artists with
    | [] => raise NoEligibleRecordsError
    | _ :: _ =>
        do k <- randint min_count max_count;
        let count := Z.min k (Z.of_nat (length valid_artists)) in
        do selected_artists <- sample count valid_artists;
        do result <- for_each selected_artists (λ artist_row,
          do x <- uniform min_weight max_weight;
          do_ modify (λ s, set_used (Some ({[trigger artist_row]} ∪ used s)) s);
          ret (trigger artist_row, round2 x));
        do u' <- gets used;
        do_ print (OnlyReport csv (Z.of_nat (length df))
                     (Z.of_nat (length all_valid_artists))
                     (Z.of_nat (length valid_artists))
                     (Z.of_nat (size u')) count);
        ret result
    end.

Definition select_artists
    (min_count max_count : option Z) (min_weight max_weight : option Q)
    (min_works : option Z) (mode : option string)
    : M t (list (string * Q)) :=
  do cfg <- gets config;
  let min_count := or_config min_count (cfg_min_count cfg) in
  let max_count := or_config max_count (cfg_max_count cfg) in
  let min_weight := or_config min_weight (cfg_min_weight cfg) in
  let max_weight := or_config max_weight (cfg_max_weight cfg) in
  let min_works := or_config min_works (cfg_min_works cfg) in
  match cfg_mode cfg with
  | None => raise (KeyError "mode")
  | Some mode =>
      if decide (mode = "random") then
        _select_artists_random min_count max_count min_weight max_weight min_works
      else if decide (mode = "only") then
        _select_artists_only min_count max_count min_weight max_weight min_works
      else raise InvalidModeError
  end.

(** [if hasattr(self, '_used_artists'): self._used_artists.clear()]. *)
Definition reset_used_artists : M t unit :=
  modify (λ s, match _used_artists s with
               | Some _ => set_used (Some ∅) s
               | None => s
               end).

(** *** One call and its effective parameters *)

(** The arguments of one call of [select_artists]. *)
Record request := Request {
  arg_min_count : option Z;
  arg_max_count : option Z;
  arg_min_weight : option Q;
  arg_max_weight : option Q;
  arg_min_works : option Z;
  arg_mode : option string
}.

Definition select (q : request) : M t (list (string * Q)) :=
  select_artists (arg_min_count q) (arg_max_count q) (arg_min_weight q)
    (arg_max_weight q) (arg_min_works q) (arg_mode q).

(** The values a call works with: the argument, or else the setting. *)
Definition min_count (q : request) (s : t) : Z :=
  or_config (arg_min_count q) (cfg_min_count (config s)).
Definition max_count (q : request) (s : t) : Z :=
  or_config (arg_max_count q) (cfg_max_count (config s)).
Definition min_weight (q : request) (s : t) : Q :=
  or_config (arg_min_weight q) (cfg_min_weight (config s)).
Definition max_weight (q : request) (s : t) : Q :=
  or_config (arg_max_weight q) (cfg_max_weight (config s)).
Definition min_works (q : request) (s : t) : Z :=
  or_config (arg_min_works q) (cfg_min_works (config s)).

(** The records passing the thresholds of the call, and those of them
    whose token is not in the used-set. *)
Definition all_eligible (q : request) (s : t) (df : list row) : list row :=
  eligible (min_works q s) df.
Definition available (q : request) (s : t) (df : list row) : list row :=
  unused (used s) (all_eligible q s df).

(** The records a call draws from: in "only" mode the available ones, or
    every eligible one once none is available. *)
Definition pool (q : request) (s : t) (df : list row) : list row :=
  if decide (cfg_mode (config s) = Some "only") then
    match available q s df with
    | [] => all_eligible q s df
    | r :: rows => r :: rows
    end
  else all_eligible q s df.

(** The tokens and the weights of a result. *)
Definition tokens (result : list (string * Q)) : list string := result.*1.
Definition weights (result : list (string * Q)) : list Q := result.*2.

(** The selector holds the dataset [df] and is configured for "only" mode. *)
Definition only_ready (df : list row) (s : t) : Prop :=
  artists_df s = Some df ∧ cfg_mode (config s) = Some "only".

End ArtistSelector.

(** ** The character selector *)
Module CharacterSelector.

(** A row after [_load_csv]: the [core_tags] cell is always a list by
    then (split on commas, or empty). *)
Record row := Row {
  character : string;
  copyright : string;
  trigger : string;
  count : Z;
  solo_count : Z;
  url : string;
  core_tags : list string
}.

(** [config['character_selector']]; ['mode'] is not among the keys the
    constructor checks. *)
Record settings := Settings {
  cfg_min_count : Z;
  cfg_max_count : Z;
  cfg_min_weight : Q;
  cfg_max_weight : Q;
  cfg_min_total_works : Z;
  cfg_min_solo_works : Z;
  cfg_mode : option string
}.

Record t := Make {
  csv_path : string;
  characters_df : option (list row);
  config : settings;
  _used_characters : option (gset string)
}.

Definition used (s : t) : gset string := default ∅ (_used_characters s).

Definition set_used (u : option (gset string)) (s : t) : t :=
  Make (csv_path s) (characters_df s) (config s) u.

Definition loaded_df : M t (list row) :=
  do df <- gets characters_df;
  match df with
  | None => raise NotLoadedError
  | Some rows => ret rows
  end.

(** The two thresholds, then [if copyright_filter:] (neither [None] nor
    empty) the rows whose copyright is in the list. *)
Definition eligible (min_total_works min_solo_works : Z)
    (copyright_filter : option (list string)) (df : list row) : list row :=
  let valid_characters :=
    filter (λ r, min_total_works ≤ count r ∧ min_solo_works ≤ solo_count r) df in
  match copyright_filter with
  | Some (c :: cs) => filter (λ r, copyright r ∈ c :: cs) valid_characters
  | _ => valid_characters
  end.

Definition unused (u : gset string) (rows : list row) : list row :=
  filter (λ r, trigger r ∉ u) rows.

Definition _select_characters_random
    (min_count max_count : Z) (min_weight max_weight : Q)
    (min_total_works min_solo_works : Z)
    (copyright_filter : option (list string))
    : M t (list (string * Q * list string)) :=
  do df <- loaded_df;
  if min_count >? max_count then raise (InvalidParameterError CountRange)
  else if Qgtb min_weight max_weight
  then raise (InvalidParameterError WeightRange)
  else
    let valid_characters :=
      eligible min_total_works min_solo_works copyright_filter df in
    match valid_characters with
    | [] => raise NoEligibleRecordsError
    | _ :: _ =>
        do k <- randint min_count max_count;
        let count := Z.min k (Z.of_nat (length valid_characters)) in
        do selected_characters <- sample count valid_characters;
        do result <- for_each selected_characters (λ character_row,
          do x <- uniform min_weight max_weight;
          ret (trigger character_row, round2 x, core_tags character_row));
        do csv <- gets csv_path;
        do_ print (RandomReport csv (Z.of_nat (length df))
                     (Z.of_nat (length valid_characters)) count);
        ret result
    end.

Definition _select_characters_only
    (min_count max_count : Z) (min_weight max_weight : Q)
    (min_total_works min_solo_works : Z)
    (copyright_filter : option (list string))
    : M t (list (string * Q * list string)) :=
  do_ modify (λ s, match _used_characters s with
                   | None => set_used (Some ∅) s
                   | Some _ => s
                   end);
  do df <- loaded_df;
  if min_count >? max_count then raise (InvalidParameterError CountRange)
  else if Qgtb min_weight max_weight
  then raise (InvalidParameterError WeightRange)
  else
    let all_valid_characters :=
      eligible min_total_works min_solo_works copyright_filter df in
    do u <- gets used;
    do csv <- gets csv_path;
    do valid_characters <-
      match unused u all_valid_characters with
      | [] =>
          do_ modify (set_used (Some ∅));
          do_ print (ResetNotice csv);
          ret all_valid_characters
      | r :: rows => ret (r :: rows)
      end;
    match valid_characters with
    | [] => raise NoEligibleRecordsError
    | _ :: _ =>
        do k <- randint min_count max_count;
        let count := Z.min k (Z.of_nat (length valid_characters)) in
        do selected_characters <- sample count valid_characters;
        do result <- for_each selected_characters (λ character_row,
          do x <- uniform min_weight max_weight;
          do_ modify (λ s,
            set_used (Some ({[trigger character_row]} ∪ used s)) s);
          ret (trigger character_row, round2 x, core_tags character_row));
        do u' <- gets used;
        do_ print (OnlyReport csv (Z.of_nat (length df))
                     (Z.of_nat (length all_valid_characters))
                     (Z.of_nat (length valid_characters))
                     (Z.of_nat (size u')) count);
        ret result
    end.

Definition select_characters
    (min_count max_count : option Z) (min_weight max_weight : option Q)
    (min_total_works min_solo_works : option Z)
    (copyright_filter : option (list string)) (mode : option string)
    : M t (list (string * Q * list string)) :=
  do cfg <- gets config;
  let min_count := or_config min_count (cfg_min_count cfg) in
  let max_count := or_config max_count (cfg_max_count cfg) in
  let min_weight := or_config min_weight (cfg_min_weight cfg) in
  let max_weight := or_config max_weight (cfg_max_weight cfg) in
  let min_total_works := or_config min_total_works (cfg_min_total_works cfg) in
  let min_solo_works := or_config min_solo_works (cfg_min_solo_works cfg) in
  match cfg_mode cfg with
  | None => raise (KeyError "mode")
  | Some mode =>
      if decide (mode = "random") then
        _select_characters_random min_count max_count min_weight max_weight
          min_total_works min_solo_works copyright_filter
      else if decide (mode = "only") then
        _select_characters_only min_count max_count min_weight max_weight
          min_total_works min_solo_works copyright_filter
      else raise InvalidModeError
  end.

Definition reset_used_characters : M t unit :=
  modify (λ s, match _used_characters s with
               | Some _ => set_used (Some ∅) s
               | None => s
               end).

(** *** One call and its effective parameters *)

Record request := Request {
  arg_min_count : option Z;
  arg_max_count : option Z;
  arg_min_weight : option Q;
  arg_max_weight : option Q;
  arg_min_total_works : option Z;
  arg_min_solo_works : option Z;
  arg_copyright_filter : option (list string);
  arg_mode : option string
}.

Definition select (q : request) : M t (list (string * Q * list string)) :=
  select_characters (arg_min_count q) (arg_max_count q) (arg_min_weight q)
    (arg_max_weight q) (arg_min_total_works q) (arg_min_solo_works q)
    (arg_copyright_filter q) (arg_mode q).

Definition min_count (q : request) (s : t) : Z :=
  or_config (arg_min_count q) (cfg_min_count (config s)).
Definition max_count (q : request) (s : t) : Z :=
  or_config (arg_max_count q) (cfg_max_count (config s)).
Definition min_weight (q : request) (s : t) : Q :=
  or_config (arg_min_weight q) (cfg_min_weight (config s)).
Definition max_weight (q : request) (s : t) : Q :=
  or_config (arg_max_weight q) (cfg_max_weight (config s)).
Definition min_total_works (q : request) (s : t) : Z :=
  or_config (arg_min_total_works q) (cfg_min_total_works (config s)).
Definition min_solo_works (q : request) (s : t) : Z :=
  or_config (arg_min_solo_works q) (cfg_min_solo_works (config s)).

Definition all_eligible (q : request) (s : t) (df : list row) : list row :=
  eligible (min_total_works q s) (min_solo_works q s)
    (arg_copyright_filter q) df.
Definition available (q : request) (s : t) (df : list row) : list row :=
  unused (used s) (all_eligible q s df).

Definition pool (q : request) (s : t) (df : list row) : list row :=
  if decide (cfg_mode (config s) = Some "only") then
    match available q s df with
    | [] => all_eligible q s df
    | r :: rows => r :: rows
    end
  else all_eligible q s df.

Definition tokens (result : list (string * Q * list string)) : list string :=
  result.*1.*1.
Definition weights (result : list (string * Q * list string)) : list Q :=
  result.*1.*2.

Definition only_ready (df : list row) (s : t) : Prop :=
  characters_df s = Some df ∧ cfg_mode (config s) = Some "only".

(** [groupby('copyright')['count'].sum()]: one total per copyright.  The
    column is int64 and so are the sums: a sum that leaves the range wraps
    around, silently. *)
Definition copyright_counts (df : list row) : gmap string Z :=
  foldr (λ r m,
           <[copyright r := wrap64 (count r + default 0 (m !! copyright r))]> m)
        ∅ df.

(** The threshold defaults to 0 at the call site; the rows are grouped,
    the groups below the threshold dropped and the names sorted. *)
Definition get_available_copyrights (min_total_works : Z)
    : M t (list string) :=
  do df <- loaded_df;
  let valid_copyrights :=
    filter (λ kv, min_total_works ≤ kv.2) (copyright_counts df) in
  ret (merge_sort String.le (map_to_list valid_copyrights).*1).

(** The aggregate the catalogue is specified by: the sum of [count] over
    the rows of one copyright. *)
Definition total_works (c : string) (df : list row) : Z :=
  foldr Z.add 0 (count <$> filter (λ r, copyright r = c) df).

(** No copyright of the dataset has works that sum past the int64 range. *)
Definition sums_fit (df : list row) : Prop :=
  Forall (λ r, int64 (total_works (copyright r) df)) df.

End CharacterSelector.

(** ** Consecutive calls on one selector

    [trace step qs w] runs the calls [qs] one after the other from the world
    [w]; for each call it records the world before, the outcome and the
    world after. *)
Fixpoint trace {S R A} (step : R → M S A) (qs : list R) (w : world S)
    : list (world S * outcome A * world S) :=
  match qs with
  | [] => []
  | q :: qs' => let '(w', o) := step q w in (w, o, w') :: trace step qs' w'
  end.

(** The tokens an outcome hands back: none when the call raised. *)
Definition returned_tokens {A} (toks : A → list string) (o : outcome A)
    : gset string :=
  match o with
  | Returned r => list_to_set (toks r)
  | Raised _ => ∅
  end.


(** ** The shape the four selection methods share

    The two classes are copies of one design.  The engine below is that
    design with the class-specific parts as parameters; each method of the
    two classes is the engine at its own parameters, by computation. *)
Section Engine.
Context {S Row B : Type}.
Variable frame : S → option (list Row).
Variable path : S → string.
Variable used_attr : S → option (gset string).
Variable with_used : option (gset string) → S → S.
Variable token : Row → string.
Variable entry : Row → Q → B.

Definition engine_used (s : S) : gset string := default ∅ (used_attr s).

Definition engine_loaded : M S (list Row) :=
  do df <- gets frame;
  match df with
  | None => raise NotLoadedError
  | Some rows => ret rows
  end.

Definition engine_unused (u : gset string) (rows : list Row) : list Row :=
  filter (λ r, token r ∉ u) rows.

Definition materialise (s : S) : S :=
  match used_attr s with
  | None => with_used (Some ∅) s
  | Some _ => s
  end.

Definition engine_random (elig : list Row → list Row)
    (min_count max_count : Z) (min_weight max_weight : Q) : M S (list B) :=
  do df <- engine_loaded;
  if min_count >? max_count then raise (InvalidParameterError CountRange)
  else if Qgtb min_weight max_weight
  then raise (InvalidParameterError WeightRange)
  else
    let valid := elig df in
    match valid with
    | [] => raise NoEligibleRecordsError
    | _ :: _ =>
        do k <- randint min_count max_count;
        let count := Z.min k (Z.of_nat (length valid)) in
        do selected <- sample count valid;
        do result <- for_each selected (λ r,
          do x <- uniform min_weight max_weight;
          ret (entry r (round2 x)));
        do csv <- gets path;
        do_ print (RandomReport csv (Z.of_nat (length df))
                     (Z.of_nat (length valid)) count);
        ret result
    end.

Definition engine_only (elig : list Row → list Row)
    (min_count max_count : Z) (min_weight max_weight : Q) : M S (list B) :=
  do_ modify materialise;
  do df <- engine_loaded;
  if min_count >? max_count then raise (InvalidParameterError CountRange)
  else if Qgtb min_weight max_weight
  then raise (InvalidParameterError WeightRange)
  else
    let all_valid := elig df in
    do u <- gets engine_used;
    do csv <- gets path;
    do valid <-
      match engine_unused u all_valid with
      | [] =>
          do_ modify (with_used (Some ∅));
          do_ print (ResetNotice csv);
          ret all_valid
      | r :: rows => ret (r :: rows)
      end;
    match valid with
    | [] => raise NoEligibleRecordsError
    | _ :: _ =>
        do k <- randint min_count max_count;
        let count := Z.min k (Z.of_nat (length valid)) in
        do selected <- sample count valid;
        do result <- for_each selected (λ r,
          do x <- uniform min_weight max_weight;
          do_ modify (λ s, with_used (Some ({[token r]} ∪ engine_used s)) s);
          ret (entry r (round2 x)));
        do u' <- gets engine_used;
        do_ print (OnlyReport csv (Z.of_nat (length df))
                     (Z.of_nat (length all_valid))
                     (Z.of_nat (length valid))
                     (Z.of_nat (size u')) count);
        ret result
    end.

Variable mode_of : S → option string.

Definition engine_select (elig : list Row → list Row)
    (min_count max_count : Z) (min_weight max_weight : Q) : M S (list B) :=
  do m <- gets mode_of;
  match m with
  | None => raise (KeyError "mode")
  | Some mode =>
      if decide (mode = "random") then
        engine_random elig min_count max_count min_weight max_weight
      else if decide (mode = "only") then
        engine_only elig min_count max_count min_weight max_weight
      else raise InvalidModeError
  end.

(** The records a call draws from. *)
Definition engine_pool (elig : list Row → list Row) (s : S)
    (df : list Row) : list Row :=
  if decide (mode_of s = Some "only") then
    match engine_unused (engine_used s) (elig df) with
    | [] => elig df
    | r :: rows => r :: rows
    end
  else elig df.

End Engine.

(** ** What a drawn weight is *)

(** [x] comes out of [round(random.uniform(a, b), 2)]. *)
Definition drawn_weight (a b x : Q) : Prop :=
  ∃ u : Q, (0 <= u)%Q ∧ (u < 1)%Q ∧
    x = round2 (double (a + double (double (b - a) * u))).

(** [x] is a float written with at most two decimal digits: the double
    nearest to a whole number of hundredths. *)
Definition two_decimals (x : Q) : Prop := ∃ z : Z, (x == double (z # 100))%Q.


(** ** Concrete selectors

    The datasets and calls the examples below run on. *)
Module Fixture.

(** Five artists with work counts 10, 0, 5, 20 and 1. *)
Definition artists : list ArtistSelector.row :=
  [ ArtistSelector.Row "Ann" "ann" 10 "u1";
    ArtistSelector.Row "Bob" "bob" 0 "u2";
    ArtistSelector.Row "Cyd" "cyd" 5 "u3";
    ArtistSelector.Row "Dee" "dee" 20 "u4";
    ArtistSelector.Row "Eve" "eve" 1 "u5" ].

(** Two rows that carry the same trigger. *)
Definition twins : list ArtistSelector.row :=
  [ ArtistSelector.Row "Ann" "ann" 10 "u1";
    ArtistSelector.Row "Ann (alt)" "ann" 12 "u2" ].

Definition artist_settings (mode : string) : ArtistSelector.settings :=
  ArtistSelector.Settings 2 2 (1 # 2) (3 # 2) 5 (Some mode).

Definition artist_selector (mode : string) (df : list ArtistSelector.row)
    (u : option (gset string)) : ArtistSelector.t :=
  ArtistSelector.Make "artists.csv" (Some df) (artist_settings mode) u.

Definition draws : tape :=
  [5; 7; 3; 4503599627370496; 7000000000000000; 12; 4; 6;
   2251799813685248; 8106479329266893; 11; 13]%N.

Definition artist_world (mode : string) (df : list ArtistSelector.row)
    (u : option (gset string)) : world ArtistSelector.t :=
  World (artist_selector mode df u) draws [].

(** A call that leaves every argument to the configuration. *)
Definition artist_defaults : ArtistSelector.request :=
  ArtistSelector.Request None None None None None None.

(** A call for artists with at least ten works: "ann" and "dee". *)
Definition at_least_ten : ArtistSelector.request :=
  ArtistSelector.Request None None None None (Some 10) None.

Definition characters : list CharacterSelector.row :=
  [ CharacterSelector.Row "Rin" "fate" "rin" 30 12 "u1" ["twintails"];
    CharacterSelector.Row "Saber" "fate" "saber" 50 20 "u2" ["armor"; "blonde"];
    CharacterSelector.Row "Miku" "vocaloid" "miku" 90 60 "u3" [];
    CharacterSelector.Row "Len" "vocaloid" "len" 4 1 "u4" [];
    CharacterSelector.Row "Zelda" "zelda" "zelda" 7 3 "u5" ["tiara"] ].

Definition character_settings (mode : string) : CharacterSelector.settings :=
  CharacterSelector.Settings 2 2 (1 # 2) (3 # 2) 5 2 (Some mode).

Definition character_selector (mode : string)
    (df : list CharacterSelector.row) (u : option (gset string))
    : CharacterSelector.t :=
  CharacterSelector.Make "characters.csv" (Some df) (character_settings mode) u.

Definition character_world (mode : string)
    (df : list CharacterSelector.row) (u : option (gset string))
    : world CharacterSelector.t :=
  World (character_selector mode df u) draws [].

Definition character_defaults : CharacterSelector.request :=
  CharacterSelector.Request None None None None None None None None.

(** A call for the characters of one copyright: "rin" and "saber". *)
Definition fate_only : CharacterSelector.request :=
  CharacterSelector.Request None None None None None None (Some ["fate"]) None.

(** A call for the characters of a copyright the dataset does not have. *)
Definition unknown_copyright : CharacterSelector.request :=
  CharacterSelector.Request None None None None None None (Some ["none"]) None.

End Fixture.

(** ** Building a selector

    What [__init__] and [_load_csv] do with what [pd.read_csv] hands them
    and with the configuration dictionary.  The file system is outside: the
    result of the read is an argument ([None] when the read raised). *)

(** Why a load failed: every exception inside [_load_csv] is caught and
    raised again as one [Exception] that quotes it. *)
Inductive load_error :=
  | ReadFailed                          (* pd.read_csv raised *)
  | MissingColumns (cols : list string). (* "CSV文件缺少必要的列: ..." *)

(** What the constructor raises. *)
Inductive init_error :=
  | LoadFailed (e : load_error)      (* Exception("读取...CSV文件失败: ...") *)
  | ConfigInvalid                    (* ValueError("配置无效：缺少 ... 配置项") *)
  | ConfigMissing (keys : list string). (* ValueError("配置缺少必要的项目: ...") *)

(** The line the character loader prints once the tags are in place. *)
Inductive load_line :=
  | TagsLoaded (csv : string)        (* "... 已加载 core_tags 列" *)
  | TagsAbsent (csv : string).       (* "... CSV文件中没有 core_tags 列 ..." *)

(** [config['artist_selector']] as the constructor and the calls read it:
    each key is there, with a value of its type, or is not. *)
Record artist_keys := ArtistKeys {
  artist_min_count : option Z;
  artist_max_count : option Z;
  artist_min_weight : option Q;
  artist_max_weight : option Q;
  artist_min_works : option Z;
  artist_mode : option string
}.

Record character_keys := CharacterKeys {
  character_min_count : option Z;
  character_max_count : option Z;
  character_min_weight : option Q;
  character_max_weight : option Q;
  character_min_total_works : option Z;
  character_min_solo_works : option Z;
  character_mode : option string
}.

(** The configuration dictionary: its two sections, each there or not. *)
Record config_dict := ConfigDict {
  artist_selector : option artist_keys;
  character_selector : option character_keys
}.

(** [[item for item in required if item not in present]], for a list of
    required names each paired with whether it is present. *)
Definition missing_of (required : list (string * bool)) : list string :=
  (filter (λ kp, kp.2 = false) required).*1.

(** [x.split(',')]: the pieces between the commas, in order; a string
    without a comma is one piece, the empty string included. *)
Fixpoint split_commas (x : string) : list string :=
  match x with
  | EmptyString => [EmptyString]
  | String c rest =>
      if decide (String c EmptyString = ",") then EmptyString :: split_commas rest
      else match split_commas rest with
           | [] => [String c EmptyString]
           | piece :: pieces => String c piece :: pieces
           end
  end.

(** The cell of the [core_tags] column made a list: a cell that is a
    string with something other than whitespace in it is split on commas,
    any other cell (blank, or not a string) gives no tags.  [blank x] stands
    for Python's test that [x.strip()] is empty. *)
Definition core_tags_of (blank : string → bool) (cell : option string)
    : list string :=
  match cell with
  | Some x => if blank x then [] else split_commas x
  | None => []
  end.

(** The blank test on a string of ASCII characters: [x.strip()] is empty
    when every character is a tab, a line feed, a vertical tab, a form feed,
    a carriage return, one of the separators 0x1c to 0x1f, or a space.
    (Python strips the Unicode spaces as well; a cell that holds one is
    outside this instance.) *)
Fixpoint ascii_blank (x : string) : bool :=
  match x with
  | EmptyString => true
  | String c rest =>
      bool_decide (Ascii.nat_of_ascii c ∈
                     [9; 10; 11; 12; 13; 28; 29; 30; 31; 32]%nat)
      && ascii_blank rest
  end.

Module ArtistConstruction.

(** What [pd.read_csv] returned: the column names and the rows.  A row is
    given with the four fields the selector reads; the fields of a column
    that is not there are never looked at. *)
Record frame := Frame {
  columns : list string;
  rows : list ArtistSelector.row
}.

Definition required_columns : list string :=
  ["artist"; "trigger"; "count"; "url"].

Definition _load_csv (read : option frame)
    : load_error + list ArtistSelector.row :=
  match read with
  | None => inl ReadFailed
  | Some df =>
      match missing_of ((λ col, (col, bool_decide (col ∈ columns df)))
                          <$> required_columns) with
      | [] => inr (rows df)
      | col :: cols => inl (MissingColumns (col :: cols))
      end
  end.

Definition missing_config (section : artist_keys) : list string :=
  missing_of
    [ ("min_count", bool_decide (is_Some (artist_min_count section)));
      ("max_count", bool_decide (is_Some (artist_max_count section)));
      ("min_weight", bool_decide (is_Some (artist_min_weight section)));
      ("max_weight", bool_decide (is_Some (artist_max_weight section)));
      ("min_works", bool_decide (is_Some (artist_min_works section))) ].

(** The object is built with the dataset loaded and no used-set attribute;
    the load comes first, then the two checks of the configuration. *)
Definition __init__ (csv_path : string) (read : option frame)
    (config : option config_dict) : init_error + ArtistSelector.t :=
  match _load_csv read with
  | inl e => inl (LoadFailed e)
  | inr df =>
      match config ≫= artist_selector with
      | None => inl ConfigInvalid
      | Some section =>
          match artist_min_count section, artist_max_count section,
                artist_min_weight section, artist_max_weight section,
                artist_min_works section with
          | Some a, Some b, Some x, Some y, Some m =>
              inr (ArtistSelector.Make csv_path (Some df)
                     (ArtistSelector.Settings a b x y m (artist_mode section))
                     None)
          | _, _, _, _, _ => inl (ConfigMissing (missing_config section))
          end
      end
  end.

End ArtistConstruction.

Module CharacterConstruction.

(** A row as read: the [core_tags] cell is [Some x] when it holds the
    string [x], [None] when it holds anything else (an empty cell is read
    as NaN). *)
Record raw_row := RawRow {
  character : string;
  copyright : string;
  trigger : string;
  count : Z;
  solo_count : Z;
  url : string;
  core_tags_cell : option string
}.

Record frame := Frame {
  columns : list string;
  rows : list raw_row
}.

Definition required_columns : list string :=
  ["character"; "copyright"; "trigger"; "count"; "solo_count"; "url"].

(** The row with its tags: from the cell when the column is there, none
    otherwise. *)
Definition with_tags (blank : string → bool) (has_column : bool)
    (r : raw_row) : CharacterSelector.row :=
  CharacterSelector.Row (character r) (copyright r) (trigger r) (count r)
    (solo_count r) (url r)
    (if has_column then core_tags_of blank (core_tags_cell r) else []).

Definition _load_csv (blank : string → bool) (csv_path : string)
    (read : option frame)
    : load_error + (list CharacterSelector.row * load_line) :=
  match read with
  | None => inl ReadFailed
  | Some df =>
      match missing_of ((λ col, (col, bool_decide (col ∈ columns df)))
                          <$> required_columns) with
      | [] =>
          if decide ("core_tags" ∈ columns df)
          then inr (with_tags blank true <$> rows df, TagsLoaded csv_path)
          else inr (with_tags blank false <$> rows df, TagsAbsent csv_path)
      | col :: cols => inl (MissingColumns (col :: cols))
      end
  end.

Definition missing_config (section : character_keys) : list string :=
  missing_of
    [ ("min_count", bool_decide (is_Some (character_min_count section)));
      ("max_count", bool_decide (is_Some (character_max_count section)));
      ("min_weight", bool_decide (is_Some (character_min_weight section)));
      ("max_weight", bool_decide (is_Some (character_max_weight section)));
      ("min_total_works",
       bool_decide (is_Some (character_min_total_works section)));
      ("min_solo_works",
       bool_decide (is_Some (character_min_solo_works section))) ].

(** What was printed, and the object or the exception. *)
Definition __init__ (blank : string → bool) (csv_path : string)
    (read : option frame) (config : option config_dict)
    : list load_line * (init_error + CharacterSelector.t) :=
  match _load_csv blank csv_path read with
  | inl e => ([], inl (LoadFailed e))
  | inr (df, line) =>
      ([line],
       match config ≫= character_selector with
       | None => inl ConfigInvalid
       | Some section =>
           match character_min_count section, character_max_count section,
                 character_min_weight section, character_max_weight section,
                 character_min_total_works section,
                 character_min_solo_works section with
           | Some a, Some b, Some x, Some y, Some m, Some n =>
               inr (CharacterSelector.Make csv_path (Some df)
                      (CharacterSelector.Settings a b x y m n
                         (character_mode section))
                      None)
           | _, _, _, _, _, _ => inl (ConfigMissing (missing_config section))
           end
       end)
  end.

End CharacterConstruction.

(** ** Calls that do not look at the selector

    [relabel s r] is the result [r] with the selector put back to [s]. *)
Definition relabel {S A} (s : S) (r : world S * outcome A)
    : world S * outcome A :=
  (World s (rng r.1) (stdout r.1), r.2).

(** [m] behaves alike on selectors related by [R], and leaves the selector
    as it found it. *)
Definition blind_on {S A} (R : relation S) (m : M S A) : Prop :=
  ∀ s s0 t out, R s s0 →
    m (World s t out) = relabel s (m (World s0 t out)).

(** ** More concrete inputs *)
Module Fixture2.

Definition artist_frame : ArtistConstruction.frame :=
  ArtistConstruction.Frame ["artist"; "trigger"; "count"; "url"]
    Fixture.artists.

Definition character_frame : CharacterConstruction.frame :=
  CharacterConstruction.Frame
    ["character"; "copyright"; "trigger"; "count"; "solo_count"; "url";
     "core_tags"]
    [ CharacterConstruction.RawRow "Rin" "fate" "rin" 30 12 "u1"
        (Some "twintails, red coat");
      CharacterConstruction.RawRow "Miku" "vocaloid" "miku" 90 60 "u3" None;
      CharacterConstruction.RawRow "Len" "vocaloid" "len" 4 1 "u4"
        (Some "  ") ].

(** A configuration with both sections complete but for the mode. *)
Definition modeless : config_dict :=
  ConfigDict
    (Some (ArtistKeys (Some 2) (Some 2) (Some (1 # 2)) (Some (3 # 2))
             (Some 5) None))
    (Some (CharacterKeys (Some 2) (Some 2) (Some (1 # 2)) (Some (3 # 2))
             (Some 5) (Some 2) None)).

End Fixture2.
(** * The methods are the engine *)

Lemma _select_artists_random_engine a b x y m :
  ArtistSelector._select_artists_random a b x y m =
  engine_random ArtistSelector.artists_df ArtistSelector.csv_path
    (λ r q, (ArtistSelector.trigger r, q))
    (ArtistSelector.eligible m) a b x y.
Proof. reflexivity. Qed.

Lemma _select_artists_only_engine a b x y m :
  ArtistSelector._select_artists_only a b x y m =
  engine_only ArtistSelector.artists_df ArtistSelector.csv_path
    ArtistSelector._used_artists ArtistSelector.set_used
    ArtistSelector.trigger (λ r q, (ArtistSelector.trigger r, q))
    (ArtistSelector.eligible m) a b x y.
Proof. reflexivity. Qed.

Lemma _select_characters_random_engine a b x y m n f :
  CharacterSelector._select_characters_random a b x y m n f =
  engine_random CharacterSelector.characters_df CharacterSelector.csv_path
    (λ r q, (CharacterSelector.trigger r, q, CharacterSelector.core_tags r))
    (CharacterSelector.eligible m n f) a b x y.
Proof. reflexivity. Qed.

Lemma _select_characters_only_engine a b x y m n f :
  CharacterSelector._select_characters_only a b x y m n f =
  engine_only CharacterSelector.characters_df CharacterSelector.csv_path
    CharacterSelector._used_characters CharacterSelector.set_used
    CharacterSelector.trigger
    (λ r q, (CharacterSelector.trigger r, q, CharacterSelector.core_tags r))
    (CharacterSelector.eligible m n f) a b x y.
Proof. reflexivity. Qed.

Lemma artist_select_engine q w :
  ArtistSelector.select q w =
  engine_select ArtistSelector.artists_df ArtistSelector.csv_path
    ArtistSelector._used_artists ArtistSelector.set_used
    ArtistSelector.trigger (λ r x, (ArtistSelector.trigger r, x))
    (λ s, ArtistSelector.cfg_mode (ArtistSelector.config s))
    (ArtistSelector.eligible (ArtistSelector.min_works q (self w)))
    (ArtistSelector.min_count q (self w)) (ArtistSelector.max_count q (self w))
    (ArtistSelector.min_weight q (self w)) (ArtistSelector.max_weight q (self w))
    w.
Proof. reflexivity. Qed.

Lemma character_select_engine q w :
  CharacterSelector.select q w =
  engine_select CharacterSelector.characters_df CharacterSelector.csv_path
    CharacterSelector._used_characters CharacterSelector.set_used
    CharacterSelector.trigger
    (λ r x, (CharacterSelector.trigger r, x, CharacterSelector.core_tags r))
    (λ s, CharacterSelector.cfg_mode (CharacterSelector.config s))
    (CharacterSelector.eligible (CharacterSelector.min_total_works q (self w))
       (CharacterSelector.min_solo_works q (self w))
       (CharacterSelector.arg_copyright_filter q))
    (CharacterSelector.min_count q (self w))
    (CharacterSelector.max_count q (self w))
    (CharacterSelector.min_weight q (self w))
    (CharacterSelector.max_weight q (self w))
    w.
Proof. reflexivity. Qed.

(** * Facts about the library calls *)

Lemma bind_returned {S A B} (m : M S A) (f : A → M S B) w w' a :
  m w = (w', Returned a) → bind m f w = f a w'.
Proof. unfold bind. by intros ->. Qed.

Lemma bind_raised {S A B} (m : M S A) (f : A → M S B) w w' e :
  m w = (w', Raised e) → bind m f w = (w', Raised e).
Proof. unfold bind. by intros ->. Qed.

Lemma bind_assoc {S A B C} (m : M S A) (f : A → M S B) (g : B → M S C) w :
  bind (bind m f) g w = bind m (λ x, bind (f x) g) w.
Proof. unfold bind. by destruct (m w) as [w' [e|a]]. Qed.

Lemma bind_ret {S A B} (a : A) (f : A → M S B) w : bind (ret a) f w = f a w.
Proof. done. Qed.

Lemma bind_gets {S A B} (g : S → A) (f : A → M S B) w :
  bind (gets g) f w = f (g (self w)) w.
Proof. done. Qed.

Lemma bind_modify {S B} (g : S → S) (f : unit → M S B) w :
  bind (modify g) f w = f tt (World (g (self w)) (rng w) (stdout w)).
Proof. done. Qed.

Lemma bind_print {S B} n (f : unit → M S B) (w : world S) :
  bind (print n) f w = f tt (World (self w) (rng w) (stdout w ++ [n])).
Proof. done. Qed.

Lemma marked_cons (x : string) (l : list string) (u : gset string) :
  list_to_set l ∪ ({[x]} ∪ u) = list_to_set (x :: l) ∪ u.
Proof. set_solver. Qed.

Lemma fmap_zip_with_via {A B C D} (f : A → B → C) (g : C → D) (h : A → D)
    (l : list A) (k : list B) :
  (∀ x y, g (f x y) = h x) → (length l ≤ length k)%nat →
  g <$> zip_with f l k = h <$> l.
Proof.
  intros Hg. revert k.
  induction l as [|a l IH]; intros [|b k] Hlen; cbn in *; [done|done|lia|].
  rewrite Hg, IH by lia. done.
Qed.

Lemma submseteq_NoDup {A} (l k : list A) : l ⊆+ k → NoDup k → NoDup l.
Proof.
  intros [k' Hk']%submseteq_Permutation. rewrite Hk', NoDup_app. tauto.
Qed.

Lemma pick_length {A} n (l : list A) t :
  length (pick n l t).1 = (n `min` length l)%nat.
Proof.
  revert l t. induction n as [|n IH]; intros l t; [done|].
  destruct l as [|a l]; [done|].
  cbn -[Nat.modulo lookup delete length].
  set (i := (N.to_nat (hd 0%N t) mod length (a :: l))%nat).
  assert (Hi : (i < length (a :: l))%nat) by (apply Nat.mod_upper_bound; done).
  destruct (lookup_lt_is_Some_2 (a :: l) i Hi) as [x Hx]. rewrite Hx.
  specialize (IH (delete i (a :: l)) (tl t)).
  destruct (pick n (delete i (a :: l)) (tl t)) as [xs t'].
  cbn -[length delete Nat.min] in *.
  pose proof (length_delete (a :: l) i (ex_intro _ x Hx)) as Hd.
  cbn [length] in *. lia.
Qed.

Lemma pick_submseteq {A} n (l : list A) t : (pick n l t).1 ⊆+ l.
Proof.
  revert l t. induction n as [|n IH]; intros l t; [apply submseteq_nil_l|].
  destruct l as [|a l]; [done|].
  cbn -[Nat.modulo lookup delete length].
  set (i := (N.to_nat (hd 0%N t) mod length (a :: l))%nat).
  destruct ((a :: l) !! i) as [x|] eqn:Hx; [|apply submseteq_nil_l].
  specialize (IH (delete i (a :: l)) (tl t)).
  destruct (pick n (delete i (a :: l)) (tl t)) as [xs t'].
  cbn -[delete] in *.
  rewrite (delete_Permutation (a :: l) i x Hx). by apply submseteq_skip.
Qed.

Lemma randint_run {S} a b (w : world S) :
  a ≤ b →
  ∃ k, a ≤ k ≤ b ∧
    randint a b w = (World (self w) (tl (rng w)) (stdout w), Returned k).
Proof.
  intros Hab. exists (a + Z.of_N (hd 0%N (rng w)) mod (b - a + 1)). split.
  - pose proof (Z.mod_pos_bound (Z.of_N (hd 0%N (rng w))) (b - a + 1)). lia.
  - unfold randint. destruct (Z.ltb_spec b a); [lia|done].
Qed.

Lemma sample_run {S A} n (df : list A) (w : world S) :
  0 ≤ n ≤ Z.of_nat (length df) →
  ∃ rows t, rows ⊆+ df ∧ length rows = Z.to_nat n ∧
    sample n df w = (World (self w) t (stdout w), Returned rows).
Proof.
  intros Hn. unfold sample.
  destruct (Z.ltb_spec n 0); [lia|].
  destruct (Z.ltb_spec (Z.of_nat (length df)) n); [lia|].
  pose proof (pick_length (Z.to_nat n) df (rng w)) as Hlen.
  pose proof (pick_submseteq (Z.to_nat n) df (rng w)) as Hsub.
  destruct (pick (Z.to_nat n) df (rng w)) as [rows t]. cbn in *.
  exists rows, t. split_and!; [done|lia|done].
Qed.

Lemma sample_negative {S A} n (df : list A) (w : world S) :
  n < 0 → sample n df w = (w, Raised SampleSizeError).
Proof. intros Hn. unfold sample. by destruct (Z.ltb_spec n 0); [|lia]. Qed.

Lemma uniform_run {S} a b (w : world S) :
  ∃ u, (0 <= u)%Q ∧ (u < 1)%Q ∧
    uniform a b w =
      (World (self w) (tl (rng w)) (stdout w),
       Returned (double (a + double (double (b - a) * u)))).
Proof.
  exists (Z.of_N (hd 0%N (rng w) mod 2 ^ 53) # 2 ^ 53). split_and!; [| |done].
  - unfold Qle. cbn [Qnum Qden].
    rewrite Z.mul_0_l, Z.mul_1_r. apply N2Z.is_nonneg.
  - unfold Qlt. cbn [Qnum Qden]. rewrite Z.mul_1_r, Z.mul_1_l.
    change (Z.pos (2 ^ 53)) with (Z.of_N (2 ^ 53)).
    apply N2Z.inj_lt, N.mod_upper_bound. done.
Qed.

(** * Facts about the engine *)
Section EngineFacts.
Context {S Row B : Type}.
Variable frame : S → option (list Row).
Variable path : S → string.
Variable used_attr : S → option (gset string).
Variable with_used : option (gset string) → S → S.
Variable token : Row → string.
Variable entry : Row → Q → B.
Variable mode_of : S → option string.
Variable token_of : B → string.
Variable weight_of : B → Q.

Hypothesis token_entry : ∀ r x, token_of (entry r x) = token r.
Hypothesis weight_entry : ∀ r x, weight_of (entry r x) = x.

(** Assigning the used-set attribute touches nothing else. *)
Hypothesis used_with : ∀ u s, used_attr (with_used u s) = u.
Hypothesis frame_with : ∀ u s, frame (with_used u s) = frame s.
Hypothesis path_with : ∀ u s, path (with_used u s) = path s.
Hypothesis with_with : ∀ u v s, with_used u (with_used v s) = with_used u s.
Hypothesis with_same : ∀ s, with_used (used_attr s) s = s.
Hypothesis mode_with : ∀ u s, mode_of (with_used u s) = mode_of s.

Abbreviation used := (engine_used used_attr).
Abbreviation unused := (engine_unused token).
Abbreviation fresh := (materialise used_attr with_used).
Abbreviation random_mode := (engine_random frame path entry).
Abbreviation only_mode :=
  (engine_only frame path used_attr with_used token entry).
Abbreviation select :=
  (engine_select frame path used_attr with_used token entry mode_of).
Abbreviation pool_of :=
  (engine_pool used_attr token mode_of).

Lemma world_eta (w : world S) : World (self w) (rng w) (stdout w) = w.
Proof. by destruct w. Qed.

Lemma used_set u s : used (with_used (Some u) s) = u.
Proof. unfold engine_used. by rewrite used_with. Qed.

Lemma used_fresh s : used (fresh s) = used s.
Proof.
  unfold materialise, engine_used.
  destruct (used_attr s) eqn:E; [by rewrite E|by rewrite used_with].
Qed.

Lemma used_attr_fresh s : used_attr (fresh s) = Some (used s).
Proof.
  unfold materialise, engine_used.
  destruct (used_attr s) eqn:E; [by rewrite E|by rewrite used_with].
Qed.

Lemma frame_fresh s : frame (fresh s) = frame s.
Proof. unfold materialise. by destruct (used_attr s). Qed.

Lemma path_fresh s : path (fresh s) = path s.
Proof. unfold materialise. by destruct (used_attr s). Qed.

Lemma weigh_run a b rows (w : world S) :
  ∃ ws t, length ws = length rows ∧ Forall (drawn_weight a b) ws ∧
    for_each rows (λ r, do x <- uniform a b; ret (entry r (round2 x))) w =
      (World (self w) t (stdout w), Returned (zip_with entry rows ws)).
Proof.
  revert w. induction rows as [|r rows IH]; intros w.
  { exists [], (rng w). by rewrite world_eta. }
  destruct (uniform_run a b w) as (u & Hu0 & Hu1 & Hrun).
  destruct (IH (World (self w) (tl (rng w)) (stdout w))) as (ws & t & Hlen & Hws & Hrest).
  exists (round2 (double (a + double (double (b - a) * u))) :: ws), t.
  split_and!.
  - cbn. by rewrite Hlen.
  - constructor; [by exists u|done].
  - cbn [for_each]. rewrite bind_assoc, (bind_returned _ _ _ _ _ Hrun).
    rewrite bind_ret, (bind_returned _ _ _ _ _ Hrest). done.
Qed.

Lemma weigh_mark_run a b rows (w : world S) u :
  used_attr (self w) = Some u →
  ∃ ws t, length ws = length rows ∧ Forall (drawn_weight a b) ws ∧
    for_each rows (λ r,
      do x <- uniform a b;
      do_ modify (λ s, with_used (Some ({[token r]} ∪ used s)) s);
      ret (entry r (round2 x))) w =
      (World (with_used (Some (list_to_set (token <$> rows) ∪ u)) (self w))
         t (stdout w),
       Returned (zip_with entry rows ws)).
Proof.
  revert w u. induction rows as [|r rows IH]; intros w u Hu.
  { exists [], (rng w). split_and!; [done..|]. cbn.
    rewrite (left_id_L ∅ (∪)), <-Hu, with_same. by rewrite world_eta. }
  destruct (uniform_run a b w) as (q & Hq0 & Hq1 & Hrun).
  set (s1 := with_used (Some ({[token r]} ∪ u)) (self w)).
  destruct (IH (World s1 (tl (rng w)) (stdout w)) ({[token r]} ∪ u))
    as (ws & t & Hlen & Hws & Hrest); [apply used_with|].
  exists (round2 (double (a + double (double (b - a) * q))) :: ws), t.
  split_and!.
  - cbn. by rewrite Hlen.
  - constructor; [by exists q|done].
  - cbn [for_each]. rewrite bind_assoc, (bind_returned _ _ _ _ _ Hrun).
    rewrite bind_assoc, bind_modify, bind_ret. cbn [self rng stdout].
    replace (used (self w)) with u by (unfold engine_used; by rewrite Hu).
    fold s1. rewrite (bind_returned _ _ _ _ _ Hrest). cbn [self stdout].
    subst s1. rewrite with_with. unfold ret. do 4 f_equal.
    apply marked_cons.
Qed.

Lemma loaded_run (w : world S) df {C} (f : list Row → M S C) :
  frame (self w) = Some df →
  bind (engine_loaded frame) f w = f df w.
Proof.
  intros Hdf. unfold engine_loaded. by rewrite bind_assoc, bind_gets, Hdf, bind_ret.
Qed.

Lemma Qgtb_false x y : (x <= y)%Q → Qgtb x y = false.
Proof. intros H. unfold Qgtb. by rewrite (proj2 (Qle_bool_iff x y) H). Qed.

Lemma Qgtb_true x y : (y < x)%Q → Qgtb x y = true.
Proof.
  intros H. unfold Qgtb. destruct (Qle_bool x y) eqn:E; [|done].
  apply Qle_bool_iff in E. by apply Qlt_not_le in H.
Qed.

(** A call with a bad range stops at the check. *)
Lemma engine_random_invalid elig a b x y (w : world S) df :
  frame (self w) = Some df →
  b < a ∨ (y < x)%Q →
  ∃ k, engine_random frame path entry elig a b x y w =
         (w, Raised (InvalidParameterError k)).
Proof.
  intros Hdf Hbad. unfold engine_random. rewrite (loaded_run w df) by done.
  destruct (Z.gtb_spec a b); [by eexists|].
  destruct Hbad as [?|Hxy]; [lia|]. rewrite (Qgtb_true x y Hxy). by eexists.
Qed.

Lemma engine_only_invalid elig a b x y (w : world S) df :
  frame (self w) = Some df →
  b < a ∨ (y < x)%Q →
  ∃ k, engine_only frame path used_attr with_used token entry elig a b x y w =
         (World (fresh (self w)) (rng w) (stdout w),
          Raised (InvalidParameterError k)).
Proof.
  intros Hdf Hbad. unfold engine_only. rewrite bind_modify.
  rewrite (loaded_run _ df) by (cbn; by rewrite frame_fresh).
  destruct (Z.gtb_spec a b); [by eexists|].
  destruct Hbad as [?|Hxy]; [lia|]. rewrite (Qgtb_true x y Hxy). by eexists.
Qed.

(** What a call with good ranges does in "random" mode. *)
Lemma engine_random_valid elig a b x y (w : world S) df :
  frame (self w) = Some df → a ≤ b → (x <= y)%Q →
  let run := engine_random frame path entry elig a b x y w in
  let pool := elig df in
  (pool = [] ∧ run = (w, Raised NoEligibleRecordsError))
  ∨ (pool ≠ [] ∧ ∃ k, a ≤ k ≤ b ∧
      let n := Z.min k (Z.of_nat (length pool)) in
      (n < 0 ∧
         run = (World (self w) (tl (rng w)) (stdout w), Raised SampleSizeError))
      ∨ (0 ≤ n ∧ ∃ rows ws t,
           rows ⊆+ pool ∧ length rows = Z.to_nat n ∧
           length ws = length rows ∧ Forall (drawn_weight x y) ws ∧
           run = (World (self w) t
                    (stdout w ++ [RandomReport (path (self w))
                       (Z.of_nat (length df)) (Z.of_nat (length pool)) n]),
                  Returned (zip_with entry rows ws)))).
Proof.
  intros Hdf Hab Hxy run pool. subst run. unfold engine_random.
  rewrite (loaded_run w df) by done.
  destruct (Z.gtb_spec a b); [lia|]. rewrite (Qgtb_false x y Hxy).
  fold pool. destruct pool as [|r0 pool0] eqn:Hpool; [by left|].
  right. split; [done|]. rewrite <-Hpool. clear Hpool.
  destruct (randint_run a b w Hab) as (k & Hk & Hrun).
  exists k. split; [done|]. rewrite (bind_returned _ _ _ _ _ Hrun).
  cbv zeta. set (n := Z.min k (Z.of_nat (length pool))).
  destruct (Z.lt_ge_cases n 0) as [Hn|Hn].
  { left. split; [done|].
    by rewrite (bind_raised _ _ _ _ _ (sample_negative n pool _ Hn)). }
  right. split; [done|].
  destruct (sample_run n pool (World (self w) (tl (rng w)) (stdout w)))
    as (rows & t & Hsub & Hlen & Hsample); [lia|].
  rewrite (bind_returned _ _ _ _ _ Hsample). cbn [self stdout].
  destruct (weigh_run x y rows (World (self w) t (stdout w)))
    as (ws & t' & Hws & Hdrawn & Hloop).
  rewrite (bind_returned _ _ _ _ _ Hloop). cbn [self stdout].
  exists rows, ws, t'. by rewrite bind_gets, bind_print.
Qed.

(** What a call with good ranges does in "only" mode: [reset] tells
    whether nothing eligible was left unused. *)
Lemma engine_only_valid elig a b x y (w : world S) df :
  frame (self w) = Some df → a ≤ b → (x <= y)%Q →
  let run :=
    engine_only frame path used_attr with_used token entry elig a b x y w in
  let all := elig df in
  let available := unused (used (self w)) all in
  let reset := bool_decide (available = []) in
  let pool := if reset then all else available in
  let s1 := if reset then with_used (Some ∅) (self w) else fresh (self w) in
  let u1 := if reset then ∅ else used (self w) in
  let out1 :=
    if reset then stdout w ++ [ResetNotice (path (self w))] else stdout w in
  (pool = [] ∧ run = (World s1 (rng w) out1, Raised NoEligibleRecordsError))
  ∨ (pool ≠ [] ∧ ∃ k, a ≤ k ≤ b ∧
      let n := Z.min k (Z.of_nat (length pool)) in
      (n < 0 ∧ run = (World s1 (tl (rng w)) out1, Raised SampleSizeError))
      ∨ (0 ≤ n ∧ ∃ rows ws t,
           rows ⊆+ pool ∧ length rows = Z.to_nat n ∧
           length ws = length rows ∧ Forall (drawn_weight x y) ws ∧
           let u' := list_to_set (token <$> rows) ∪ u1 in
           run = (World (with_used (Some u') (self w)) t
                    (out1 ++ [OnlyReport (path (self w))
                       (Z.of_nat (length df)) (Z.of_nat (length all))
                       (Z.of_nat (length pool)) (Z.of_nat (size u')) n]),
                  Returned (zip_with entry rows ws)))).
Proof.
  intros Hdf Hab Hxy run all available reset pool s1 u1 out1.
  assert (∃ w1, run = bind (gets (λ _ : S, pool)) (λ valid,
      match valid with
      | [] => raise NoEligibleRecordsError
      | _ :: _ =>
          do k <- randint a b;
          let count := Z.min k (Z.of_nat (length valid)) in
          do selected <- sample count valid;
          do result <- for_each selected (λ r,
            do q <- uniform x y;
            do_ modify (λ s, with_used (Some ({[token r]} ∪ used s)) s);
            ret (entry r (round2 q)));
          do u' <- gets used;
          do_ print (OnlyReport (path (self w)) (Z.of_nat (length df))
                       (Z.of_nat (length all)) (Z.of_nat (length valid))
                       (Z.of_nat (size u')) count);
          ret result
      end) w1 ∧ w1 = World s1 (rng w) out1) as (w1 & -> & ->).
  { subst run. unfold engine_only. rewrite bind_modify.
    rewrite (loaded_run _ df) by (cbn; by rewrite frame_fresh).
    destruct (Z.gtb_spec a b); [lia|]. rewrite (Qgtb_false x y Hxy).
    rewrite !bind_gets. cbn [self rng stdout].
    rewrite used_fresh, path_fresh. fold all. fold available.
    subst reset pool s1 u1 out1. destruct available as [|r0 rest] eqn:Hav.
    - rewrite bool_decide_eq_true_2 by done.
      rewrite bind_assoc, bind_modify, bind_assoc, bind_print, bind_ret.
      cbn [self rng stdout]. unfold materialise.
      eexists. split; [reflexivity|].
      f_equal. destruct (used_attr (self w)); [done|by rewrite with_with].
    - rewrite bool_decide_eq_false_2 by done.
      rewrite bind_ret. by eexists. }
  rewrite bind_gets. cbn [self].
  assert (Hs1 : used_attr s1 = Some u1).
  { subst s1 u1. destruct reset; [apply used_with|apply used_attr_fresh]. }
  assert (Hw1 : ∀ u, with_used u s1 = with_used u (self w)).
  { intros u. subst s1. destruct reset; [apply with_with|].
    unfold materialise. destruct (used_attr (self w)); [done|apply with_with]. }
  destruct pool as [|r0 pool0] eqn:Hpool; [by left|].
  right. split; [done|]. rewrite <-Hpool. clear Hpool.
  destruct (randint_run a b (World s1 (rng w) out1) Hab) as (k & Hk & Hrun).
  exists k. split; [done|]. rewrite (bind_returned _ _ _ _ _ Hrun).
  cbv zeta. cbn [self rng stdout]. set (n := Z.min k (Z.of_nat (length pool))).
  destruct (Z.lt_ge_cases n 0) as [Hn|Hn].
  { left. split; [done|].
    by rewrite (bind_raised _ _ _ _ _ (sample_negative n pool _ Hn)). }
  right. split; [done|].
  destruct (sample_run n pool (World s1 (tl (rng w)) out1))
    as (rows & t & Hsub & Hlen & Hsample); [lia|].
  rewrite (bind_returned _ _ _ _ _ Hsample). cbn [self stdout].
  destruct (weigh_mark_run x y rows (World s1 t out1) u1 Hs1)
    as (ws & t' & Hws & Hdrawn & Hloop).
  rewrite (bind_returned _ _ _ _ _ Hloop). cbn [self stdout].
  exists rows, ws, t'. rewrite bind_gets, bind_print. cbn [self rng stdout].
  unfold engine_used. rewrite used_with, Hw1. done.
Qed.

(** The mode comes from the configuration alone. *)
Lemma select_random elig a b x y (w : world S) :
  mode_of (self w) = Some "random" →
  select elig a b x y w = random_mode elig a b x y w.
Proof. intros Hm. unfold engine_select. by rewrite bind_gets, Hm. Qed.

Lemma select_only elig a b x y (w : world S) :
  mode_of (self w) = Some "only" →
  select elig a b x y w = only_mode elig a b x y w.
Proof. intros Hm. unfold engine_select. by rewrite bind_gets, Hm. Qed.

Lemma select_other elig a b x y (w : world S) :
  mode_of (self w) ≠ Some "random" → mode_of (self w) ≠ Some "only" →
  ∃ e, select elig a b x y w = (w, Raised e) ∧
       e ≠ NoEligibleRecordsError ∧ ∀ k, e ≠ InvalidParameterError k.
Proof.
  intros Hr Ho. unfold engine_select. rewrite bind_gets.
  destruct (mode_of (self w)) as [m|]; [|by eexists].
  destruct (decide (m = "random")) as [->|]; [done|].
  destruct (decide (m = "only")) as [->|]; [done|by eexists].
Qed.

Lemma pool_random elig (s : S) df :
  mode_of s = Some "random" → pool_of elig s df = elig df.
Proof. intros Hm. unfold engine_pool. by rewrite Hm. Qed.

Lemma pool_only elig (s : S) df :
  mode_of s = Some "only" →
  pool_of elig s df =
    if bool_decide (unused (used s) (elig df) = []) then elig df
    else unused (used s) (elig df).
Proof.
  intros Hm. unfold engine_pool. rewrite Hm. rewrite decide_True by done.
  by destruct (unused (used s) (elig df)).
Qed.

Lemma pool_submseteq elig (s : S) df : pool_of elig s df ⊆+ elig df.
Proof.
  unfold engine_pool. destruct (decide _); [|done].
  destruct (unused (used s) (elig df)) eqn:E; [done|]. rewrite <-E.
  apply sublist_submseteq, sublist_filter.
Qed.

(** Every call that returns: what it drew and what it returns. *)
Lemma select_returned elig a b x y (w w' : world S) res df :
  frame (self w) = Some df →
  select elig a b x y w = (w', Returned res) →
  a ≤ b ∧ (x <= y)%Q ∧
  ∃ k rows ws,
    a ≤ k ≤ b ∧
    0 ≤ Z.min k (Z.of_nat (length (pool_of elig (self w) df))) ∧
    rows ⊆+ pool_of elig (self w) df ∧
    length rows =
      Z.to_nat (Z.min k (Z.of_nat (length (pool_of elig (self w) df)))) ∧
    length ws = length rows ∧
    Forall (drawn_weight x y) ws ∧
    res = zip_with entry rows ws.
Proof.
  intros Hdf Hrun.
  destruct (decide (mode_of (self w) = Some "random")) as [Hr|Hr].
  { rewrite select_random in Hrun by done. rewrite pool_random by done.
    destruct (Z.lt_ge_cases b a) as [Hab|Hab].
    { destruct (engine_random_invalid elig a b x y w df Hdf (or_introl Hab))
        as [k Hk]. congruence. }
    destruct (Qlt_le_dec y x) as [Hxy|Hxy].
    { destruct (engine_random_invalid elig a b x y w df Hdf (or_intror Hxy))
        as [k Hk]. congruence. }
    split; [lia|]. split; [done|].
    destruct (engine_random_valid elig a b x y w df Hdf ltac:(lia) Hxy)
      as [[_ H]|(_ & k & Hk & [[_ H]|(Hn & rows & ws & t & ? & ? & ? & ? & H)])];
      [congruence..|].
    exists k, rows, ws. split_and!; try done; try lia. congruence. }
  destruct (decide (mode_of (self w) = Some "only")) as [Ho|Ho].
  { rewrite select_only in Hrun by done. rewrite pool_only by done.
    destruct (Z.lt_ge_cases b a) as [Hab|Hab].
    { destruct (engine_only_invalid elig a b x y w df Hdf (or_introl Hab))
        as [k Hk]. congruence. }
    destruct (Qlt_le_dec y x) as [Hxy|Hxy].
    { destruct (engine_only_invalid elig a b x y w df Hdf (or_intror Hxy))
        as [k Hk]. congruence. }
    split; [lia|]. split; [done|].
    destruct (engine_only_valid elig a b x y w df Hdf ltac:(lia) Hxy)
      as [[_ H]|(_ & k & Hk & [[_ H]|(Hn & rows & ws & t & ? & ? & ? & ? & H)])];
      [congruence..|].
    exists k, rows, ws. split_and!; try done; try lia.
    cbv zeta in H. congruence. }
  destruct (select_other elig a b x y w Hr Ho) as (e & He & _). congruence.
Qed.

(** "Only" mode with good ranges and nothing eligible: the used-set is
    cleared and the notice printed before the call raises. *)
Lemma only_no_eligible elig a b x y (w : world S) df :
  frame (self w) = Some df → a ≤ b → (x <= y)%Q → elig df = [] →
  only_mode elig a b x y w =
    (World (with_used (Some ∅) (self w)) (rng w)
       (stdout w ++ [ResetNotice (path (self w))]),
     Raised NoEligibleRecordsError).
Proof.
  intros Hdf Hab Hxy Hnone.
  destruct (engine_only_valid elig a b x y w df Hdf Hab Hxy)
    as [[_ H]|[Hpool _]]; cbv zeta in *; rewrite Hnone in *.
  - by rewrite bool_decide_eq_true_2 in H by done.
  - rewrite bool_decide_eq_true_2 in Hpool by done. done.
Qed.

Lemma only_no_eligible_inv elig a b x y (w w' : world S) df :
  frame (self w) = Some df →
  only_mode elig a b x y w = (w', Raised NoEligibleRecordsError) →
  elig df = [].
Proof.
  intros Hdf Hrun.
  destruct (Z.lt_ge_cases b a) as [Hab|Hab].
  { destruct (engine_only_invalid elig a b x y w df Hdf (or_introl Hab))
      as [k Hk]. congruence. }
  destruct (Qlt_le_dec y x) as [Hxy|Hxy].
  { destruct (engine_only_invalid elig a b x y w df Hdf (or_intror Hxy))
      as [k Hk]. congruence. }
  destruct (engine_only_valid elig a b x y w df Hdf ltac:(lia) Hxy)
    as [[Hpool _]|(_ & k & Hk & [[_ H]|(Hn & rows & ws & t & ? & ? & ? & ? & H)])];
    cbv zeta in *; [|congruence..].
  destruct (bool_decide _) eqn:E; [done|].
  apply bool_decide_eq_false in E. done.
Qed.

(** "Only" mode with good ranges, a count that cannot be negative, eligible
    records and none of them unused: the call goes on after the reset. *)
Lemma only_recovers elig a b x y (w : world S) df :
  frame (self w) = Some df → a ≤ b → (x <= y)%Q → 0 ≤ a →
  elig df ≠ [] → unused (used (self w)) (elig df) = [] →
  ∃ k rows ws t,
    a ≤ k ≤ b ∧ rows ⊆+ elig df ∧
    Z.of_nat (length rows) = Z.min k (Z.of_nat (length (elig df))) ∧
    length ws = length rows ∧
    only_mode elig a b x y w =
      (World (with_used (Some (list_to_set (token <$> rows))) (self w)) t
         (stdout w ++
            [ResetNotice (path (self w));
             OnlyReport (path (self w)) (Z.of_nat (length df))
               (Z.of_nat (length (elig df))) (Z.of_nat (length (elig df)))
               (Z.of_nat (size (list_to_set (token <$> rows) : gset string)))
               (Z.min k (Z.of_nat (length (elig df))))]),
       Returned (zip_with entry rows ws)).
Proof.
  intros Hdf Hab Hxy Ha Hsome Hnone.
  destruct (engine_only_valid elig a b x y w df Hdf Hab Hxy)
    as [[Hpool _]|(_ & k & Hk & [[Hn _]|(Hn & rows & ws & t & ? & ? & ? & ? & H)])];
    cbv zeta in *; rewrite Hnone in *;
    rewrite bool_decide_eq_true_2 in * by done; [done|lia|].
  exists k, rows, ws, t. rewrite (right_id_L ∅ (∪)) in H.
  rewrite <-(assoc_L (++)) in H. split_and!; [lia|lia|done|lia|done|done].
Qed.

(** One call in "only" mode, whatever its outcome, against the used-set:
    what is returned is marked; nothing else gets in; and either nothing
    eligible was unused, and a result then is all the used-set holds, or the
    used-set only grows, by tokens it did not hold. *)
Lemma only_step elig a b x y (w w' : world S) o df :
  frame (self w) = Some df →
  only_mode elig a b x y w = (w', o) →
  (∃ u, self w' = with_used (Some u) (self w)) ∧
  returned_tokens (fmap token_of) o ⊆ used (self w') ∧
  used (self w') ⊆ used (self w) ∪ returned_tokens (fmap token_of) o ∧
  (unused (used (self w)) (elig df) = [] ∧
     (∀ r, o = Returned r → used (self w') = returned_tokens (fmap token_of) o)
   ∨ unused (used (self w)) (elig df) ≠ [] ∧
     used (self w) ⊆ used (self w') ∧
     returned_tokens (fmap token_of) o ## used (self w)).
Proof.
  intros Hdf Hrun.
  assert (Hfresh : fresh (self w) = with_used (Some (used (self w))) (self w)).
  { pose proof (with_same (self w)) as Hs. unfold materialise, engine_used.
    destruct (used_attr (self w)); [|done]. symmetry. exact Hs. }
  assert (Hcases : unused (used (self w)) (elig df) = [] ∨
                   unused (used (self w)) (elig df) ≠ []).
  { destruct (unused (used (self w)) (elig df)); [by left|by right]. }
  match goal with
  | |- ?G => assert (b < a ∨ (y < x)%Q → G) as Hbad
  end.
  { intros Hor.
    destruct (engine_only_invalid elig a b x y w df Hdf Hor) as [k Hk].
    rewrite Hk in Hrun. injection Hrun as <- <-. cbn.
    rewrite used_fresh. split; [by eexists|]. split; [set_solver|].
    split; [set_solver|]. destruct Hcases as [?|?]; [by left|right].
    split; [done|]. split; set_solver. }
  destruct (Z.lt_ge_cases b a) as [Hab|Hab]; [by apply Hbad; left|].
  destruct (Qlt_le_dec y x) as [Hxy|Hxy]; [by apply Hbad; right|].
  clear Hbad.
  destruct (engine_only_valid elig a b x y w df Hdf ltac:(lia) Hxy)
    as [[Hpool H]|(_ & k & Hk & [[_ H]|(Hn & rows & ws & t & Hsub & ? & Hws & ? & H)])];
    cbv zeta in *; rewrite H in Hrun; injection Hrun as <- <-; cbn.
  - destruct Hcases as [Hnone|Hsome].
    + rewrite bool_decide_eq_true_2 by done. rewrite !used_set.
      split; [by eexists|]. split; [set_solver|].
      split; [set_solver|]. by left.
    + rewrite bool_decide_eq_false_2 in Hpool by done. done.
  - destruct Hcases as [Hnone|Hsome].
    + rewrite bool_decide_eq_true_2 by done. rewrite !used_set.
      split; [by eexists|]. split; [set_solver|].
      split; [set_solver|]. by left.
    + rewrite bool_decide_eq_false_2 by done. rewrite used_fresh.
      split; [by eexists|]. split; [set_solver|]. split; [set_solver|].
      right. split; [done|]. split; set_solver.
  - rewrite (fmap_zip_with_via _ _ token) by (done || lia).
    rewrite !used_set.
    split; [by eexists|]. split; [set_solver|].
    destruct Hcases as [Hnone|Hsome].
    + rewrite bool_decide_eq_true_2 by done.
      split; [set_solver|]. left. split; [done|]. intros _ _. set_solver.
    + rewrite bool_decide_eq_false_2 in * by done.
      split; [set_solver|]. right. split; [done|]. split; [set_solver|].
      intros tok Htok Hin. apply elem_of_list_to_set in Htok.
      apply list_elem_of_fmap in Htok as (r & -> & Hr).
      eapply elem_of_submseteq in Hr; [|exact Hsub].
      by apply list_elem_of_filter in Hr as [Hnot _].
Qed.

(** A bad range in either mode: the call raises at the check, having drawn
    and printed nothing; "only" mode has at most created the used-set, empty,
    where the object had none. *)
Lemma select_invalid elig a b x y (w : world S) df :
  frame (self w) = Some df →
  mode_of (self w) = Some "random" ∨ mode_of (self w) = Some "only" →
  b < a ∨ (y < x)%Q →
  ∃ k w',
    select elig a b x y w = (w', Raised (InvalidParameterError k)) ∧
    (w' = w ∨ w' = World (fresh (self w)) (rng w) (stdout w)).
Proof.
  intros Hdf [Hm|Hm] Hbad.
  - rewrite select_random by done.
    destruct (engine_random_invalid elig a b x y w df Hdf Hbad) as [k Hk].
    exists k, w. split; [done|by left].
  - rewrite select_only by done.
    destruct (engine_only_invalid elig a b x y w df Hdf Hbad) as [k Hk].
    eexists k, _. split; [done|by right].
Qed.

End EngineFacts.

(** * Facts about rounding *)

(** Rounding never crosses an integer. *)
Lemma round_half_even_lower (k : Z) (x : Q) :
  (inject_Z k <= x)%Q → k ≤ round_half_even x.
Proof.
  destruct x as [n d]. unfold Qle, round_half_even. cbn [Qnum Qden inject_Z].
  intros Hk. assert (k ≤ n / Z.pos d) by (apply Z.div_le_lower_bound; lia).
  destruct (2 * (n mod Z.pos d) ?= Z.pos d); [destruct (Z.even _)|..]; lia.
Qed.

Lemma round_half_even_upper (k : Z) (x : Q) :
  (x <= inject_Z k)%Q → round_half_even x ≤ k.
Proof.
  destruct x as [n d]. unfold Qle, round_half_even. cbn [Qnum Qden inject_Z].
  intros Hk.
  pose proof (Z.div_mod n (Z.pos d) ltac:(lia)) as Hdiv.
  pose proof (Z.mod_pos_bound n (Z.pos d) ltac:(lia)) as Hmod.
  set (q := n / Z.pos d) in *. set (r := n mod Z.pos d) in *.
  destruct (Z.compare_spec (2 * r) (Z.pos d));
    [destruct (Z.even q)|..]; nia.
Qed.

(** The rounded value is within a half of the value. *)
Lemma round_half_even_near (x : Q) :
  (x - (1 # 2) <= inject_Z (round_half_even x))%Q ∧
  (inject_Z (round_half_even x) <= x + (1 # 2))%Q.
Proof.
  destruct x as [n d]. unfold Qle, round_half_even, Qminus, Qplus, Qopp.
  cbn [Qnum Qden inject_Z].
  pose proof (Z.div_mod n (Z.pos d) ltac:(lia)) as Hdiv.
  pose proof (Z.mod_pos_bound n (Z.pos d) ltac:(lia)) as Hmod.
  set (q := n / Z.pos d) in *. set (r := n mod Z.pos d) in *.
  rewrite !Pos2Z.inj_mul.
  destruct (Z.compare_spec (2 * r) (Z.pos d));
    [destruct (Z.even q)|..]; nia.
Qed.

(** * Facts about doubles *)

Lemma pow2_pos k : (0 < pow2 k)%Q.
Proof. by apply Qpower_0_lt. Qed.

Lemma pow2_add j k : (pow2 (j + k) == pow2 j * pow2 k)%Q.
Proof. by apply Qpower_plus. Qed.

Lemma pow2_le j k : j ≤ k → (pow2 j <= pow2 k)%Q.
Proof. intros. by apply Qpower_le_compat_l. Qed.

Lemma pow2_Z k : 0 ≤ k → (pow2 k == inject_Z (2 ^ k))%Q.
Proof. intros. symmetry. by apply Zpower_Qpower. Qed.

Lemma pow2_half k : (pow2 (k - 1) == pow2 k * (1 # 2))%Q.
Proof. unfold Z.sub. by rewrite pow2_add. Qed.

(** The two powers of two around the absolute value of a fraction. *)
Lemma log2_bounds (x : Q) :
  ¬ (x == 0)%Q →
  let k := Z.log2 (Z.abs (Qnum x)) - Z.log2 (Z.pos (Qden x)) in
  (pow2 (k - 1) <= Qabs x)%Q ∧ (Qabs x < pow2 (k + 1))%Q.
Proof.
  intros Hx k. destruct x as [n d]. cbn [Qnum Qden Qabs] in *.
  assert (0 < Z.abs n) as Hn.
  { destruct (decide (n = 0)) as [->|]; [by destruct Hx|lia]. }
  set (a := Z.log2 (Z.abs n)) in *. set (b := Z.log2 (Z.pos d)) in *.
  pose proof (Z.log2_spec (Z.abs n) Hn) as [Ha1 Ha2].
  pose proof (Z.log2_spec (Z.pos d) ltac:(lia)) as [Hb1 Hb2].
  pose proof (Z.log2_nonneg (Z.abs n)). pose proof (Z.log2_nonneg (Z.pos d)).
  fold a in Ha1, Ha2, H. fold b in Hb1, Hb2, H0.
  rewrite (Qmake_Qdiv (Z.abs n) d).
  assert (0 < inject_Z (Z.pos d))%Q as HD by (unfold Qlt; cbn; lia).
  assert (pow2 a <= inject_Z (Z.abs n))%Q as Q1.
  { rewrite pow2_Z by done. by rewrite <- Zle_Qle. }
  assert (inject_Z (Z.abs n) < pow2 (a + 1))%Q as Q2.
  { rewrite pow2_Z by lia. rewrite <- Zlt_Qlt. by rewrite <- Z.add_1_r in Ha2. }
  assert (pow2 b <= inject_Z (Z.pos d))%Q as Q3.
  { rewrite pow2_Z by done. by rewrite <- Zle_Qle. }
  assert (inject_Z (Z.pos d) < pow2 (b + 1))%Q as Q4.
  { rewrite pow2_Z by lia. rewrite <- Zlt_Qlt. by rewrite <- Z.add_1_r in Hb2. }
  pose proof (pow2_pos a). pose proof (pow2_pos b).
  pose proof (pow2_pos (k - 1)) as Hk1. pose proof (pow2_pos (k + 1)) as Hk2.
  assert (pow2 a == pow2 (k - 1) * pow2 (b + 1))%Q as E1.
  { rewrite <- pow2_add. by replace (k - 1 + (b + 1)) with a by lia. }
  assert (pow2 (a + 1) == pow2 (k + 1) * pow2 b)%Q as E2.
  { rewrite <- pow2_add. by replace (k + 1 + b) with (a + 1) by lia. }
  split.
  - apply Qle_shift_div_l; [done|]. nra.
  - apply Qlt_shift_div_r; [done|]. nra.
Qed.

Lemma ilog2_bounds (x : Q) :
  ¬ (x == 0)%Q → (pow2 (ilog2 x) <= Qabs x)%Q ∧ (Qabs x < pow2 (ilog2 x + 1))%Q.
Proof.
  intros Hx. destruct (log2_bounds x Hx) as [Hlo Hhi]. cbv zeta in *.
  unfold ilog2.
  set (k := Z.log2 (Z.abs (Qnum x)) - Z.log2 (Z.pos (Qden x))) in *.
  destruct (Qle_bool (pow2 k) (Qabs x)) eqn:Hk.
  - apply Qle_bool_iff in Hk. by split.
  - split; [done|]. replace (k - 1 + 1) with k by lia.
    apply Qnot_le_lt. intros Hle. apply Qle_bool_iff in Hle. congruence.
Qed.

(** A double is within half a unit in the last place of what it rounds. *)
Lemma double_err x :
  (x - pow2 (ulp_exponent x - 1) <= double x)%Q ∧
  (double x <= x + pow2 (ulp_exponent x - 1))%Q.
Proof.
  unfold double. set (e := ulp_exponent x).
  pose proof (pow2_pos e) as He.
  destruct (round_half_even_near (x / pow2 e)) as [Hlo Hhi].
  revert Hlo Hhi. generalize (inject_Z (round_half_even (x / pow2 e))).
  intros z Hlo Hhi. rewrite pow2_half.
  assert (x == x / pow2 e * pow2 e)%Q as Hx
    by (field; apply Qnot_eq_sym, Qlt_not_eq, He).
  set (y := (x / pow2 e)%Q) in *. set (q := pow2 e) in *. clearbody y q.
  assert (0 <= (z - (y - (1 # 2))) * q)%Q
    by (apply Qmult_le_0_compat; lra).
  assert (0 <= (y + (1 # 2) - z) * q)%Q
    by (apply Qmult_le_0_compat; lra).
  split; lra.
Qed.

(** Rounding 0 gives 0. *)
Lemma double_0 x : (x == 0)%Q → (double x == 0)%Q.
Proof.
  intros Hx. unfold double. set (e := ulp_exponent x).
  assert (round_half_even (x / pow2 e) = 0) as ->; [|apply Qmult_0_l].
  assert (Qnum (x / pow2 e) = 0) as Hn.
  { destruct x as [n d]. unfold Qeq in Hx. cbn in Hx.
    assert (n = 0) as -> by lia. done. }
  unfold round_half_even. rewrite Hn. cbn. done.
Qed.

(** The half unit in the last place, against the size of the number. *)
Lemma ulp_small x :
  ¬ (x == 0)%Q →
  (pow2 (ulp_exponent x - 1) <= Qabs x * pow2 (-53) + pow2 (-1075))%Q.
Proof.
  intros Hx. destruct (ilog2_bounds x Hx) as [Hlo _]. unfold ulp_exponent.
  pose proof (pow2_pos (-53)). pose proof (pow2_pos (-1075)).
  pose proof (Qabs_nonneg x).
  destruct (Z.max_spec (ilog2 x) (-1022)) as [[? ->]|[? ->]].
  - change (-1022 - 52 - 1) with (-1075). nra.
  - replace (ilog2 x - 52 - 1) with (ilog2 x + -53) by lia.
    rewrite pow2_add. nra.
Qed.

(** The rounding error of a number of size at most [M]. *)
Lemma double_near x M :
  (- M <= x)%Q → (x <= M)%Q →
  (x - (M * pow2 (-53) + pow2 (-1075)) <= double x)%Q ∧
  (double x <= x + (M * pow2 (-53) + pow2 (-1075)))%Q.
Proof.
  intros Hlo Hhi.
  pose proof (pow2_pos (-53)). pose proof (pow2_pos (-1075)).
  destruct (Qeq_dec x 0) as [Hx|Hx].
  { rewrite (double_0 x Hx). nra. }
  destruct (double_err x) as [Elo Ehi]. pose proof (ulp_small x Hx) as Hu.
  assert (Qabs x <= M)%Q as Habs by (apply Qabs_Qle_condition; by split).
  split; nra.
Qed.

(** What the rounding returns has a mantissa of 53 bits: it is a double. *)
Lemma double_mantissa x :
  - 2 ^ 53 ≤ round_half_even (x / pow2 (ulp_exponent x)) ≤ 2 ^ 53.
Proof.
  set (e := ulp_exponent x). pose proof (pow2_pos e) as He.
  destruct (Qeq_dec x 0) as [Hx|Hx].
  { assert (Qnum (x / pow2 e) = 0) as Hn.
    { destruct x as [n d]. unfold Qeq in Hx. cbn in Hx.
      assert (n = 0) as -> by lia. done. }
    assert (round_half_even (x / pow2 e) = 0) as ->
      by (unfold round_half_even; rewrite Hn; by cbn).
    split; by vm_compute. }
  assert ((- inject_Z (2 ^ 53) <= x / pow2 e)%Q ∧
          (x / pow2 e <= inject_Z (2 ^ 53))%Q) as [Hlo Hhi].
  { destruct (ilog2_bounds x Hx) as [_ Hup].
    assert (pow2 (ilog2 x + 1) <= pow2 (e + 53))%Q as Hle
      by (apply pow2_le; unfold e, ulp_exponent; lia).
    assert (pow2 (e + 53) == pow2 e * inject_Z (2 ^ 53))%Q as E.
    { rewrite pow2_add. apply Qmult_comp; [reflexivity|].
      by apply Qeq_bool_iff. }
    assert (Qabs x <= inject_Z (2 ^ 53) * pow2 e)%Q as Habs by lra.
    apply Qabs_Qle_condition in Habs as [Hl Hh].
    split.
    - apply Qle_shift_div_l; [done|]. lra.
    - apply Qle_shift_div_r; [done|]. lra. }
  split.
  - apply round_half_even_lower. by rewrite inject_Z_opp.
  - by apply round_half_even_upper.
Qed.

(** The rounding at numbers whose doubles are well known: 0.1, 1/3,
    2^53 + 1 (a tie, which goes to the even mantissa), and a half and three
    halves of the smallest subnormal number (ties again). *)
Example double_values :
  (double (1 # 10) == 3602879701896397 # 36028797018963968)%Q ∧
  (double (1 # 3) == 6004799503160661 # 18014398509481984)%Q ∧
  (double (9007199254740993 # 1) == 9007199254740992 # 1)%Q ∧
  (double (pow2 (-1075)) == 0)%Q ∧
  (double (3 * pow2 (-1075)) == pow2 (-1073))%Q.
Proof. split_and!; by apply Qeq_bool_iff. Qed.

(** Numbers up to 2^22 in size round to within 2^-30. *)
Lemma double_close y :
  (- (4194304) <= y)%Q → (y <= 4194304)%Q →
  (y - (1 # 1073741824) <= double y)%Q ∧
  (double y <= y + (1 # 1073741824))%Q.
Proof.
  intros Hlo Hhi. destruct (double_near y 4194304 Hlo Hhi) as [Elo Ehi].
  assert (4194304 * pow2 (-53) + pow2 (-1075) <= 1 # 1073741824)%Q as Heps
    by (apply Qle_bool_iff; by vm_compute).
  split; lra.
Qed.

(** A number that rounds into [-2^20, 2^20] is itself below 2^22 in size. *)
Lemma double_bounded y :
  (- (1048576) <= double y)%Q → (double y <= 1048576)%Q →
  (- (4194304) <= y)%Q ∧ (y <= 4194304)%Q.
Proof.
  intros Hlo Hhi.
  assert (pow2 (-53) <= 1 # 2)%Q as H53 by (apply Qle_bool_iff; by vm_compute).
  assert (pow2 (-1075) <= 1)%Q as H1075
    by (apply Qle_bool_iff; by vm_compute).
  pose proof (pow2_pos (-53)). pose proof (pow2_pos (-1075)).
  destruct (Qlt_le_dec y 0) as [Hneg|Hpos].
  - destruct (double_near y (- y) ltac:(lra) ltac:(lra)) as [Elo Ehi].
    split; [|lra]. nra.
  - destruct (double_near y y ltac:(lra) ltac:(lra)) as [Elo Ehi].
    split; [lra|]. nra.
Qed.

(** Integers are one apart. *)
Lemma Z_above (j k : Z) : (inject_Z j - 1 < inject_Z k)%Q → j ≤ k.
Proof. unfold Qlt, Qminus, Qplus, Qopp, inject_Z. cbn. lia. Qed.

Lemma Z_step (j k : Z) : j < k → (inject_Z j + 1 <= inject_Z k)%Q.
Proof. unfold Qle, Qplus, inject_Z. cbn. lia. Qed.

Lemma hundredths (z : Z) : (z # 100 == inject_Z z / 100)%Q.
Proof. by rewrite (Qmake_Qdiv z 100). Qed.

(** A drawn weight, against the two bounds. *)
Lemma drawn_weight_bounds a b x :
  (a <= b)%Q → (- (1048576) <= a)%Q → (b <= 1048576)%Q →
  drawn_weight a b x →
  two_decimals x ∧
  (a - ((1 # 200) + (1 # 268435456)) <= x)%Q ∧
  (x <= b + ((1 # 200) + (1 # 268435456)))%Q ∧
  (two_decimals a → (a <= x)%Q) ∧
  (two_decimals b → (x <= b)%Q).
Proof.
  intros Hab Ha Hb (u & Hu0 & Hu1 & ->). unfold round2.
  set (d1 := double (b - a)).
  destruct (double_close (b - a) ltac:(lra) ltac:(lra)) as [L1 U1].
  fold d1 in L1, U1.
  set (p := (d1 * u)%Q).
  assert (- (1 # 1073741824) <= p)%Q as Lp by (unfold p; nra).
  assert (p <= b - a + (1 # 1073741824))%Q as Up by (unfold p; nra).
  set (d2 := double p).
  destruct (double_close p ltac:(lra) ltac:(lra)) as [L2 U2].
  fold d2 in L2, U2.
  set (x0 := double (a + d2)).
  destruct (double_close (a + d2) ltac:(lra) ltac:(lra)) as [L3 U3].
  fold x0 in L3, U3.
  set (z := round_half_even (x0 * 100)).
  destruct (round_half_even_near (x0 * 100)) as [Lz Uz]. fold z in Lz, Uz.
  pose proof (hundredths z) as Hy.
  set (y := z # 100) in *.
  assert (y * 100 == inject_Z z)%Q as Hy' by (rewrite Hy; field).
  destruct (double_close y ltac:(lra) ltac:(lra)) as [L4 U4].
  split_and!.
  - by exists z.
  - lra.
  - lra.
  - intros [A HA].
    destruct (double_bounded (A # 100) ltac:(lra) ltac:(lra)) as [LA UA].
    destruct (double_close (A # 100) LA UA) as [L5 U5].
    pose proof (hundredths A) as HA'.
    assert ((A # 100) * 100 == inject_Z A)%Q as HA'' by (rewrite HA'; field).
    assert (A ≤ z) as Hz.
    { apply Z_above. lra. }
    destruct (decide (z = A)) as [Heq|Hne].
    + unfold y. rewrite Heq, HA. apply Qle_refl.
    + assert (inject_Z A + 1 <= inject_Z z)%Q as Hle
        by (apply Z_step; lia).
      lra.
  - intros [B HB].
    destruct (double_bounded (B # 100) ltac:(lra) ltac:(lra)) as [LB UB].
    destruct (double_close (B # 100) LB UB) as [L5 U5].
    pose proof (hundredths B) as HB'.
    assert ((B # 100) * 100 == inject_Z B)%Q as HB'' by (rewrite HB'; field).
    assert (z ≤ B) as Hz.
    { apply Z_above. lra. }
    destruct (decide (z = B)) as [Heq|Hne].
    + unfold y. rewrite Heq, HB. apply Qle_refl.
    + assert (inject_Z z + 1 <= inject_Z B)%Q as Hle
        by (apply Z_step; lia).
      lra.
Qed.

(** * The two selectors as instances of the engine *)

(** The used-set attribute is a field of its own in both classes. *)
Ltac field_laws := first [done | by intros [] | by intros ? []].

Lemma artist_select_returned q (w w' : world ArtistSelector.t) res df :
  ArtistSelector.artists_df (self w) = Some df →
  ArtistSelector.select q w = (w', Returned res) →
  ArtistSelector.min_count q (self w) ≤ ArtistSelector.max_count q (self w) ∧
  (ArtistSelector.min_weight q (self w) <=
     ArtistSelector.max_weight q (self w))%Q ∧
  ∃ k rows,
    ArtistSelector.min_count q (self w) ≤ k ≤
      ArtistSelector.max_count q (self w) ∧
    rows ⊆+ ArtistSelector.pool q (self w) df ∧
    Z.of_nat (length rows) =
      Z.min k (Z.of_nat (length (ArtistSelector.pool q (self w) df))) ∧
    ArtistSelector.tokens res = ArtistSelector.trigger <$> rows ∧
    length res = length rows ∧
    Forall (drawn_weight (ArtistSelector.min_weight q (self w))
              (ArtistSelector.max_weight q (self w)))
           (ArtistSelector.weights res).
Proof.
  intros Hdf Hrun. rewrite artist_select_engine in Hrun.
  eapply (select_returned _ _ ArtistSelector._used_artists) in Hrun
    as (Hab & Hxy & k & rows & ws & Hk & Hn & Hsub & Hlen & Hws & Hdr & ->);
    [|field_laws..].
  split; [done|]. split; [done|]. exists k, rows.
  unfold ArtistSelector.tokens, ArtistSelector.weights.
  rewrite fmap_zip_with_r by (done || lia).
  rewrite (fmap_zip_with_via _ _ ArtistSelector.trigger) by (done || lia).
  rewrite length_zip_with_l_eq by done.
  split_and!; try done; try lia.
  rewrite Hlen. exact (Z2Nat.id _ Hn).
Qed.

Lemma character_select_returned q (w w' : world CharacterSelector.t) res df :
  CharacterSelector.characters_df (self w) = Some df →
  CharacterSelector.select q w = (w', Returned res) →
  CharacterSelector.min_count q (self w) ≤
    CharacterSelector.max_count q (self w) ∧
  (CharacterSelector.min_weight q (self w) <=
     CharacterSelector.max_weight q (self w))%Q ∧
  ∃ k rows,
    CharacterSelector.min_count q (self w) ≤ k ≤
      CharacterSelector.max_count q (self w) ∧
    rows ⊆+ CharacterSelector.pool q (self w) df ∧
    Z.of_nat (length rows) =
      Z.min k (Z.of_nat (length (CharacterSelector.pool q (self w) df))) ∧
    CharacterSelector.tokens res = CharacterSelector.trigger <$> rows ∧
    length res = length rows ∧
    Forall (drawn_weight (CharacterSelector.min_weight q (self w))
              (CharacterSelector.max_weight q (self w)))
           (CharacterSelector.weights res).
Proof.
  intros Hdf Hrun. rewrite character_select_engine in Hrun.
  eapply (select_returned _ _ CharacterSelector._used_characters) in Hrun
    as (Hab & Hxy & k & rows & ws & Hk & Hn & Hsub & Hlen & Hws & Hdr & ->);
    [|field_laws..].
  split; [done|]. split; [done|]. exists k, rows.
  unfold CharacterSelector.tokens, CharacterSelector.weights.
  rewrite <-!list_fmap_compose.
  rewrite (fmap_zip_with_r _ (snd ∘ fst)) by (done || lia).
  rewrite (fmap_zip_with_via _ _ CharacterSelector.trigger) by (done || lia).
  rewrite length_zip_with_l_eq by done.
  split_and!; try done; try lia.
  rewrite Hlen. exact (Z2Nat.id _ Hn).
Qed.

Lemma artist_pool_submseteq q s df :
  ArtistSelector.pool q s df ⊆+ ArtistSelector.all_eligible q s df.
Proof.
  exact (pool_submseteq ArtistSelector._used_artists ArtistSelector.trigger
    (λ s, ArtistSelector.cfg_mode (ArtistSelector.config s))
    (ArtistSelector.eligible (ArtistSelector.min_works q s)) s df).
Qed.

Lemma character_pool_submseteq q s df :
  CharacterSelector.pool q s df ⊆+ CharacterSelector.all_eligible q s df.
Proof.
  exact (pool_submseteq CharacterSelector._used_characters
    CharacterSelector.trigger
    (λ s, CharacterSelector.cfg_mode (CharacterSelector.config s))
    (CharacterSelector.eligible (CharacterSelector.min_total_works q s)
       (CharacterSelector.min_solo_works q s)
       (CharacterSelector.arg_copyright_filter q)) s df).
Qed.

Lemma artist_select_invalid q (w : world ArtistSelector.t) df :
  ArtistSelector.artists_df (self w) = Some df →
  ArtistSelector.cfg_mode (ArtistSelector.config (self w)) = Some "random" ∨
  ArtistSelector.cfg_mode (ArtistSelector.config (self w)) = Some "only" →
  ArtistSelector.max_count q (self w) < ArtistSelector.min_count q (self w) ∨
  (ArtistSelector.max_weight q (self w) <
     ArtistSelector.min_weight q (self w))%Q →
  ∃ k w',
    ArtistSelector.select q w = (w', Raised (InvalidParameterError k)) ∧
    (w' = w ∨
     w' = World (materialise ArtistSelector._used_artists
                   ArtistSelector.set_used (self w)) (rng w) (stdout w)).
Proof.
  intros Hdf Hm Hbad. rewrite artist_select_engine.
  eapply select_invalid; first [eassumption | field_laws].
Qed.

Lemma character_select_invalid q (w : world CharacterSelector.t) df :
  CharacterSelector.characters_df (self w) = Some df →
  CharacterSelector.cfg_mode (CharacterSelector.config (self w)) =
    Some "random" ∨
  CharacterSelector.cfg_mode (CharacterSelector.config (self w)) =
    Some "only" →
  CharacterSelector.max_count q (self w) <
    CharacterSelector.min_count q (self w) ∨
  (CharacterSelector.max_weight q (self w) <
     CharacterSelector.min_weight q (self w))%Q →
  ∃ k w',
    CharacterSelector.select q w = (w', Raised (InvalidParameterError k)) ∧
    (w' = w ∨
     w' = World (materialise CharacterSelector._used_characters
                   CharacterSelector.set_used (self w)) (rng w) (stdout w)).
Proof.
  intros Hdf Hm Hbad. rewrite character_select_engine.
  eapply select_invalid; first [eassumption | field_laws].
Qed.

Lemma artist_only_no_eligible q (w : world ArtistSelector.t) df :
  ArtistSelector.artists_df (self w) = Some df →
  ArtistSelector.cfg_mode (ArtistSelector.config (self w)) = Some "only" →
  ArtistSelector.min_count q (self w) ≤ ArtistSelector.max_count q (self w) →
  (ArtistSelector.min_weight q (self w) <= ArtistSelector.max_weight q (self w))%Q →
  ArtistSelector.all_eligible q (self w) df = [] →
  ArtistSelector.select q w =
    (World (ArtistSelector.set_used (Some ∅) (self w)) (rng w)
       (stdout w ++ [ResetNotice (ArtistSelector.csv_path (self w))]),
     Raised NoEligibleRecordsError).
Proof.
  intros Hdf Hm Hab Hxy Hnone.
  rewrite artist_select_engine, select_only by done.
  eapply only_no_eligible; first [eassumption | field_laws].
Qed.

Lemma artist_only_no_eligible_inv q (w w' : world ArtistSelector.t) df :
  ArtistSelector.artists_df (self w) = Some df →
  ArtistSelector.cfg_mode (ArtistSelector.config (self w)) = Some "only" →
  ArtistSelector.select q w = (w', Raised NoEligibleRecordsError) →
  ArtistSelector.all_eligible q (self w) df = [].
Proof.
  intros Hdf Hm Hrun.
  rewrite artist_select_engine, select_only in Hrun by done.
  eapply only_no_eligible_inv in Hrun; first [eassumption | field_laws].
Qed.

Lemma artist_only_recovers q (w : world ArtistSelector.t) df :
  ArtistSelector.artists_df (self w) = Some df →
  ArtistSelector.cfg_mode (ArtistSelector.config (self w)) = Some "only" →
  ArtistSelector.min_count q (self w) ≤ ArtistSelector.max_count q (self w) →
  (ArtistSelector.min_weight q (self w) <= ArtistSelector.max_weight q (self w))%Q →
  0 ≤ ArtistSelector.min_count q (self w) →
  ArtistSelector.all_eligible q (self w) df ≠ [] →
  ArtistSelector.available q (self w) df = [] →
  ∃ k rows ws t,
    ArtistSelector.min_count q (self w) ≤ k ≤ ArtistSelector.max_count q (self w) ∧
    rows ⊆+ ArtistSelector.all_eligible q (self w) df ∧
    Z.of_nat (length rows) =
      Z.min k (Z.of_nat (length (ArtistSelector.all_eligible q (self w) df))) ∧
    length ws = length rows ∧
    ArtistSelector.select q w =
      (World (ArtistSelector.set_used
                (Some (list_to_set (ArtistSelector.trigger <$> rows))) (self w)) t
         (stdout w ++
            [ResetNotice (ArtistSelector.csv_path (self w));
             OnlyReport (ArtistSelector.csv_path (self w)) (Z.of_nat (length df))
               (Z.of_nat (length (ArtistSelector.all_eligible q (self w) df)))
               (Z.of_nat (length (ArtistSelector.all_eligible q (self w) df)))
               (Z.of_nat (size (list_to_set (ArtistSelector.trigger <$> rows)
                                  : gset string)))
               (Z.min k
                  (Z.of_nat (length (ArtistSelector.all_eligible q (self w) df))))]),
       Returned (zip_with (λ r x, (ArtistSelector.trigger r, x)) rows ws)).
Proof.
  intros Hdf Hm Hab Hxy Ha Hsome Hnone.
  rewrite artist_select_engine, select_only by done.
  eapply only_recovers; first [eassumption | field_laws].
Qed.

Lemma artist_only_step q (w w' : world ArtistSelector.t) o df :
  ArtistSelector.artists_df (self w) = Some df →
  ArtistSelector.cfg_mode (ArtistSelector.config (self w)) = Some "only" →
  ArtistSelector.select q w = (w', o) →
  (∃ u, self w' = ArtistSelector.set_used (Some u) (self w)) ∧
  returned_tokens ArtistSelector.tokens o ⊆ ArtistSelector.used (self w') ∧
  ArtistSelector.used (self w') ⊆
    ArtistSelector.used (self w) ∪ returned_tokens ArtistSelector.tokens o ∧
  (ArtistSelector.available q (self w) df = [] ∧
     (∀ r, o = Returned r →
        ArtistSelector.used (self w') = returned_tokens ArtistSelector.tokens o)
   ∨ ArtistSelector.available q (self w) df ≠ [] ∧
     ArtistSelector.used (self w) ⊆ ArtistSelector.used (self w') ∧
     returned_tokens ArtistSelector.tokens o ## ArtistSelector.used (self w)).
Proof.
  intros Hdf Hm Hrun.
  rewrite artist_select_engine, select_only in Hrun by done.
  eapply (only_step _ _ _ _ _ _
    (λ s, ArtistSelector.cfg_mode (ArtistSelector.config s)) fst snd) in Hrun;
    [|first [eassumption | field_laws]..].
  exact Hrun.
Qed.

Lemma character_only_no_eligible q (w : world CharacterSelector.t) df :
  CharacterSelector.characters_df (self w) = Some df →
  CharacterSelector.cfg_mode (CharacterSelector.config (self w)) = Some "only" →
  CharacterSelector.min_count q (self w) ≤ CharacterSelector.max_count q (self w) →
  (CharacterSelector.min_weight q (self w) <= CharacterSelector.max_weight q (self w))%Q →
  CharacterSelector.all_eligible q (self w) df = [] →
  CharacterSelector.select q w =
    (World (CharacterSelector.set_used (Some ∅) (self w)) (rng w)
       (stdout w ++ [ResetNotice (CharacterSelector.csv_path (self w))]),
     Raised NoEligibleRecordsError).
Proof.
  intros Hdf Hm Hab Hxy Hnone.
  rewrite character_select_engine, select_only by done.
  eapply only_no_eligible; first [eassumption | field_laws].
Qed.

Lemma character_only_no_eligible_inv q (w w' : world CharacterSelector.t) df :
  CharacterSelector.characters_df (self w) = Some df →
  CharacterSelector.cfg_mode (CharacterSelector.config (self w)) = Some "only" →
  CharacterSelector.select q w = (w', Raised NoEligibleRecordsError) →
  CharacterSelector.all_eligible q (self w) df = [].
Proof.
  intros Hdf Hm Hrun.
  rewrite character_select_engine, select_only in Hrun by done.
  eapply only_no_eligible_inv in Hrun; first [eassumption | field_laws].
Qed.

Lemma character_only_recovers q (w : world CharacterSelector.t) df :
  CharacterSelector.characters_df (self w) = Some df →
  CharacterSelector.cfg_mode (CharacterSelector.config (self w)) = Some "only" →
  CharacterSelector.min_count q (self w) ≤ CharacterSelector.max_count q (self w) →
  (CharacterSelector.min_weight q (self w) <= CharacterSelector.max_weight q (self w))%Q →
  0 ≤ CharacterSelector.min_count q (self w) →
  CharacterSelector.all_eligible q (self w) df ≠ [] →
  CharacterSelector.available q (self w) df = [] →
  ∃ k rows ws t,
    CharacterSelector.min_count q (self w) ≤ k ≤ CharacterSelector.max_count q (self w) ∧
    rows ⊆+ CharacterSelector.all_eligible q (self w) df ∧
    Z.of_nat (length rows) =
      Z.min k (Z.of_nat (length (CharacterSelector.all_eligible q (self w) df))) ∧
    length ws = length rows ∧
    CharacterSelector.select q w =
      (World (CharacterSelector.set_used
                (Some (list_to_set (CharacterSelector.trigger <$> rows))) (self w)) t
         (stdout w ++
            [ResetNotice (CharacterSelector.csv_path (self w));
             OnlyReport (CharacterSelector.csv_path (self w)) (Z.of_nat (length df))
               (Z.of_nat (length (CharacterSelector.all_eligible q (self w) df)))
               (Z.of_nat (length (CharacterSelector.all_eligible q (self w) df)))
               (Z.of_nat (size (list_to_set (CharacterSelector.trigger <$> rows)
                                  : gset string)))
               (Z.min k
                  (Z.of_nat (length (CharacterSelector.all_eligible q (self w) df))))]),
       Returned (zip_with (λ r x, (CharacterSelector.trigger r, x, CharacterSelector.core_tags r)) rows ws)).
Proof.
  intros Hdf Hm Hab Hxy Ha Hsome Hnone.
  rewrite character_select_engine, select_only by done.
  eapply only_recovers; first [eassumption | field_laws].
Qed.

Lemma character_only_step q (w w' : world CharacterSelector.t) o df :
  CharacterSelector.characters_df (self w) = Some df →
  CharacterSelector.cfg_mode (CharacterSelector.config (self w)) = Some "only" →
  CharacterSelector.select q w = (w', o) →
  (∃ u, self w' = CharacterSelector.set_used (Some u) (self w)) ∧
  returned_tokens CharacterSelector.tokens o ⊆ CharacterSelector.used (self w') ∧
  CharacterSelector.used (self w') ⊆
    CharacterSelector.used (self w) ∪ returned_tokens CharacterSelector.tokens o ∧
  (CharacterSelector.available q (self w) df = [] ∧
     (∀ r, o = Returned r →
        CharacterSelector.used (self w') = returned_tokens CharacterSelector.tokens o)
   ∨ CharacterSelector.available q (self w) df ≠ [] ∧
     CharacterSelector.used (self w) ⊆ CharacterSelector.used (self w') ∧
     returned_tokens CharacterSelector.tokens o ## CharacterSelector.used (self w)).
Proof.
  intros Hdf Hm Hrun.
  rewrite character_select_engine, select_only in Hrun by done.
  eapply (only_step _ _ _ _ _ _
    (λ s, CharacterSelector.cfg_mode (CharacterSelector.config s))
    (fst ∘ fst) (snd ∘ fst)) in Hrun;
    [|first [eassumption | field_laws]..].
  assert (returned_tokens (fmap (fst ∘ fst)) o =
          returned_tokens CharacterSelector.tokens o) as Heq.
  { destruct o; [done|]. cbn. unfold CharacterSelector.tokens.
    by rewrite list_fmap_compose. }
  rewrite Heq in Hrun. exact Hrun.
Qed.

(** * Facts about the copyright catalogue *)

Lemma total_works_absent c df :
  c ∉ CharacterSelector.copyright <$> df → CharacterSelector.total_works c df = 0.
Proof.
  intros Hc. unfold CharacterSelector.total_works.
  induction df as [|r df IH]; [done|].
  rewrite fmap_cons, not_elem_of_cons in Hc. destruct Hc as [Hne Hc].
  rewrite filter_cons_False by done. by apply IH.
Qed.

Lemma wrap64_fit z : int64 z → wrap64 z = z.
Proof.
  unfold int64, wrap64. intros Hz. rewrite Z.mod_small by lia. lia.
Qed.

Lemma wrap64_add_r a b : wrap64 (a + wrap64 b) = wrap64 (a + b).
Proof.
  unfold wrap64. f_equal.
  replace (a + ((b + 2 ^ 63) mod 2 ^ 64 - 2 ^ 63) + 2 ^ 63)
    with (a + (b + 2 ^ 63) mod 2 ^ 64) by lia.
  rewrite Zplus_mod_idemp_r. f_equal. lia.
Qed.

(** The grouped sums are the totals wrapped into int64, one for each
    copyright that occurs. *)
Lemma copyright_counts_lookup df c :
  CharacterSelector.copyright_counts df !! c =
    if decide (c ∈ CharacterSelector.copyright <$> df)
    then Some (wrap64 (CharacterSelector.total_works c df)) else None.
Proof.
  induction df as [|r df IH]; [done|].
  cbn [CharacterSelector.copyright_counts foldr].
  fold (CharacterSelector.copyright_counts df).
  destruct (decide (c = CharacterSelector.copyright r)) as [->|Hne].
  - rewrite lookup_insert_eq, IH.
    destruct (decide (CharacterSelector.copyright r ∈
                CharacterSelector.copyright <$> r :: df)) as [_|Hn];
      [|exfalso; apply Hn; rewrite fmap_cons; left].
    unfold CharacterSelector.total_works at 2.
    rewrite filter_cons_True by done. cbn [fmap list_fmap foldr].
    fold (CharacterSelector.total_works (CharacterSelector.copyright r) df).
    case_decide as Hin; cbn [default from_option id];
      [by rewrite wrap64_add_r|].
    by rewrite total_works_absent.
  - rewrite lookup_insert_ne, IH by done.
    unfold CharacterSelector.total_works at 2.
    rewrite filter_cons_False by done.
    fold (CharacterSelector.total_works c df).
    rewrite fmap_cons. repeat case_decide; set_solver.
Qed.

(** Where the sums fit, wrapping changes none of them. *)
Lemma sums_fit_total df c :
  CharacterSelector.sums_fit df →
  c ∈ CharacterSelector.copyright <$> df →
  wrap64 (CharacterSelector.total_works c df) =
    CharacterSelector.total_works c df.
Proof.
  intros Hfit (r & -> & Hr)%list_elem_of_fmap. apply wrap64_fit.
  unfold CharacterSelector.sums_fit in Hfit. rewrite Forall_forall in Hfit.
  by apply Hfit.
Qed.

(** * Facts about consecutive calls *)
Section TraceFacts.
Context {S R A : Type}.
Variable step : R → M S A.
Variable used : S → gset string.
Variable toks : A → list string.
Variable exhausted : R → S → Prop.
Variable Inv : S → Prop.

(** What one call does to the used-set, on selectors that satisfy [Inv]. *)
Hypothesis step_inv : ∀ q w w' o,
  Inv (self w) → step q w = (w', o) → Inv (self w').
Hypothesis step_marks : ∀ q w w' o,
  Inv (self w) → step q w = (w', o) →
  returned_tokens toks o ⊆ used (self w').
Hypothesis step_only_marks : ∀ q w w' o,
  Inv (self w) → step q w = (w', o) →
  used (self w') ⊆ used (self w) ∪ returned_tokens toks o.
Hypothesis step_cases : ∀ q w w' o,
  Inv (self w) → step q w = (w', o) →
  exhausted q (self w) ∨
  (used (self w) ⊆ used (self w') ∧ returned_tokens toks o ## used (self w)).

Lemma trace_cons q qs (w : world S) :
  trace step (q :: qs) w =
    (w, (step q w).2, (step q w).1) :: trace step qs (step q w).1.
Proof. cbn. by destruct (step q w). Qed.

(** Each entry of a trace is one call, made on a selector that satisfies
    the invariant. *)
Lemma trace_lookup qs (w : world S) m wm om wm' :
  Inv (self w) →
  trace step qs w !! m = Some (wm, om, wm') →
  ∃ qm, qs !! m = Some qm ∧ step qm wm = (wm', om) ∧ Inv (self wm).
Proof.
  revert w m. induction qs as [|q qs IH]; intros w m HI Hm;
    [by destruct m|].
  rewrite trace_cons in Hm. destruct m as [|m]; cbn in Hm.
  - injection Hm as <- <- <-. exists q. split; [done|].
    split; [by destruct (step q w)|done].
  - apply IH in Hm; [done|].
    apply (step_inv q w _ (step q w).2); [done|by destruct (step q w)].
Qed.

(** A used token stays used up to a call, unless an earlier call found
    nothing unused. *)
Lemma trace_carries qs (w : world S) j wj oj wj' tok :
  Inv (self w) →
  trace step qs w !! j = Some (wj, oj, wj') →
  tok ∈ used (self w) →
  tok ∈ used (self wj) ∨
  ∃ m qm wm om wm', (m < j)%nat ∧ qs !! m = Some qm ∧
    trace step qs w !! m = Some (wm, om, wm') ∧ exhausted qm (self wm).
Proof.
  revert w j. induction qs as [|q qs IH]; intros w j HI Hj Htok;
    [by destruct j|].
  rewrite trace_cons in Hj |- *. destruct j as [|j]; cbn in Hj.
  { injection Hj as <- _ _. by left. }
  destruct (step q w) as [w' o] eqn:Hstep. cbn in *.
  destruct (step_cases q w w' o HI Hstep) as [Hex|[Hmono _]].
  { right. exists 0%nat, q, w, o, w'. split_and!; [lia|done..]. }
  destruct (IH w' j (step_inv _ _ _ _ HI Hstep) Hj (Hmono _ Htok))
    as [?|(m & qm & wm & om & wm' & Hlt & Hq & Hm & Hex)]; [by left|].
  right. exists (Datatypes.S m), qm, wm, om, wm'. split_and!; [lia|done..].
Qed.

(** A token comes back in a later result only after a call in between, or
    that later call itself, found nothing unused. *)
Lemma trace_no_repeat qs (w : world S) i j wi ri wi' wj rj wj' tok :
  Inv (self w) → (i < j)%nat →
  trace step qs w !! i = Some (wi, Returned ri, wi') →
  trace step qs w !! j = Some (wj, Returned rj, wj') →
  tok ∈ toks ri → tok ∈ toks rj →
  ∃ m qm wm om wm', (i < m ≤ j)%nat ∧ qs !! m = Some qm ∧
    trace step qs w !! m = Some (wm, om, wm') ∧ exhausted qm (self wm).
Proof.
  revert w i j. induction qs as [|q qs IH]; intros w i j HI Hij Hi Hj Hti Htj;
    [by destruct j|].
  rewrite trace_cons in Hi, Hj |- *. destruct j as [|j]; [lia|]. cbn in Hj.
  destruct (step q w) as [w' o] eqn:Hstep. cbn in *.
  pose proof (step_inv _ _ _ _ HI Hstep) as HI'.
  destruct i as [|i]; cbn in Hi.
  - injection Hi as ? ? ?; subst.
    assert (tok ∈ used (self wi')) as Hused.
    { apply (step_marks _ _ _ _ HI Hstep). cbn. by apply elem_of_list_to_set. }
    destruct (trace_carries qs wi' j wj (Returned rj) wj' tok HI' Hj Hused)
      as [Hcarried|(m & qm & wm & om & wm' & Hlt & Hq & Hm & Hex)].
    + destruct (trace_lookup qs wi' j wj (Returned rj) wj' HI' Hj)
        as (qj & Hqj & Hstepj & HIj).
      destruct (step_cases qj wj wj' _ HIj Hstepj) as [Hex|[_ Hfresh]].
      * exists (Datatypes.S j), qj, wj, (Returned rj), wj'.
        split_and!; [lia|lia|done..].
      * exfalso. apply (Hfresh tok); [|done]. cbn.
        by apply elem_of_list_to_set.
    + exists (Datatypes.S m), qm, wm, om, wm'. split_and!; [lia|lia|done..].
  - destruct (IH w' i j HI' ltac:(lia) Hi Hj Hti Htj)
      as (m & qm & wm & om & wm' & Hlt & Hq & Hm & Hex).
    exists (Datatypes.S m), qm, wm, om, wm'. split_and!; [lia|lia|done..].
Qed.

(** Whatever the used-set holds before a call was there at the start or
    was returned by an earlier call. *)
Lemma trace_used_returned qs (w : world S) m wm om wm' tok :
  Inv (self w) →
  trace step qs w !! m = Some (wm, om, wm') →
  tok ∈ used (self wm) →
  tok ∈ used (self w) ∨
  ∃ l wl rl wl', (l < m)%nat ∧
    trace step qs w !! l = Some (wl, Returned rl, wl') ∧ tok ∈ toks rl.
Proof.
  revert w m. induction qs as [|q qs IH]; intros w m HI Hm Htok;
    [by destruct m|].
  rewrite trace_cons in Hm |- *. destruct m as [|m]; cbn in Hm.
  { injection Hm as <- _ _. by left. }
  destruct (step q w) as [w' o] eqn:Hstep. cbn in *.
  destruct (IH w' m (step_inv _ _ _ _ HI Hstep) Hm Htok)
    as [Hw'|(l & wl & rl & wl' & Hlt & Hl & Hin)].
  - apply (step_only_marks _ _ _ _ HI Hstep) in Hw'.
    apply elem_of_union in Hw' as [?|Hret]; [by left|]. right.
    destruct o as [e|r]; cbn in Hret; [set_solver|].
    exists 0%nat, w, r, w'. split_and!; [lia|done|].
    by apply elem_of_list_to_set in Hret.
  - right. exists (Datatypes.S l), wl, rl, wl'. split_and!; [lia|done..].
Qed.

End TraceFacts.

Lemma artist_step_facts df q (w w' : world ArtistSelector.t) o :
  ArtistSelector.only_ready df (self w) →
  ArtistSelector.select q w = (w', o) →
  ArtistSelector.only_ready df (self w') ∧
  returned_tokens ArtistSelector.tokens o ⊆ ArtistSelector.used (self w') ∧
  ArtistSelector.used (self w') ⊆ ArtistSelector.used (self w) ∪ returned_tokens ArtistSelector.tokens o ∧
  (ArtistSelector.available q (self w) df = [] ∨
   (ArtistSelector.used (self w) ⊆ ArtistSelector.used (self w') ∧
    returned_tokens ArtistSelector.tokens o ## ArtistSelector.used (self w))).
Proof.
  intros [Hdf Hm] Hrun.
  destruct (artist_only_step q w w' o df Hdf Hm Hrun)
    as ([u Hu] & Hmarks & Honly & Hcases).
  split_and!; [|done|done|].
  - rewrite Hu. by split.
  - destruct Hcases as [[? _]|[_ ?]]; [by left|by right].
Qed.

Lemma character_step_facts df q (w w' : world CharacterSelector.t) o :
  CharacterSelector.only_ready df (self w) →
  CharacterSelector.select q w = (w', o) →
  CharacterSelector.only_ready df (self w') ∧
  returned_tokens CharacterSelector.tokens o ⊆ CharacterSelector.used (self w') ∧
  CharacterSelector.used (self w') ⊆ CharacterSelector.used (self w) ∪ returned_tokens CharacterSelector.tokens o ∧
  (CharacterSelector.available q (self w) df = [] ∨
   (CharacterSelector.used (self w) ⊆ CharacterSelector.used (self w') ∧
    returned_tokens CharacterSelector.tokens o ## CharacterSelector.used (self w))).
Proof.
  intros [Hdf Hm] Hrun.
  destruct (character_only_step q w w' o df Hdf Hm Hrun)
    as ([u Hu] & Hmarks & Honly & Hcases).
  split_and!; [|done|done|].
  - rewrite Hu. by split.
  - destruct Hcases as [[? _]|[_ ?]]; [by left|by right].
Qed.

(** With nothing unused, every eligible record's token is in the used-set. *)
Lemma artist_exhausted_used q s df r :
  ArtistSelector.available q s df = [] →
  r ∈ ArtistSelector.all_eligible q s df →
  ArtistSelector.trigger r ∈ ArtistSelector.used s.
Proof.
  intros Hnone Hr.
  destruct (decide (ArtistSelector.trigger r ∈ ArtistSelector.used s))
    as [|Hnot]; [done|].
  assert (r ∈ ArtistSelector.available q s df) as Hin.
  { by apply list_elem_of_filter. }
  rewrite Hnone in Hin. by apply not_elem_of_nil in Hin.
Qed.

Lemma character_exhausted_used q s df r :
  CharacterSelector.available q s df = [] →
  r ∈ CharacterSelector.all_eligible q s df →
  CharacterSelector.trigger r ∈ CharacterSelector.used s.
Proof.
  intros Hnone Hr.
  destruct (decide (CharacterSelector.trigger r ∈ CharacterSelector.used s))
    as [|Hnot]; [done|].
  assert (r ∈ CharacterSelector.available q s df) as Hin.
  { by apply list_elem_of_filter. }
  rewrite Hnone in Hin. by apply not_elem_of_nil in Hin.
Qed.

(** * The claims *)

(** ** Size of a result *)

(** C2, as the code has it: a call that returns hands back at most
    [max_count] records and at most as many as are eligible; from below the
    size is bounded by [min_count] only as far as the records drawn from
    reach, because the drawn size is cut down to their number. *)
Theorem select_count_bounds :
  (∀ q (w w' : world ArtistSelector.t) res df,
     ArtistSelector.artists_df (self w) = Some df →
     ArtistSelector.select q w = (w', Returned res) →
     ArtistSelector.min_count q (self w) ≤ ArtistSelector.max_count q (self w) ∧
     Z.min (ArtistSelector.min_count q (self w))
           (Z.of_nat (length (ArtistSelector.pool q (self w) df)))
       ≤ Z.of_nat (length res) ∧
     Z.of_nat (length res) ≤ ArtistSelector.max_count q (self w) ∧
     (length res ≤ length (ArtistSelector.all_eligible q (self w) df))%nat) ∧
  (∀ q (w w' : world CharacterSelector.t) res df,
     CharacterSelector.characters_df (self w) = Some df →
     CharacterSelector.select q w = (w', Returned res) →
     CharacterSelector.min_count q (self w) ≤
       CharacterSelector.max_count q (self w) ∧
     Z.min (CharacterSelector.min_count q (self w))
           (Z.of_nat (length (CharacterSelector.pool q (self w) df)))
       ≤ Z.of_nat (length res) ∧
     Z.of_nat (length res) ≤ CharacterSelector.max_count q (self w) ∧
     (length res ≤ length (CharacterSelector.all_eligible q (self w) df))%nat).
Proof.
  split.
  - intros q w w' res df Hdf Hrun.
    destruct (artist_select_returned q w w' res df Hdf Hrun)
      as (Hab & _ & k & rows & Hk & Hsub & Hlen & _ & Hres & _).
    pose proof (submseteq_length _ _ Hsub) as Hpool.
    pose proof (submseteq_length _ _
      (artist_pool_submseteq q (self w) df)) as Hall.
    rewrite Hres. split_and!; lia.
  - intros q w w' res df Hdf Hrun.
    destruct (character_select_returned q w w' res df Hdf Hrun)
      as (Hab & _ & k & rows & Hk & Hsub & Hlen & _ & Hres & _).
    pose proof (submseteq_length _ _ Hsub) as Hpool.
    pose proof (submseteq_length _ _
      (character_pool_submseteq q (self w) df)) as Hall.
    rewrite Hres. split_and!; lia.
Qed.

(** C2 at the five artists, where three are eligible and two are asked for,
    and at the five characters, where four are eligible. *)
Lemma select_count_bounds_witness :
  (∃ w' res,
     ArtistSelector.select Fixture.artist_defaults
       (Fixture.artist_world "random" Fixture.artists None) =
       (w', Returned res) ∧
     length (ArtistSelector.all_eligible Fixture.artist_defaults
               (Fixture.artist_selector "random" Fixture.artists None)
               Fixture.artists) = 3%nat ∧
     2 ≤ Z.of_nat (length res) ≤ 2) ∧
  (∃ w' res,
     CharacterSelector.select Fixture.character_defaults
       (Fixture.character_world "only" Fixture.characters None) =
       (w', Returned res) ∧
     length (CharacterSelector.all_eligible Fixture.character_defaults
               (Fixture.character_selector "only" Fixture.characters None)
               Fixture.characters) = 4%nat ∧
     2 ≤ Z.of_nat (length res) ≤ 2).
Proof.
  split.
  - eexists _, _. split; [vm_compute; reflexivity|]. split; [reflexivity|].
    pose proof (proj1 select_count_bounds Fixture.artist_defaults
      (Fixture.artist_world "random" Fixture.artists None) _ _ Fixture.artists
      eq_refl eq_refl) as (_ & Hlo & Hhi & _).
    split; [exact Hlo|exact Hhi].
  - eexists _, _. split; [vm_compute; reflexivity|]. split; [reflexivity|].
    pose proof (proj2 select_count_bounds Fixture.character_defaults
      (Fixture.character_world "only" Fixture.characters None) _ _
      Fixture.characters eq_refl eq_refl) as (_ & Hlo & Hhi & _).
    split; [exact Hlo|exact Hhi].
Defined.

(** C2 as stated fails: with ranges in order and one eligible record, a call
    asking for two to three records returns one. *)
Lemma select_count_below_min_count :
  let q := ArtistSelector.Request (Some 2) (Some 3) None None (Some 20) None in
  let w := Fixture.artist_world "random" Fixture.artists None in
  ArtistSelector.min_count q (self w) ≤ ArtistSelector.max_count q (self w) ∧
  (ArtistSelector.min_weight q (self w) <=
     ArtistSelector.max_weight q (self w))%Q ∧
  ∃ w' res,
    ArtistSelector.select q w = (w', Returned res) ∧
    ¬ (ArtistSelector.min_count q (self w) ≤ Z.of_nat (length res)).
Proof.
  cbv zeta. split; [by vm_compute|]. split; [by vm_compute|].
  eexists _, _. split; [vm_compute; reflexivity|]. by vm_compute.
Qed.

(** ** Weights of a result *)

(** C4, as the code has it: with both bounds no larger than 2^20 in size
    (so that no float operation overflows and the rounding of the float
    operations stays below 2^-28), every weight of a returned result is a
    float written with at most two decimal digits and lies within 0.005,
    and that rounding, of the range; it lies inside the range at each end
    whose bound is itself a float written with at most two decimal digits.
    (Rounding to two digits comes after the draw, so a bound with more
    digits can be crossed.) *)
Theorem select_weight_bounds :
  (∀ q (w w' : world ArtistSelector.t) res df x,
     ArtistSelector.artists_df (self w) = Some df →
     ArtistSelector.select q w = (w', Returned res) →
     x ∈ ArtistSelector.weights res →
     (- (1048576) <= ArtistSelector.min_weight q (self w))%Q →
     (ArtistSelector.max_weight q (self w) <= 1048576)%Q →
     two_decimals x ∧
     (ArtistSelector.min_weight q (self w) - ((1 # 200) + (1 # 268435456))
        <= x)%Q ∧
     (x <= ArtistSelector.max_weight q (self w) +
             ((1 # 200) + (1 # 268435456)))%Q ∧
     (two_decimals (ArtistSelector.min_weight q (self w)) →
      (ArtistSelector.min_weight q (self w) <= x)%Q) ∧
     (two_decimals (ArtistSelector.max_weight q (self w)) →
      (x <= ArtistSelector.max_weight q (self w))%Q)) ∧
  (∀ q (w w' : world CharacterSelector.t) res df x,
     CharacterSelector.characters_df (self w) = Some df →
     CharacterSelector.select q w = (w', Returned res) →
     x ∈ CharacterSelector.weights res →
     (- (1048576) <= CharacterSelector.min_weight q (self w))%Q →
     (CharacterSelector.max_weight q (self w) <= 1048576)%Q →
     two_decimals x ∧
     (CharacterSelector.min_weight q (self w) - ((1 # 200) + (1 # 268435456))
        <= x)%Q ∧
     (x <= CharacterSelector.max_weight q (self w) +
             ((1 # 200) + (1 # 268435456)))%Q ∧
     (two_decimals (CharacterSelector.min_weight q (self w)) →
      (CharacterSelector.min_weight q (self w) <= x)%Q) ∧
     (two_decimals (CharacterSelector.max_weight q (self w)) →
      (x <= CharacterSelector.max_weight q (self w))%Q)).
Proof.
  split.
  - intros q w w' res df x Hdf Hrun Hx Hlo Hhi.
    destruct (artist_select_returned q w w' res df Hdf Hrun)
      as (_ & Hxy & k & rows & _ & _ & _ & _ & _ & Hdrawn).
    rewrite Forall_forall in Hdrawn.
    exact (drawn_weight_bounds _ _ x Hxy Hlo Hhi (Hdrawn x Hx)).
  - intros q w w' res df x Hdf Hrun Hx Hlo Hhi.
    destruct (character_select_returned q w w' res df Hdf Hrun)
      as (_ & Hxy & k & rows & _ & _ & _ & _ & _ & Hdrawn).
    rewrite Forall_forall in Hdrawn.
    exact (drawn_weight_bounds _ _ x Hxy Hlo Hhi (Hdrawn x Hx)).
Qed.

(** C4 at the five artists and at the five characters with the configured
    range 0.5 to 1.5: the first weight drawn is 1.0, inside the range. *)
Lemma select_weight_bounds_witness :
  (∃ w' e res,
     ArtistSelector.select Fixture.artist_defaults
       (Fixture.artist_world "random" Fixture.artists None) =
       (w', Returned (e :: res)) ∧
     (e.2 == 1)%Q ∧ ((1 # 2) <= e.2)%Q ∧ (e.2 <= 3 # 2)%Q) ∧
  (∃ w' e res,
     CharacterSelector.select Fixture.character_defaults
       (Fixture.character_world "only" Fixture.characters None) =
       (w', Returned (e :: res)) ∧
     (e.1.2 == 1)%Q ∧ ((1 # 2) <= e.1.2)%Q ∧ (e.1.2 <= 3 # 2)%Q).
Proof.
  assert (two_decimals (1 # 2)) as Hmin by (exists 50; by vm_compute).
  assert (two_decimals (3 # 2)) as Hmax by (exists 150; by vm_compute).
  split.
  - assert (∃ w' e res,
      ArtistSelector.select Fixture.artist_defaults
        (Fixture.artist_world "random" Fixture.artists None) =
        (w', Returned (e :: res)) ∧ (e.2 == 1)%Q)
      as (w' & e & res & Hrun & Hone).
    { eexists _, _, _. split; [vm_compute; reflexivity|]. by vm_compute. }
    exists w', e, res. split; [exact Hrun|]. split; [exact Hone|].
    destruct (proj1 select_weight_bounds Fixture.artist_defaults
      (Fixture.artist_world "random" Fixture.artists None) w' _
      Fixture.artists e.2 eq_refl Hrun (list_elem_of_here _ _))
      as (_ & _ & _ & Hlo & Hhi); [by vm_compute..|].
    split; [exact (Hlo Hmin)|exact (Hhi Hmax)].
  - assert (∃ w' e res,
      CharacterSelector.select Fixture.character_defaults
        (Fixture.character_world "only" Fixture.characters None) =
        (w', Returned (e :: res)) ∧ (e.1.2 == 1)%Q)
      as (w' & e & res & Hrun & Hone).
    { eexists _, _, _. split; [vm_compute; reflexivity|]. by vm_compute. }
    exists w', e, res. split; [exact Hrun|]. split; [exact Hone|].
    destruct (proj2 select_weight_bounds Fixture.character_defaults
      (Fixture.character_world "only" Fixture.characters None) w' _
      Fixture.characters e.1.2 eq_refl Hrun (list_elem_of_here _ _))
      as (_ & _ & _ & Hlo & Hhi); [by vm_compute..|].
    split; [exact (Hlo Hmin)|exact (Hhi Hmax)].
Defined.

(** C4 as stated fails: with both bounds at the float 1.234 every weight
    is the float 1.23, below the lower bound. *)
Lemma select_weight_below_min_weight :
  let q := ArtistSelector.Request None None (Some (double (1234 # 1000)))
             (Some (double (1234 # 1000))) None None in
  let w := Fixture.artist_world "random" Fixture.artists None in
  (ArtistSelector.min_weight q (self w) <=
     ArtistSelector.max_weight q (self w))%Q ∧
  ∃ w' res x,
    ArtistSelector.select q w = (w', Returned res) ∧
    x ∈ ArtistSelector.weights res ∧
    (x == double (123 # 100))%Q ∧
    ¬ (ArtistSelector.min_weight q (self w) <= x)%Q.
Proof.
  cbv zeta. split; [by vm_compute|].
  eexists _, _, _. split; [vm_compute; reflexivity|].
  split; [apply list_elem_of_here|]. split; by vm_compute.
Qed.

(** ** Tokens of a result *)

(** C5, as the code has it: a call draws rows, each at most once, so the
    tokens of a result are taken from the triggers of the eligible rows,
    each no more often than it occurs there; no token repeats when the
    eligible rows carry different triggers. *)
Theorem select_tokens_distinct :
  (∀ q (w w' : world ArtistSelector.t) res df,
     ArtistSelector.artists_df (self w) = Some df →
     ArtistSelector.select q w = (w', Returned res) →
     ArtistSelector.tokens res ⊆+
       ArtistSelector.trigger <$> ArtistSelector.all_eligible q (self w) df ∧
     (NoDup (ArtistSelector.trigger <$>
               ArtistSelector.all_eligible q (self w) df) →
      NoDup (ArtistSelector.tokens res))) ∧
  (∀ q (w w' : world CharacterSelector.t) res df,
     CharacterSelector.characters_df (self w) = Some df →
     CharacterSelector.select q w = (w', Returned res) →
     CharacterSelector.tokens res ⊆+
       CharacterSelector.trigger <$>
         CharacterSelector.all_eligible q (self w) df ∧
     (NoDup (CharacterSelector.trigger <$>
               CharacterSelector.all_eligible q (self w) df) →
      NoDup (CharacterSelector.tokens res))).
Proof.
  split.
  - intros q w w' res df Hdf Hrun.
    destruct (artist_select_returned q w w' res df Hdf Hrun)
      as (_ & _ & k & rows & _ & Hsub & _ & Htok & _).
    assert (ArtistSelector.tokens res ⊆+
      ArtistSelector.trigger <$> ArtistSelector.all_eligible q (self w) df)
      as Hall.
    { rewrite Htok. apply fmap_submseteq. etrans; [exact Hsub|].
      apply artist_pool_submseteq. }
    split; [done|]. by apply submseteq_NoDup.
  - intros q w w' res df Hdf Hrun.
    destruct (character_select_returned q w w' res df Hdf Hrun)
      as (_ & _ & k & rows & _ & Hsub & _ & Htok & _).
    assert (CharacterSelector.tokens res ⊆+
      CharacterSelector.trigger <$>
        CharacterSelector.all_eligible q (self w) df) as Hall.
    { rewrite Htok. apply fmap_submseteq. etrans; [exact Hsub|].
      apply character_pool_submseteq. }
    split; [done|]. by apply submseteq_NoDup.
Qed.

(** C5 at the five artists and at the five characters, whose triggers
    differ. *)
Lemma select_tokens_distinct_witness :
  (∃ w' res,
     ArtistSelector.select Fixture.artist_defaults
       (Fixture.artist_world "random" Fixture.artists None) =
       (w', Returned res) ∧
     NoDup (ArtistSelector.tokens res)) ∧
  (∃ w' res,
     CharacterSelector.select Fixture.character_defaults
       (Fixture.character_world "only" Fixture.characters None) =
       (w', Returned res) ∧
     NoDup (CharacterSelector.tokens res)).
Proof.
  split.
  - eexists _, _. split; [vm_compute; reflexivity|].
    apply (proj1 select_tokens_distinct Fixture.artist_defaults
      (Fixture.artist_world "random" Fixture.artists None) _ _ Fixture.artists
      eq_refl eq_refl).
    vm_compute. repeat constructor; set_solver.
  - eexists _, _. split; [vm_compute; reflexivity|].
    apply (proj2 select_tokens_distinct Fixture.character_defaults
      (Fixture.character_world "only" Fixture.characters None) _ _
      Fixture.characters eq_refl eq_refl).
    vm_compute. repeat constructor; set_solver.
Defined.

(** C5 as stated fails on a dataset whose rows share a trigger: both rows
    are drawn and the token comes back twice. *)
Lemma select_tokens_repeat :
  ∃ w' res,
    ArtistSelector.select Fixture.artist_defaults
      (Fixture.artist_world "random" Fixture.twins None) = (w', Returned res) ∧
    ¬ NoDup (ArtistSelector.tokens res).
Proof.
  eexists _, _. split; [vm_compute; reflexivity|].
  change (¬ NoDup ["ann"; "ann"]).
  rewrite NoDup_cons. intros [Hin _]. apply Hin. constructor.
Qed.

(** ** Range checks *)

(** C6: a call in either mode whose effective counts or weights are out of
    order raises [InvalidParameterError], and at that point nothing has been
    drawn from the random source, nothing printed, and the dataset, the
    configuration and the tokens of the used-set are what they were. *)
Theorem select_invalid_range :
  (∀ q (w : world ArtistSelector.t) df,
     ArtistSelector.artists_df (self w) = Some df →
     ArtistSelector.cfg_mode (ArtistSelector.config (self w)) = Some "random" ∨
     ArtistSelector.cfg_mode (ArtistSelector.config (self w)) = Some "only" →
     ArtistSelector.max_count q (self w) < ArtistSelector.min_count q (self w) ∨
     (ArtistSelector.max_weight q (self w) <
        ArtistSelector.min_weight q (self w))%Q →
     ∃ k w',
       ArtistSelector.select q w = (w', Raised (InvalidParameterError k)) ∧
       rng w' = rng w ∧ stdout w' = stdout w ∧
       ArtistSelector.used (self w') = ArtistSelector.used (self w) ∧
       ArtistSelector.artists_df (self w') = ArtistSelector.artists_df (self w) ∧
       ArtistSelector.config (self w') = ArtistSelector.config (self w)) ∧
  (∀ q (w : world CharacterSelector.t) df,
     CharacterSelector.characters_df (self w) = Some df →
     CharacterSelector.cfg_mode (CharacterSelector.config (self w)) =
       Some "random" ∨
     CharacterSelector.cfg_mode (CharacterSelector.config (self w)) =
       Some "only" →
     CharacterSelector.max_count q (self w) <
       CharacterSelector.min_count q (self w) ∨
     (CharacterSelector.max_weight q (self w) <
        CharacterSelector.min_weight q (self w))%Q →
     ∃ k w',
       CharacterSelector.select q w = (w', Raised (InvalidParameterError k)) ∧
       rng w' = rng w ∧ stdout w' = stdout w ∧
       CharacterSelector.used (self w') = CharacterSelector.used (self w) ∧
       CharacterSelector.characters_df (self w') =
         CharacterSelector.characters_df (self w) ∧
       CharacterSelector.config (self w') = CharacterSelector.config (self w)).
Proof.
  split.
  - intros q w df Hdf Hmode Hbad.
    destruct (artist_select_invalid q w df Hdf Hmode Hbad)
      as (k & w' & Hrun & [->| ->]);
      exists k; eexists; (split; [exact Hrun|]); [done|]. cbn.
    destruct w as [[? ? ? [u|]] ? ?]; done.
  - intros q w df Hdf Hmode Hbad.
    destruct (character_select_invalid q w df Hdf Hmode Hbad)
      as (k & w' & Hrun & [->| ->]);
      exists k; eexists; (split; [exact Hrun|]); [done|]. cbn.
    destruct w as [[? ? ? [u|]] ? ?]; done.
Qed.

(** C6 at the five artists in "only" mode, asked for five to two records,
    and at the five characters in "random" mode, asked for weights from 2
    down to 1. *)
Lemma select_invalid_range_witness :
  (∃ k w',
     ArtistSelector.select
       (ArtistSelector.Request (Some 5) (Some 2) None None None None)
       (Fixture.artist_world "only" Fixture.artists (Some {["ann"]})) =
       (w', Raised (InvalidParameterError k)) ∧
     rng w' = Fixture.draws ∧ stdout w' = [] ∧
     ArtistSelector.used (self w') = {["ann"]}) ∧
  (∃ k w',
     CharacterSelector.select
       (CharacterSelector.Request None None (Some (2 # 1)) (Some (1 # 1))
          None None None None)
       (Fixture.character_world "random" Fixture.characters None) =
       (w', Raised (InvalidParameterError k)) ∧
     rng w' = Fixture.draws ∧ stdout w' = [] ∧
     CharacterSelector.used (self w') = ∅).
Proof.
  split.
  - destruct (proj1 select_invalid_range
      (ArtistSelector.Request (Some 5) (Some 2) None None None None)
      (Fixture.artist_world "only" Fixture.artists (Some {["ann"]}))
      Fixture.artists eq_refl (or_intror eq_refl) (or_introl eq_refl))
      as (k & w' & Hrun & Hrng & Hout & Hused & _).
    exists k, w'. split_and!; assumption.
  - destruct (proj2 select_invalid_range
      (CharacterSelector.Request None None (Some (2 # 1)) (Some (1 # 1))
         None None None None)
      (Fixture.character_world "random" Fixture.characters None)
      Fixture.characters eq_refl (or_introl eq_refl) (or_intror eq_refl))
      as (k & w' & Hrun & Hrng & Hout & Hused & _).
    exists k, w'. split_and!; assumption.
Defined.

(** ** Nothing eligible in "only" mode *)

(** C10: in "only" mode with ranges in order, a call that finds no eligible
    record raises [NoEligibleRecordsError] after it has emptied the used-set
    and printed the reset notice; a used-set that held tokens is therefore
    not what it was. *)
Theorem only_failure_clears_used_set :
  (∀ q (w : world ArtistSelector.t) df,
     ArtistSelector.artists_df (self w) = Some df →
     ArtistSelector.cfg_mode (ArtistSelector.config (self w)) = Some "only" →
     ArtistSelector.min_count q (self w) ≤ ArtistSelector.max_count q (self w) →
     (ArtistSelector.min_weight q (self w) <=
        ArtistSelector.max_weight q (self w))%Q →
     ArtistSelector.all_eligible q (self w) df = [] →
     ∃ w',
       ArtistSelector.select q w = (w', Raised NoEligibleRecordsError) ∧
       ArtistSelector._used_artists (self w') = Some ∅ ∧
       stdout w' = stdout w ++ [ResetNotice (ArtistSelector.csv_path (self w))] ∧
       rng w' = rng w ∧
       (ArtistSelector.used (self w) ≠ ∅ → self w' ≠ self w)) ∧
  (∀ q (w : world CharacterSelector.t) df,
     CharacterSelector.characters_df (self w) = Some df →
     CharacterSelector.cfg_mode (CharacterSelector.config (self w)) =
       Some "only" →
     CharacterSelector.min_count q (self w) ≤
       CharacterSelector.max_count q (self w) →
     (CharacterSelector.min_weight q (self w) <=
        CharacterSelector.max_weight q (self w))%Q →
     CharacterSelector.all_eligible q (self w) df = [] →
     ∃ w',
       CharacterSelector.select q w = (w', Raised NoEligibleRecordsError) ∧
       CharacterSelector._used_characters (self w') = Some ∅ ∧
       stdout w' =
         stdout w ++ [ResetNotice (CharacterSelector.csv_path (self w))] ∧
       rng w' = rng w ∧
       (CharacterSelector.used (self w) ≠ ∅ → self w' ≠ self w)).
Proof.
  split.
  - intros q w df Hdf Hm Hab Hxy Hnone. eexists. split.
    { by apply (artist_only_no_eligible q w df). }
    cbn. split_and!; try done.
    intros Hu Heq. apply Hu. rewrite <-Heq. done.
  - intros q w df Hdf Hm Hab Hxy Hnone. eexists. split.
    { by apply (character_only_no_eligible q w df). }
    cbn. split_and!; try done.
    intros Hu Heq. apply Hu. rewrite <-Heq. done.
Qed.

(** C10 at the five artists with two tokens used, asked for artists with at
    least 100 works, and at the five characters with one token used, asked
    for a copyright that is not there: the call raises and the used-set is
    empty afterwards. *)
Lemma only_failure_clears_used_set_witness :
  (∃ w',
     ArtistSelector.select
       (ArtistSelector.Request None None None None (Some 100) None)
       (Fixture.artist_world "only" Fixture.artists (Some {["ann"; "dee"]})) =
       (w', Raised NoEligibleRecordsError) ∧
     ArtistSelector._used_artists (self w') = Some ∅ ∧
     stdout w' = [ResetNotice "artists.csv"] ∧
     self w' ≠
       self (Fixture.artist_world "only" Fixture.artists
               (Some {["ann"; "dee"]}))) ∧
  (∃ w',
     CharacterSelector.select Fixture.unknown_copyright
       (Fixture.character_world "only" Fixture.characters (Some {["rin"]})) =
       (w', Raised NoEligibleRecordsError) ∧
     CharacterSelector._used_characters (self w') = Some ∅ ∧
     stdout w' = [ResetNotice "characters.csv"] ∧
     self w' ≠
       self (Fixture.character_world "only" Fixture.characters
               (Some {["rin"]}))).
Proof.
  split.
  - destruct (proj1 only_failure_clears_used_set
      (ArtistSelector.Request None None None None (Some 100) None)
      (Fixture.artist_world "only" Fixture.artists (Some {["ann"; "dee"]}))
      Fixture.artists eq_refl eq_refl ltac:(by vm_compute)
      ltac:(by vm_compute) eq_refl) as (w' & Hrun & Hused & Hout & _ & Hne).
    exists w'. split_and!; [assumption..|].
    apply Hne. intros Hempty.
    assert ("ann" ∈ (∅ : gset string)) as Hin; [|set_solver].
    rewrite <-Hempty. cbn. set_solver.
  - destruct (proj2 only_failure_clears_used_set Fixture.unknown_copyright
      (Fixture.character_world "only" Fixture.characters (Some {["rin"]}))
      Fixture.characters eq_refl eq_refl ltac:(by vm_compute)
      ltac:(by vm_compute) eq_refl) as (w' & Hrun & Hused & Hout & _ & Hne).
    exists w'. split_and!; [assumption..|].
    apply Hne. intros Hempty.
    assert ("rin" ∈ (∅ : gset string)) as Hin; [|set_solver].
    rewrite <-Hempty. cbn. set_solver.
Defined.

(** C3, as the code has it: in "only" mode a call with ranges in order
    raises [NoEligibleRecordsError] exactly when no record passes the
    thresholds; and when some do, none of them is unused and the count
    cannot be negative, the call returns: the used-set is cleared and then
    holds the tokens of this result only, the reset notice is printed before
    the report, and the rows are drawn from all the eligible ones. *)
Theorem only_no_eligible_iff :
  (∀ q (w : world ArtistSelector.t) df,
     ArtistSelector.artists_df (self w) = Some df →
     ArtistSelector.cfg_mode (ArtistSelector.config (self w)) = Some "only" →
     ArtistSelector.min_count q (self w) ≤ ArtistSelector.max_count q (self w) →
     (ArtistSelector.min_weight q (self w) <=
        ArtistSelector.max_weight q (self w))%Q →
     ((∃ w', ArtistSelector.select q w = (w', Raised NoEligibleRecordsError)) ↔
      ArtistSelector.all_eligible q (self w) df = []) ∧
     (0 ≤ ArtistSelector.min_count q (self w) →
      ArtistSelector.all_eligible q (self w) df ≠ [] →
      ArtistSelector.available q (self w) df = [] →
      ∃ w' res report,
        ArtistSelector.select q w = (w', Returned res) ∧
        ArtistSelector.used (self w') =
          list_to_set (ArtistSelector.tokens res) ∧
        stdout w' =
          stdout w ++ [ResetNotice (ArtistSelector.csv_path (self w)); report] ∧
        ArtistSelector.tokens res ⊆+
          ArtistSelector.trigger <$>
            ArtistSelector.all_eligible q (self w) df)) ∧
  (∀ q (w : world CharacterSelector.t) df,
     CharacterSelector.characters_df (self w) = Some df →
     CharacterSelector.cfg_mode (CharacterSelector.config (self w)) =
       Some "only" →
     CharacterSelector.min_count q (self w) ≤
       CharacterSelector.max_count q (self w) →
     (CharacterSelector.min_weight q (self w) <=
        CharacterSelector.max_weight q (self w))%Q →
     ((∃ w',
         CharacterSelector.select q w = (w', Raised NoEligibleRecordsError)) ↔
      CharacterSelector.all_eligible q (self w) df = []) ∧
     (0 ≤ CharacterSelector.min_count q (self w) →
      CharacterSelector.all_eligible q (self w) df ≠ [] →
      CharacterSelector.available q (self w) df = [] →
      ∃ w' res report,
        CharacterSelector.select q w = (w', Returned res) ∧
        CharacterSelector.used (self w') =
          list_to_set (CharacterSelector.tokens res) ∧
        stdout w' =
          stdout w ++
            [ResetNotice (CharacterSelector.csv_path (self w)); report] ∧
        CharacterSelector.tokens res ⊆+
          CharacterSelector.trigger <$>
            CharacterSelector.all_eligible q (self w) df)).
Proof.
  split.
  - intros q w df Hdf Hm Hab Hxy. split.
    { split.
      - intros [w' Hrun]. by apply (artist_only_no_eligible_inv q w w' df).
      - intros Hnone. eexists. by apply (artist_only_no_eligible q w df). }
    intros Ha Hsome Hnone.
    destruct (artist_only_recovers q w df Hdf Hm Hab Hxy Ha Hsome Hnone)
      as (k & rows & ws & t & Hk & Hsub & Hlen & Hws & Hrun).
    eexists _, _, _. split; [exact Hrun|].
    unfold ArtistSelector.tokens.
    rewrite (fmap_zip_with_via _ _ ArtistSelector.trigger) by (done || lia).
    split_and!; [done|done|by apply fmap_submseteq].
  - intros q w df Hdf Hm Hab Hxy. split.
    { split.
      - intros [w' Hrun]. by apply (character_only_no_eligible_inv q w w' df).
      - intros Hnone. eexists. by apply (character_only_no_eligible q w df). }
    intros Ha Hsome Hnone.
    destruct (character_only_recovers q w df Hdf Hm Hab Hxy Ha Hsome Hnone)
      as (k & rows & ws & t & Hk & Hsub & Hlen & Hws & Hrun).
    eexists _, _, _. split; [exact Hrun|].
    unfold CharacterSelector.tokens. rewrite <-list_fmap_compose.
    rewrite (fmap_zip_with_via _ _ CharacterSelector.trigger) by (done || lia).
    split_and!; [done|done|by apply fmap_submseteq].
Qed.

(** C3 on a pool of two artists, both used, and on a pool of two
    characters, both used: the call returns both again. *)
Lemma only_no_eligible_iff_witness :
  (∃ w' res report,
     ArtistSelector.select Fixture.at_least_ten
       (Fixture.artist_world "only" Fixture.artists (Some {["ann"; "dee"]})) =
       (w', Returned res) ∧
     ArtistSelector.used (self w') = list_to_set (ArtistSelector.tokens res) ∧
     stdout w' = [ResetNotice "artists.csv"; report] ∧
     length res = 2%nat) ∧
  (∃ w' res report,
     CharacterSelector.select Fixture.fate_only
       (Fixture.character_world "only" Fixture.characters
          (Some {["rin"; "saber"]})) =
       (w', Returned res) ∧
     CharacterSelector.used (self w') =
       list_to_set (CharacterSelector.tokens res) ∧
     stdout w' = [ResetNotice "characters.csv"; report] ∧
     length res = 2%nat).
Proof.
  split.
  - destruct (proj1 only_no_eligible_iff Fixture.at_least_ten
      (Fixture.artist_world "only" Fixture.artists (Some {["ann"; "dee"]}))
      Fixture.artists eq_refl eq_refl ltac:(by vm_compute)
      ltac:(by vm_compute)) as [_ Hrecover].
    destruct (Hrecover ltac:(by vm_compute) ltac:(by vm_compute)
                ltac:(by vm_compute))
      as (w' & res & report & Hrun & Hused & Hout & _).
    exists w', res, report. split_and!; [assumption..|].
    assert (Hrun' := Hrun). vm_compute in Hrun'.
    injection Hrun' as _ <-. reflexivity.
  - destruct (proj2 only_no_eligible_iff Fixture.fate_only
      (Fixture.character_world "only" Fixture.characters
         (Some {["rin"; "saber"]}))
      Fixture.characters eq_refl eq_refl ltac:(by vm_compute)
      ltac:(by vm_compute)) as [_ Hrecover].
    destruct (Hrecover ltac:(by vm_compute) ltac:(by vm_compute)
                ltac:(by vm_compute))
      as (w' & res & report & Hrun & Hused & Hout & _).
    exists w', res, report. split_and!; [assumption..|].
    assert (Hrun' := Hrun). vm_compute in Hrun'.
    injection Hrun' as _ <-. reflexivity.
Defined.

(** C3 as stated fails twice over.  With counts out of order and nothing
    eligible the call raises [InvalidParameterError], not
    [NoEligibleRecordsError]; and with eligible records, all of them used,
    and a negative count, the call does fail: the sample refuses the
    negative size after the used-set has been cleared. *)
Lemma only_no_eligible_iff_fails :
  let w := Fixture.artist_world "only" Fixture.artists
             (Some {["ann"; "cyd"; "dee"]}) in
  (let q := ArtistSelector.Request (Some 5) (Some 2) None None (Some 100) None in
   ArtistSelector.all_eligible q (self w) Fixture.artists = [] ∧
   ¬ ∃ w', ArtistSelector.select q w = (w', Raised NoEligibleRecordsError)) ∧
  (let q := ArtistSelector.Request (Some (-1)) (Some (-1)) None None None None in
   ArtistSelector.all_eligible q (self w) Fixture.artists ≠ [] ∧
   ArtistSelector.available q (self w) Fixture.artists = [] ∧
   ∃ w', ArtistSelector.select q w = (w', Raised SampleSizeError) ∧
         ArtistSelector._used_artists (self w') = Some ∅).
Proof.
  cbv zeta. split.
  - split; [reflexivity|]. intros [w' Hrun]. vm_compute in Hrun. discriminate.
  - split; [by vm_compute|]. split; [by vm_compute|].
    eexists. split; [vm_compute; reflexivity|]. reflexivity.
Qed.

(** ** The mode argument *)

(** C7: two calls that differ only in the [mode] argument do the same from
    the same world: the argument is dropped and the mode is the configured
    one, read at the call. *)
Theorem select_ignores_mode_argument :
  (∀ a b x y m mode1 mode2 (w : world ArtistSelector.t),
     ArtistSelector.select_artists a b x y m mode1 w =
     ArtistSelector.select_artists a b x y m mode2 w) ∧
  (∀ a b x y m mode (w : world ArtistSelector.t),
     ArtistSelector.select_artists a b x y m mode w =
     let cfg := ArtistSelector.config (self w) in
     match ArtistSelector.cfg_mode cfg with
     | None => (w, Raised (KeyError "mode"))
     | Some configured =>
         if decide (configured = "random") then
           ArtistSelector._select_artists_random
             (or_config a (ArtistSelector.cfg_min_count cfg))
             (or_config b (ArtistSelector.cfg_max_count cfg))
             (or_config x (ArtistSelector.cfg_min_weight cfg))
             (or_config y (ArtistSelector.cfg_max_weight cfg))
             (or_config m (ArtistSelector.cfg_min_works cfg)) w
         else if decide (configured = "only") then
           ArtistSelector._select_artists_only
             (or_config a (ArtistSelector.cfg_min_count cfg))
             (or_config b (ArtistSelector.cfg_max_count cfg))
             (or_config x (ArtistSelector.cfg_min_weight cfg))
             (or_config y (ArtistSelector.cfg_max_weight cfg))
             (or_config m (ArtistSelector.cfg_min_works cfg)) w
         else (w, Raised InvalidModeError)
     end) ∧
  (∀ a b x y m n f mode1 mode2 (w : world CharacterSelector.t),
     CharacterSelector.select_characters a b x y m n f mode1 w =
     CharacterSelector.select_characters a b x y m n f mode2 w) ∧
  (∀ a b x y m n f mode (w : world CharacterSelector.t),
     CharacterSelector.select_characters a b x y m n f mode w =
     let cfg := CharacterSelector.config (self w) in
     match CharacterSelector.cfg_mode cfg with
     | None => (w, Raised (KeyError "mode"))
     | Some configured =>
         if decide (configured = "random") then
           CharacterSelector._select_characters_random
             (or_config a (CharacterSelector.cfg_min_count cfg))
             (or_config b (CharacterSelector.cfg_max_count cfg))
             (or_config x (CharacterSelector.cfg_min_weight cfg))
             (or_config y (CharacterSelector.cfg_max_weight cfg))
             (or_config m (CharacterSelector.cfg_min_total_works cfg))
             (or_config n (CharacterSelector.cfg_min_solo_works cfg)) f w
         else if decide (configured = "only") then
           CharacterSelector._select_characters_only
             (or_config a (CharacterSelector.cfg_min_count cfg))
             (or_config b (CharacterSelector.cfg_max_count cfg))
             (or_config x (CharacterSelector.cfg_min_weight cfg))
             (or_config y (CharacterSelector.cfg_max_weight cfg))
             (or_config m (CharacterSelector.cfg_min_total_works cfg))
             (or_config n (CharacterSelector.cfg_min_solo_works cfg)) f w
         else (w, Raised InvalidModeError)
     end).
Proof.
  split_and!.
  - reflexivity.
  - intros a b x y m mode w. unfold ArtistSelector.select_artists.
    rewrite bind_gets. cbv zeta.
    destruct (ArtistSelector.cfg_mode _) as [configured|]; [|done].
    by repeat case_decide.
  - reflexivity.
  - intros a b x y m n f mode w. unfold CharacterSelector.select_characters.
    rewrite bind_gets. cbv zeta.
    destruct (CharacterSelector.cfg_mode _) as [configured|]; [|done].
    by repeat case_decide.
Qed.

(** ** Reset *)

(** C8: [reset] returns nothing and never raises; afterwards the used-set
    holds no token and everything else is as before; on a used-set that is
    already empty, or was never created, it changes nothing at all, so a
    second reset changes nothing. *)
Theorem reset_clears_used_set :
  (∀ w : world ArtistSelector.t,
     ∃ w',
       ArtistSelector.reset_used_artists w = (w', Returned tt) ∧
       ArtistSelector.used (self w') = ∅ ∧
       rng w' = rng w ∧ stdout w' = stdout w ∧
       ArtistSelector.artists_df (self w') = ArtistSelector.artists_df (self w) ∧
       ArtistSelector.config (self w') = ArtistSelector.config (self w) ∧
       ArtistSelector.csv_path (self w') = ArtistSelector.csv_path (self w) ∧
       (ArtistSelector.used (self w) = ∅ → w' = w) ∧
       ArtistSelector.reset_used_artists w' = (w', Returned tt)) ∧
  (∀ w : world CharacterSelector.t,
     ∃ w',
       CharacterSelector.reset_used_characters w = (w', Returned tt) ∧
       CharacterSelector.used (self w') = ∅ ∧
       rng w' = rng w ∧ stdout w' = stdout w ∧
       CharacterSelector.characters_df (self w') =
         CharacterSelector.characters_df (self w) ∧
       CharacterSelector.config (self w') = CharacterSelector.config (self w) ∧
       CharacterSelector.csv_path (self w') =
         CharacterSelector.csv_path (self w) ∧
       (CharacterSelector.used (self w) = ∅ → w' = w) ∧
       CharacterSelector.reset_used_characters w' = (w', Returned tt)).
Proof.
  split.
  - intros [[csv df cfg [u|]] t out]; eexists; (split; [reflexivity|]); cbn;
      split_and!; try done.
    by intros ->.
  - intros [[csv df cfg [u|]] t out]; eexists; (split; [reflexivity|]); cbn;
      split_and!; try done.
    by intros ->.
Qed.

(** ** The copyright catalogue *)

(** C9, as the code has it: on a loaded dataset the catalogue is one list,
    fixed by the dataset and the threshold alone; the call returns it and
    leaves the world as it was.  The list is in ascending lexicographic
    order without repeats, and holds exactly the copyrights of the dataset
    whose summed works, taken in int64 as pandas takes them, reach the
    threshold.  Where no copyright's works sum past the int64 range, those
    are the copyrights whose summed works reach the threshold. *)
Theorem available_copyrights_catalogue :
  ∀ (df : list CharacterSelector.row) (min_total_works : Z),
  ∃ catalogue : list string,
    (∀ w : world CharacterSelector.t,
       CharacterSelector.characters_df (self w) = Some df →
       CharacterSelector.get_available_copyrights min_total_works w =
         (w, Returned catalogue)) ∧
    Sorted String.le catalogue ∧
    NoDup catalogue ∧
    (∀ c, c ∈ catalogue ↔
          c ∈ CharacterSelector.copyright <$> df ∧
          min_total_works ≤ wrap64 (CharacterSelector.total_works c df)) ∧
    (CharacterSelector.sums_fit df →
     ∀ c, c ∈ catalogue ↔
          c ∈ CharacterSelector.copyright <$> df ∧
          min_total_works ≤ CharacterSelector.total_works c df).
Proof.
  intros df thr.
  assert (∀ c,
    c ∈ merge_sort String.le
          (map_to_list
             (filter (λ kv, thr ≤ kv.2)
                (CharacterSelector.copyright_counts df))).*1 ↔
    c ∈ CharacterSelector.copyright <$> df ∧
    thr ≤ wrap64 (CharacterSelector.total_works c df)) as Hin.
  { intros c. rewrite merge_sort_Permutation, list_elem_of_fmap. split.
    + intros ([c' v] & -> & Hin). cbn.
      apply elem_of_map_to_list, map_lookup_filter_Some in Hin as [Hc Hv].
      rewrite copyright_counts_lookup in Hc. cbn in Hv.
      case_decide; by simplify_eq.
    + intros [Hc Hv].
      exists (c, wrap64 (CharacterSelector.total_works c df)).
      split; [done|]. apply elem_of_map_to_list, map_lookup_filter_Some.
      split; [|done]. rewrite copyright_counts_lookup.
      by rewrite decide_True. }
  eexists. split_and!.
  - intros w Hdf. unfold CharacterSelector.get_available_copyrights.
    unfold CharacterSelector.loaded_df.
    rewrite bind_assoc, bind_gets, Hdf, bind_ret. reflexivity.
  - apply (Sorted_merge_sort String.le).
  - rewrite merge_sort_Permutation. apply NoDup_fst_map_to_list.
  - exact Hin.
  - intros Hfit c. rewrite Hin. split.
    + intros [Hc Hv]. split; [done|]. by rewrite <- (sums_fit_total df c).
    + intros [Hc Hv]. split; [done|]. by rewrite (sums_fit_total df c).
Qed.

(** C9 at the five characters and threshold 10: "fate" sums to 80,
    "vocaloid" to 94 and "zelda" to 7, all within int64. *)
Lemma available_copyrights_catalogue_witness :
  CharacterSelector.get_available_copyrights 10
    (Fixture.character_world "only" Fixture.characters (Some {["rin"]})) =
    (Fixture.character_world "only" Fixture.characters (Some {["rin"]}),
     Returned ["fate"; "vocaloid"]) ∧
  ("vocaloid" ∈ CharacterSelector.copyright <$> Fixture.characters ∧
   10 ≤ CharacterSelector.total_works "vocaloid" Fixture.characters).
Proof.
  destruct (available_copyrights_catalogue Fixture.characters 10)
    as (catalogue & Hrun & _ & _ & _ & Hfit).
  assert (CharacterSelector.sums_fit Fixture.characters) as Hsums.
  { repeat constructor; by vm_compute. }
  assert (catalogue = ["fate"; "vocaloid"]) as ->.
  { specialize (Hrun (Fixture.character_world "only" Fixture.characters None)
                  eq_refl).
    vm_compute in Hrun. by injection Hrun as <-. }
  split.
  - exact (Hrun (Fixture.character_world "only" Fixture.characters
                   (Some {["rin"]})) eq_refl).
  - apply (Hfit Hsums). set_solver.
Defined.

(** C9 as stated fails: two characters of one copyright with 2^62 works
    each have 2^63 works between them, which is past the int64 range; the
    sum wraps to -2^63 and the catalogue from 0 leaves the copyright out. *)
Lemma available_copyrights_overflow :
  let df :=
    [ CharacterSelector.Row "Big One" "big" "big_one" (2 ^ 62) 0 "u1" [];
      CharacterSelector.Row "Big Two" "big" "big_two" (2 ^ 62) 0 "u2" [];
      CharacterSelector.Row "Small" "small" "small" 3 0 "u3" [] ] in
  let w := Fixture.character_world "random" df None in
  "big" ∈ CharacterSelector.copyright <$> df ∧
  0 ≤ CharacterSelector.total_works "big" df ∧
  CharacterSelector.get_available_copyrights 0 w = (w, Returned ["small"]).
Proof.
  cbv zeta. split; [set_solver|]. split; by vm_compute.
Qed.

(** ** Consecutive calls in "only" mode *)

(** C1: take any calls made one after the other, with no reset in between,
    on a selector in "only" mode.  If a token is in the results of two of
    them, then one of the calls after the first, up to and including the
    second, found no eligible record unused.  When a call finds none unused,
    every eligible record's token was in the used-set at the start or has
    been returned by an earlier call; and if the call returns, the used-set
    was emptied on the way: afterwards it holds the tokens of this result
    and nothing else, so the other tokens can be drawn again. *)
Theorem only_mode_no_repeat_until_exhausted :
  (∀ qs (w : world ArtistSelector.t) df,
     ArtistSelector.only_ready df (self w) →
     (∀ i j wi ri wi' wj rj wj' tok,
        (i < j)%nat →
        trace ArtistSelector.select qs w !! i = Some (wi, Returned ri, wi') →
        trace ArtistSelector.select qs w !! j = Some (wj, Returned rj, wj') →
        tok ∈ ArtistSelector.tokens ri → tok ∈ ArtistSelector.tokens rj →
        ∃ m qm wm om wm',
          (i < m ≤ j)%nat ∧ qs !! m = Some qm ∧
          trace ArtistSelector.select qs w !! m = Some (wm, om, wm') ∧
          ArtistSelector.available qm (self wm) df = []) ∧
     (∀ m qm wm om wm',
        qs !! m = Some qm →
        trace ArtistSelector.select qs w !! m = Some (wm, om, wm') →
        ArtistSelector.available qm (self wm) df = [] →
        (∀ r, r ∈ ArtistSelector.all_eligible qm (self wm) df →
           ArtistSelector.trigger r ∈ ArtistSelector.used (self w) ∨
           ∃ l wl rl wl',
             (l < m)%nat ∧
             trace ArtistSelector.select qs w !! l =
               Some (wl, Returned rl, wl') ∧
             ArtistSelector.trigger r ∈ ArtistSelector.tokens rl) ∧
        (∀ rm, om = Returned rm →
           ArtistSelector.used (self wm') =
             list_to_set (ArtistSelector.tokens rm)))) ∧
  (∀ qs (w : world CharacterSelector.t) df,
     CharacterSelector.only_ready df (self w) →
     (∀ i j wi ri wi' wj rj wj' tok,
        (i < j)%nat →
        trace CharacterSelector.select qs w !! i = Some (wi, Returned ri, wi') →
        trace CharacterSelector.select qs w !! j = Some (wj, Returned rj, wj') →
        tok ∈ CharacterSelector.tokens ri →
        tok ∈ CharacterSelector.tokens rj →
        ∃ m qm wm om wm',
          (i < m ≤ j)%nat ∧ qs !! m = Some qm ∧
          trace CharacterSelector.select qs w !! m = Some (wm, om, wm') ∧
          CharacterSelector.available qm (self wm) df = []) ∧
     (∀ m qm wm om wm',
        qs !! m = Some qm →
        trace CharacterSelector.select qs w !! m = Some (wm, om, wm') →
        CharacterSelector.available qm (self wm) df = [] →
        (∀ r, r ∈ CharacterSelector.all_eligible qm (self wm) df →
           CharacterSelector.trigger r ∈ CharacterSelector.used (self w) ∨
           ∃ l wl rl wl',
             (l < m)%nat ∧
             trace CharacterSelector.select qs w !! l =
               Some (wl, Returned rl, wl') ∧
             CharacterSelector.trigger r ∈ CharacterSelector.tokens rl) ∧
        (∀ rm, om = Returned rm →
           CharacterSelector.used (self wm') =
             list_to_set (CharacterSelector.tokens rm)))).
Proof.
  split.
  - intros qs w df Hready.
    pose proof (λ q w w' o H1 H2,
      proj1 (artist_step_facts df q w w' o H1 H2)) as Hinv.
    pose proof (λ q w w' o H1 H2,
      proj1 (proj2 (artist_step_facts df q w w' o H1 H2))) as Hmarks.
    pose proof (λ q w w' o H1 H2,
      proj1 (proj2 (proj2 (artist_step_facts df q w w' o H1 H2)))) as Honly.
    pose proof (λ q w w' o H1 H2,
      proj2 (proj2 (proj2 (artist_step_facts df q w w' o H1 H2)))) as Hcases.
    split.
    + intros i j wi ri wi' wj rj wj' tok Hij Hi Hj Hti Htj.
      exact (trace_no_repeat ArtistSelector.select ArtistSelector.used
        ArtistSelector.tokens (λ q s, ArtistSelector.available q s df = [])
        (ArtistSelector.only_ready df) Hinv Hmarks Hcases
        qs w i j wi ri wi' wj rj wj' tok Hready Hij Hi Hj Hti Htj).
    + intros m qm wm om wm' Hqm Hm Hnone.
      destruct (trace_lookup ArtistSelector.select
        (ArtistSelector.only_ready df) Hinv qs w m wm om wm' Hready Hm)
        as (qm' & Hqm' & Hstep & [Hdf Hmode]).
      assert (qm' = qm) as -> by congruence. split.
      * intros r Hr.
        eapply (trace_used_returned ArtistSelector.select ArtistSelector.used
          ArtistSelector.tokens (λ q s, ArtistSelector.available q s df = [])
          (ArtistSelector.only_ready df));
          [first [exact Hinv|exact Hmarks|exact Honly|exact Hcases
                 |exact Hready|exact Hm]..|].
        by apply (artist_exhausted_used qm (self wm) df).
      * intros rm ->.
        destruct (artist_only_step qm wm wm' _ df Hdf Hmode Hstep)
          as (_ & _ & _ & [[_ Hall]|[Hsome _]]); [exact (Hall rm eq_refl)|done].
  - intros qs w df Hready.
    pose proof (λ q w w' o H1 H2,
      proj1 (character_step_facts df q w w' o H1 H2)) as Hinv.
    pose proof (λ q w w' o H1 H2,
      proj1 (proj2 (character_step_facts df q w w' o H1 H2))) as Hmarks.
    pose proof (λ q w w' o H1 H2,
      proj1 (proj2 (proj2 (character_step_facts df q w w' o H1 H2))))
      as Honly.
    pose proof (λ q w w' o H1 H2,
      proj2 (proj2 (proj2 (character_step_facts df q w w' o H1 H2))))
      as Hcases.
    split.
    + intros i j wi ri wi' wj rj wj' tok Hij Hi Hj Hti Htj.
      exact (trace_no_repeat CharacterSelector.select CharacterSelector.used
        CharacterSelector.tokens
        (λ q s, CharacterSelector.available q s df = [])
        (CharacterSelector.only_ready df) Hinv Hmarks Hcases
        qs w i j wi ri wi' wj rj wj' tok Hready Hij Hi Hj Hti Htj).
    + intros m qm wm om wm' Hqm Hm Hnone.
      destruct (trace_lookup CharacterSelector.select
        (CharacterSelector.only_ready df) Hinv qs w m wm om wm' Hready Hm)
        as (qm' & Hqm' & Hstep & [Hdf Hmode]).
      assert (qm' = qm) as -> by congruence. split.
      * intros r Hr.
        eapply (trace_used_returned CharacterSelector.select
          CharacterSelector.used CharacterSelector.tokens
          (λ q s, CharacterSelector.available q s df = [])
          (CharacterSelector.only_ready df));
          [first [exact Hinv|exact Hmarks|exact Honly|exact Hcases
                 |exact Hready|exact Hm]..|].
        by apply (character_exhausted_used qm (self wm) df).
      * intros rm ->.
        destruct (character_only_step qm wm wm' _ df Hdf Hmode Hstep)
          as (_ & _ & _ & [[_ Hall]|[Hsome _]]); [exact (Hall rm eq_refl)|done].
Qed.

(** C1 on a pool of two artists, and on a pool of two characters, with two
    asked for each time: the first call returns both tokens, the second
    finds none unused, resets and returns both again. *)
Lemma only_mode_no_repeat_until_exhausted_witness :
  (let qs := [Fixture.at_least_ten; Fixture.at_least_ten] in
   let w := Fixture.artist_world "only" Fixture.artists None in
   (∃ wi ri wi' wj rj wj',
      trace ArtistSelector.select qs w !! 0%nat = Some (wi, Returned ri, wi') ∧
      trace ArtistSelector.select qs w !! 1%nat = Some (wj, Returned rj, wj') ∧
      "ann" ∈ ArtistSelector.tokens ri ∧ "ann" ∈ ArtistSelector.tokens rj) ∧
   ∃ m qm wm om wm',
     (0 < m ≤ 1)%nat ∧ qs !! m = Some qm ∧
     trace ArtistSelector.select qs w !! m = Some (wm, om, wm') ∧
     ArtistSelector.available qm (self wm) Fixture.artists = []) ∧
  (let qs := [Fixture.fate_only; Fixture.fate_only] in
   let w := Fixture.character_world "only" Fixture.characters None in
   (∃ wi ri wi' wj rj wj',
      trace CharacterSelector.select qs w !! 0%nat =
        Some (wi, Returned ri, wi') ∧
      trace CharacterSelector.select qs w !! 1%nat =
        Some (wj, Returned rj, wj') ∧
      "rin" ∈ CharacterSelector.tokens ri ∧
      "rin" ∈ CharacterSelector.tokens rj) ∧
   ∃ m qm wm om wm',
     (0 < m ≤ 1)%nat ∧ qs !! m = Some qm ∧
     trace CharacterSelector.select qs w !! m = Some (wm, om, wm') ∧
     CharacterSelector.available qm (self wm) Fixture.characters = []).
Proof.
  split.
  - intros qs w.
    assert (∃ wi ri wi' wj rj wj',
      trace ArtistSelector.select qs w !! 0%nat = Some (wi, Returned ri, wi') ∧
      trace ArtistSelector.select qs w !! 1%nat = Some (wj, Returned rj, wj') ∧
      "ann" ∈ ArtistSelector.tokens ri ∧ "ann" ∈ ArtistSelector.tokens rj)
      as Hruns.
    { eexists _, _, _, _, _, _.
      split; [vm_compute; reflexivity|]. split; [vm_compute; reflexivity|].
      split; cbn; set_solver. }
    split; [exact Hruns|].
    destruct Hruns as (wi & ri & wi' & wj & rj & wj' & Hi & Hj & Hti & Htj).
    exact (proj1 (proj1 only_mode_no_repeat_until_exhausted qs w
      Fixture.artists (conj eq_refl eq_refl)) 0%nat 1%nat wi ri wi' wj rj wj'
      "ann" ltac:(lia) Hi Hj Hti Htj).
  - intros qs w.
    assert (∃ wi ri wi' wj rj wj',
      trace CharacterSelector.select qs w !! 0%nat =
        Some (wi, Returned ri, wi') ∧
      trace CharacterSelector.select qs w !! 1%nat =
        Some (wj, Returned rj, wj') ∧
      "rin" ∈ CharacterSelector.tokens ri ∧
      "rin" ∈ CharacterSelector.tokens rj) as Hruns.
    { eexists _, _, _, _, _, _.
      split; [vm_compute; reflexivity|]. split; [vm_compute; reflexivity|].
      split; cbn; set_solver. }
    split; [exact Hruns|].
    destruct Hruns as (wi & ri & wi' & wj & rj & wj' & Hi & Hj & Hti & Htj).
    exact (proj1 (proj2 only_mode_no_repeat_until_exhausted qs w
      Fixture.characters (conj eq_refl eq_refl)) 0%nat 1%nat wi ri wi' wj rj
      wj' "rin" ltac:(lia) Hi Hj Hti Htj).
Defined.

(** * Further facts about the engine *)

Lemma unused_of_empty {A} (f : A → string) (l : list A) :
  engine_unused f ∅ l = l.
Proof.
  unfold engine_unused. induction l as [|a l IH]; [done|].
  rewrite filter_cons_True by set_solver. by rewrite IH.
Qed.

(** * Calls that do not look at the selector *)
Section Blind.
Context {S : Type} (R : relation S) `{!Reflexive R}.

Lemma blind_ret {A} (a : A) : blind_on R (ret a).
Proof. by intros s s0 t out _. Qed.

Lemma blind_raise {A} e : blind_on R (raise (A:=A) e).
Proof. by intros s s0 t out _. Qed.

Lemma blind_draw : blind_on R draw.
Proof. by intros s s0 t out _. Qed.

Lemma blind_print n : blind_on R (print n).
Proof. by intros s s0 t out _. Qed.

Lemma blind_gets {A} (g : S → A) :
  (∀ s s0, R s s0 → g s = g s0) → blind_on R (gets g).
Proof. intros Hg s s0 t out HR. unfold gets, relabel. cbn. by rewrite (Hg s s0). Qed.

Lemma blind_bind {A B} (m : M S A) (f : A → M S B) :
  blind_on R m → (∀ a, blind_on R (f a)) → blind_on R (bind m f).
Proof.
  intros Hm Hf s s0 t out HR. unfold bind at 1 2.
  rewrite (Hm s s0 t out HR).
  pose proof (Hm s0 s0 t out (reflexivity s0)) as Hself.
  destruct (m (World s0 t out)) as [w0 [e|a]]; [done|].
  unfold relabel in *. cbn in *. injection Hself as ->.
  by rewrite (Hf a s s0 _ _ HR).
Qed.

Lemma blind_randint a b : blind_on R (randint a b).
Proof.
  unfold randint. case_match; [apply blind_raise|].
  apply blind_bind; [apply blind_draw|intros; apply blind_ret].
Qed.

Lemma blind_uniform x y : blind_on R (uniform x y).
Proof.
  unfold uniform, random. apply blind_bind; [|intros; apply blind_ret].
  apply blind_bind; [apply blind_draw|intros; apply blind_ret].
Qed.

Lemma blind_sample {A} n (df : list A) : blind_on R (sample n df).
Proof.
  unfold sample. case_match; [apply blind_raise|].
  case_match; [apply blind_raise|].
  intros s s0 t out _. unfold relabel. cbn.
  by destruct (pick (Z.to_nat n) df t).
Qed.

Lemma blind_for_each {A B} (rows : list A) (body : A → M S B) :
  (∀ r, blind_on R (body r)) → blind_on R (for_each rows body).
Proof.
  intros Hbody. induction rows as [|r rows IH]; [apply blind_ret|].
  cbn [for_each]. apply blind_bind; [apply Hbody|]. intros y.
  apply blind_bind; [apply IH|intros; apply blind_ret].
Qed.

End Blind.

Section EngineMore.
Context {S Row B : Type}.
Variable frame : S → option (list Row).
Variable path : S → string.
Variable used_attr : S → option (gset string).
Variable with_used : option (gset string) → S → S.
Variable token : Row → string.
Variable entry : Row → Q → B.
Variable mode_of : S → option string.
Variable token_of : B → string.
Variable weight_of : B → Q.

Hypothesis token_entry : ∀ r x, token_of (entry r x) = token r.
Hypothesis weight_entry : ∀ r x, weight_of (entry r x) = x.
Hypothesis used_with : ∀ u s, used_attr (with_used u s) = u.
Hypothesis frame_with : ∀ u s, frame (with_used u s) = frame s.
Hypothesis path_with : ∀ u s, path (with_used u s) = path s.
Hypothesis with_with : ∀ u v s, with_used u (with_used v s) = with_used u s.
Hypothesis with_same : ∀ s, with_used (used_attr s) s = s.
Hypothesis mode_with : ∀ u s, mode_of (with_used u s) = mode_of s.

Abbreviation used := (engine_used used_attr).
Abbreviation unused := (engine_unused token).
Abbreviation fresh := (materialise used_attr with_used).
Abbreviation random_mode := (engine_random frame path entry).
Abbreviation only_mode :=
  (engine_only frame path used_attr with_used token entry).
Abbreviation select :=
  (engine_select frame path used_attr with_used token entry mode_of).
Abbreviation pool_of := (engine_pool used_attr token mode_of).

Lemma fresh_with s : fresh s = with_used (Some (used s)) s.
Proof.
  pose proof (with_same s) as Hs. unfold materialise, engine_used.
  destruct (used_attr s); [|done]. symmetry. exact Hs.
Qed.

(** "Random" mode hands the selector back as it got it, whatever happens. *)
Lemma random_mode_self elig a b x y (w w' : world S) o :
  random_mode elig a b x y w = (w', o) → self w' = self w.
Proof.
  intros Hrun. destruct (frame (self w)) as [df|] eqn:Hdf.
  - destruct (Z.lt_ge_cases b a) as [Hab|Hab].
    { destruct (engine_random_invalid frame path entry elig a b x y w df Hdf
                  (or_introl Hab)) as [k Hk]. congruence. }
    destruct (Qlt_le_dec y x) as [Hxy|Hxy].
    { destruct (engine_random_invalid frame path entry elig a b x y w df Hdf
                  (or_intror Hxy)) as [k Hk]. congruence. }
    destruct (engine_random_valid frame path entry elig a b x y w df Hdf
                ltac:(lia) Hxy)
      as [[_ H]|(_ & k & _ & [[_ H]|(_ & rows & ws & t & _ & _ & _ & _ & H)])];
      cbv zeta in H; rewrite H in Hrun; by injection Hrun as <- _.
  - unfold engine_random, engine_loaded in Hrun.
    rewrite bind_assoc, bind_gets, Hdf in Hrun. by injection Hrun as <- _.
Qed.

(** "Only" mode changes nothing of the selector but the used-set. *)
Lemma only_mode_self elig a b x y (w w' : world S) o :
  only_mode elig a b x y w = (w', o) →
  ∃ u, self w' = with_used (Some u) (self w).
Proof.
  intros Hrun. destruct (frame (self w)) as [df|] eqn:Hdf.
  - by destruct (only_step frame path used_attr with_used token entry
      mode_of token_of weight_of token_entry weight_entry
      used_with frame_with path_with with_with with_same mode_with
      elig a b x y w w' o df Hdf Hrun) as [Hu _].
  - unfold engine_only, engine_loaded in Hrun.
    rewrite bind_modify, bind_assoc, bind_gets in Hrun. cbn in Hrun.
    rewrite frame_fresh, Hdf in Hrun by done. injection Hrun as <- _.
    cbn. rewrite fresh_with. by eexists.
Qed.

Lemma select_self elig a b x y (w w' : world S) o :
  select elig a b x y w = (w', o) →
  self w' = self w ∨ ∃ u, self w' = with_used (Some u) (self w).
Proof.
  intros Hrun.
  destruct (decide (mode_of (self w) = Some "random")) as [Hr|Hr].
  { rewrite select_random in Hrun by done. left.
    by eapply random_mode_self. }
  destruct (decide (mode_of (self w) = Some "only")) as [Ho|Ho].
  { rewrite select_only in Hrun by done. right.
    by eapply only_mode_self. }
  destruct (select_other frame path used_attr with_used token entry mode_of
              elig a b x y w Hr Ho) as (e & He & _).
  left. rewrite He in Hrun. by injection Hrun as <- _.
Qed.

(** "Random" mode looks at the dataset and the path, at nothing else. *)
Lemma random_mode_blind elig a b x y :
  blind_on (λ s s0, frame s = frame s0 ∧ path s = path s0)
    (random_mode elig a b x y).
Proof.
  assert (Reflexive (λ s s0 : S, frame s = frame s0 ∧ path s = path s0))
    by (by intros s).
  unfold engine_random, engine_loaded.
  repeat first
    [ apply blind_bind | apply blind_ret | apply blind_raise
    | apply blind_randint | apply blind_sample | apply blind_uniform
    | apply blind_print | apply blind_for_each
    | apply blind_gets; by intros ?? [??]
    | done | progress intros | case_match ].
Qed.

(** When nothing eligible is unused, though something is eligible, the call
    does what it would do on a used-set emptied beforehand, after the
    notice. *)
Lemma only_mode_auto_reset elig a b x y (w : world S) df :
  frame (self w) = Some df → a ≤ b → (x <= y)%Q →
  elig df ≠ [] → unused (used (self w)) (elig df) = [] →
  only_mode elig a b x y w =
  only_mode elig a b x y
    (World (with_used (Some ∅) (self w)) (rng w)
       (stdout w ++ [ResetNotice (path (self w))])).
Proof.
  intros Hdf Hab Hxy Hsome Hnone. unfold engine_only.
  rewrite !bind_modify. cbn [self rng stdout].
  rewrite !(loaded_run frame _ df)
    by (cbn; by rewrite ?frame_fresh, ?frame_with).
  destruct (Z.gtb_spec a b); [lia|]. rewrite (Qgtb_false x y Hxy).
  rewrite !bind_gets. cbn [self rng stdout].
  rewrite (used_fresh used_attr with_used used_with (self w)).
  rewrite (path_fresh path used_attr with_used path_with (self w)).
  rewrite Hnone.
  rewrite bind_assoc, bind_modify, bind_assoc, bind_print, bind_ret.
  cbn [self rng stdout].
  assert (fresh (with_used (Some ∅) (self w)) = with_used (Some ∅) (self w))
    as Hf by (unfold materialise; by rewrite used_with).
  rewrite Hf, (fresh_with (self w)), with_with, path_with.
  rewrite (used_set used_attr with_used used_with).
  rewrite unused_of_empty.
  destruct (elig df) as [|r rows] eqn:Hall; [done|].
  by rewrite bind_ret.
Qed.

(** On an emptied used-set the call does what it does on an object that
    never had one. *)
Lemma only_mode_reset_fresh elig a b x y (s : S) t out :
  only_mode elig a b x y (World (with_used (Some ∅) s) t out) =
  only_mode elig a b x y (World (with_used None s) t out).
Proof.
  unfold engine_only. rewrite !bind_modify. cbn [self rng stdout].
  unfold materialise. rewrite !used_with. by rewrite with_with.
Qed.

(** A call with ranges in order, a count that cannot be negative and
    something eligible returns. *)
Lemma select_succeeds elig a b x y (w : world S) df :
  frame (self w) = Some df →
  mode_of (self w) = Some "random" ∨ mode_of (self w) = Some "only" →
  a ≤ b → (x <= y)%Q → 0 ≤ a → elig df ≠ [] →
  ∃ w' res, select elig a b x y w = (w', Returned res).
Proof.
  intros Hdf [Hm|Hm] Hab Hxy Ha Hsome.
  - rewrite select_random by done.
    destruct (engine_random_valid frame path entry elig a b x y w df Hdf
                Hab Hxy)
      as [[Hnone _]|(_ & k & Hk & [[Hn _]|(_ & rows & ws & t & _ & _ & _ & _ & H)])];
      cbv zeta in *; [done|lia|by eexists _, _].
  - rewrite select_only by done.
    destruct (engine_only_valid frame path used_attr with_used token entry
                used_with frame_with path_with with_with with_same
                elig a b x y w df Hdf Hab Hxy)
      as [[Hnone _]|(_ & k & Hk & [[Hn _]|(_ & rows & ws & t & _ & _ & _ & _ & H)])];
      cbv zeta in *; [|lia|by eexists _, _].
    destruct (bool_decide _) eqn:E; [done|].
    by apply bool_decide_eq_false in E.
Qed.

(** A call with ranges in order, a largest count below zero and something
    eligible fails in the sample, one draw after the start. *)
Lemma select_negative elig a b x y (w : world S) df :
  frame (self w) = Some df →
  mode_of (self w) = Some "random" ∨ mode_of (self w) = Some "only" →
  a ≤ b → (x <= y)%Q → b < 0 → elig df ≠ [] →
  ∃ w', select elig a b x y w = (w', Raised SampleSizeError) ∧
        rng w' = tl (rng w).
Proof.
  intros Hdf [Hm|Hm] Hab Hxy Hb Hsome.
  - rewrite select_random by done.
    destruct (engine_random_valid frame path entry elig a b x y w df Hdf
                Hab Hxy)
      as [[Hnone _]|(_ & k & Hk & [[Hn H]|(Hn & _)])];
      cbv zeta in *; [done| |lia]. by eexists.
  - rewrite select_only by done.
    destruct (engine_only_valid frame path used_attr with_used token entry
                used_with frame_with path_with with_with with_same
                elig a b x y w df Hdf Hab Hxy)
      as [[Hnone _]|(_ & k & Hk & [[Hn H]|(Hn & _)])];
      cbv zeta in *; [| |lia].
    + destruct (bool_decide _) eqn:E; [done|].
      by apply bool_decide_eq_false in E.
    + by eexists.
Qed.

(** Outside "only" mode a call hands the selector back as it got it. *)
Lemma select_self_not_only elig a b x y (w w' : world S) o :
  mode_of (self w) ≠ Some "only" →
  select elig a b x y w = (w', o) → self w' = self w.
Proof.
  intros Ho Hrun.
  destruct (decide (mode_of (self w) = Some "random")) as [Hr|Hr].
  { rewrite select_random in Hrun by done. by eapply random_mode_self. }
  destruct (select_other frame path used_attr with_used token entry mode_of
              elig a b x y w Hr Ho) as (e & He & _).
  rewrite He in Hrun. by injection Hrun as <- _.
Qed.

(** The mode is looked up before anything else. *)
Lemma select_mode_missing elig a b x y (w : world S) :
  mode_of (self w) = None →
  select elig a b x y w = (w, Raised (KeyError "mode")).
Proof.
  intros Hm. unfold engine_select. rewrite bind_gets, Hm. by destruct w.
Qed.

Lemma select_mode_unknown elig a b x y (w : world S) m :
  mode_of (self w) = Some m → m ≠ "random" → m ≠ "only" →
  select elig a b x y w = (w, Raised InvalidModeError).
Proof.
  intros Hm Hr Ho. unfold engine_select. rewrite bind_gets, Hm.
  rewrite !decide_False by done. by destruct w.
Qed.

(** Without a dataset both modes stop at the first test; "only" mode has
    made the used-set by then. *)
Lemma select_not_loaded elig a b x y (w : world S) :
  frame (self w) = None →
  (mode_of (self w) = Some "random" →
     select elig a b x y w = (w, Raised NotLoadedError)) ∧
  (mode_of (self w) = Some "only" →
     select elig a b x y w =
       (World (fresh (self w)) (rng w) (stdout w), Raised NotLoadedError)).
Proof.
  intros Hdf. split; intros Hm.
  - rewrite select_random by done. unfold engine_random, engine_loaded.
    rewrite bind_assoc, bind_gets, Hdf. by destruct w.
  - rewrite select_only by done. unfold engine_only, engine_loaded.
    rewrite bind_modify, bind_assoc, bind_gets. cbn [self rng stdout].
    by rewrite frame_fresh, Hdf.
Qed.

(** With a dataset a call never reports that there is none. *)
Lemma select_loaded elig a b x y (w w' : world S) e df :
  frame (self w) = Some df →
  select elig a b x y w = (w', Raised e) → e ≠ NotLoadedError.
Proof.
  intros Hdf Hrun.
  destruct (mode_of (self w)) as [m|] eqn:Hm;
    [|rewrite select_mode_missing in Hrun by done; by injection Hrun as _ <-].
  destruct (decide (m = "random")) as [->|Hr]; last
    destruct (decide (m = "only")) as [->|Ho]; last first.
  { rewrite (select_mode_unknown _ _ _ _ _ _ m) in Hrun by done.
    by simplify_eq. }
  - rewrite select_only in Hrun by done.
    destruct (Z.lt_ge_cases b a) as [Hab|Hab].
    { destruct (engine_only_invalid frame path used_attr with_used token
                  entry frame_with elig a b x y w df Hdf (or_introl Hab))
        as [k Hk]. rewrite Hk in Hrun. by simplify_eq. }
    destruct (Qlt_le_dec y x) as [Hxy|Hxy].
    { destruct (engine_only_invalid frame path used_attr with_used token
                  entry frame_with elig a b x y w df Hdf (or_intror Hxy))
        as [k Hk]. rewrite Hk in Hrun. by simplify_eq. }
    destruct (engine_only_valid frame path used_attr with_used token entry
                used_with frame_with path_with with_with with_same
                elig a b x y w df Hdf ltac:(lia) Hxy)
      as [[_ H]|(_ & k & _ & [[_ H]|(_ & rows & ws & t & _ & _ & _ & _ & H)])];
      cbv zeta in H; rewrite H in Hrun; by simplify_eq.
  - rewrite select_random in Hrun by done.
    destruct (Z.lt_ge_cases b a) as [Hab|Hab].
    { destruct (engine_random_invalid frame path entry elig a b x y w df Hdf
                  (or_introl Hab)) as [k Hk].
      rewrite Hk in Hrun. by simplify_eq. }
    destruct (Qlt_le_dec y x) as [Hxy|Hxy].
    { destruct (engine_random_invalid frame path entry elig a b x y w df Hdf
                  (or_intror Hxy)) as [k Hk].
      rewrite Hk in Hrun. by simplify_eq. }
    destruct (engine_random_valid frame path entry elig a b x y w df Hdf
                ltac:(lia) Hxy)
      as [[_ H]|(_ & k & _ & [[_ H]|(_ & rows & ws & t & _ & _ & _ & _ & H)])];
      cbv zeta in H; rewrite H in Hrun; by simplify_eq.
Qed.

(** In "random" mode, with ranges in order, the call reports that nothing
    is eligible exactly when nothing is, and has touched nothing by then. *)
Lemma random_no_eligible elig a b x y (w : world S) df :
  frame (self w) = Some df → a ≤ b → (x <= y)%Q →
  (elig df = [] →
     random_mode elig a b x y w = (w, Raised NoEligibleRecordsError)) ∧
  (∀ w', random_mode elig a b x y w = (w', Raised NoEligibleRecordsError) →
     elig df = []).
Proof.
  intros Hdf Hab Hxy.
  destruct (engine_random_valid frame path entry elig a b x y w df Hdf
              Hab Hxy)
    as [[Hnone H]|(Hsome & k & _ & [[_ H]|(_ & rows & ws & t & _ & _ & _ & _ & H)])];
    cbv zeta in *; rewrite H; split; try done.
Qed.

(** What a successful call has printed when it returns. *)
Lemma select_report elig a b x y (w w' : world S) res df :
  frame (self w) = Some df →
  select elig a b x y w = (w', Returned res) →
  (mode_of (self w) = Some "random" ∧
   stdout w' = stdout w ++
     [RandomReport (path (self w)) (Z.of_nat (length df))
        (Z.of_nat (length (elig df))) (Z.of_nat (length res))])
  ∨ (mode_of (self w) = Some "only" ∧
     stdout w' = stdout w ++
       (if bool_decide (unused (used (self w)) (elig df) = [])
        then [ResetNotice (path (self w))] else []) ++
       [OnlyReport (path (self w)) (Z.of_nat (length df))
          (Z.of_nat (length (elig df)))
          (Z.of_nat (length (pool_of elig (self w) df)))
          (Z.of_nat (size (used (self w')))) (Z.of_nat (length res))]).
Proof.
  intros Hdf Hrun.
  destruct (select_returned frame path used_attr with_used token entry
              mode_of used_with frame_with path_with with_with with_same
              elig a b x y w w' res df Hdf Hrun) as (Hab & Hxy & _).
  destruct (decide (mode_of (self w) = Some "random")) as [Hr|Hr].
  { left. split; [done|]. rewrite select_random in Hrun by done.
    destruct (engine_random_valid frame path entry elig a b x y w df Hdf
                Hab Hxy)
      as [[_ H]|(_ & k & _ & [[_ H]|(Hn & rows & ws & t & _ & Hl & Hw & _ & H)])];
      cbv zeta in *; rewrite H in Hrun; [done..|].
    injection Hrun as <- <-. cbn [stdout].
    rewrite length_zip_with, Hw, Nat.min_id, Hl, Z2Nat.id by done. done. }
  destruct (decide (mode_of (self w) = Some "only")) as [Ho|Ho]; last first.
  { destruct (select_other frame path used_attr with_used token entry mode_of
                elig a b x y w Hr Ho) as (e & He & _). congruence. }
  right. split; [done|]. rewrite select_only in Hrun by done.
  rewrite pool_only by done.
  destruct (engine_only_valid frame path used_attr with_used token entry
              used_with frame_with path_with with_with with_same
              elig a b x y w df Hdf Hab Hxy)
    as [[_ H]|(_ & k & _ & [[_ H]|(Hn & rows & ws & t & _ & Hl & Hw & _ & H)])];
    cbv zeta in *; rewrite H in Hrun; [done..|].
  injection Hrun as <- <-. cbn [stdout self].
  rewrite (used_set used_attr with_used used_with).
  rewrite length_zip_with, Hw, Nat.min_id, Hl, Z2Nat.id by done.
  destruct (bool_decide _); by rewrite <- ?app_assoc.
Qed.

End EngineMore.

(** * Further properties of the two selectors *)

(** ** What a call leaves alone *)

(** X1: a call in "random" mode, whatever it returns or raises, hands the
    selector object back exactly as it was: dataset, configuration, path
    and used-set. *)
Theorem random_mode_leaves_selector :
  (∀ q (w w' : world ArtistSelector.t) o,
     ArtistSelector.cfg_mode (ArtistSelector.config (self w)) = Some "random" →
     ArtistSelector.select q w = (w', o) → self w' = self w) ∧
  (∀ q (w w' : world CharacterSelector.t) o,
     CharacterSelector.cfg_mode (CharacterSelector.config (self w)) =
       Some "random" →
     CharacterSelector.select q w = (w', o) → self w' = self w).
Proof.
  split.
  - intros q w w' o Hm Hrun.
    rewrite artist_select_engine, select_random in Hrun by done.
    eapply random_mode_self; first [exact Hrun | field_laws].
  - intros q w w' o Hm Hrun.
    rewrite character_select_engine, select_random in Hrun by done.
    eapply random_mode_self; first [exact Hrun | field_laws].
Qed.

(** X1 at the five artists with one token used, and at the five characters
    asked for a copyright that is not there. *)
Lemma random_mode_leaves_selector_witness :
  (∃ w' res,
     ArtistSelector.select Fixture.artist_defaults
       (Fixture.artist_world "random" Fixture.artists (Some {["ann"]})) =
       (w', Returned res) ∧
     self w' = Fixture.artist_selector "random" Fixture.artists
                 (Some {["ann"]})) ∧
  (∃ w',
     CharacterSelector.select Fixture.unknown_copyright
       (Fixture.character_world "random" Fixture.characters None) =
       (w', Raised NoEligibleRecordsError) ∧
     self w' = Fixture.character_selector "random" Fixture.characters None).
Proof.
  split.
  - eexists _, _. split; [vm_compute; reflexivity|].
    exact (proj1 random_mode_leaves_selector Fixture.artist_defaults
      (Fixture.artist_world "random" Fixture.artists (Some {["ann"]})) _ _
      eq_refl eq_refl).
  - eexists. split; [vm_compute; reflexivity|].
    exact (proj2 random_mode_leaves_selector Fixture.unknown_copyright
      (Fixture.character_world "random" Fixture.characters None) _ _
      eq_refl eq_refl).
Defined.

(** X2: a call in "random" mode does not look at the used-set: from two
    selectors that differ in nothing but their used-set (or in having one),
    with the same random source and output, it returns or raises the same,
    draws the same and prints the same. *)
Theorem random_mode_ignores_used_set :
  (∀ q (s : ArtistSelector.t) u1 u2 t out,
     ArtistSelector.cfg_mode (ArtistSelector.config s) = Some "random" →
     ∀ w1 o1 w2 o2,
       ArtistSelector.select q (World (ArtistSelector.set_used u1 s) t out) =
         (w1, o1) →
       ArtistSelector.select q (World (ArtistSelector.set_used u2 s) t out) =
         (w2, o2) →
       o1 = o2 ∧ rng w1 = rng w2 ∧ stdout w1 = stdout w2) ∧
  (∀ q (s : CharacterSelector.t) u1 u2 t out,
     CharacterSelector.cfg_mode (CharacterSelector.config s) = Some "random" →
     ∀ w1 o1 w2 o2,
       CharacterSelector.select q
         (World (CharacterSelector.set_used u1 s) t out) = (w1, o1) →
       CharacterSelector.select q
         (World (CharacterSelector.set_used u2 s) t out) = (w2, o2) →
       o1 = o2 ∧ rng w1 = rng w2 ∧ stdout w1 = stdout w2).
Proof.
  split.
  - intros q s u1 u2 t out Hm w1 o1 w2 o2 H1 H2.
    rewrite artist_select_engine, select_random in H1, H2 by done.
    cbn [self] in H1, H2.
    erewrite (random_mode_blind ArtistSelector.artists_df
                ArtistSelector.csv_path _ _ _ _ _ _
                (ArtistSelector.set_used u1 s) (ArtistSelector.set_used u2 s))
      in H1 by done.
    change (ArtistSelector.min_works q (ArtistSelector.set_used u1 s))
      with (ArtistSelector.min_works q (ArtistSelector.set_used u2 s)) in H1.
    change (ArtistSelector.min_count q (ArtistSelector.set_used u1 s))
      with (ArtistSelector.min_count q (ArtistSelector.set_used u2 s)) in H1.
    change (ArtistSelector.max_count q (ArtistSelector.set_used u1 s))
      with (ArtistSelector.max_count q (ArtistSelector.set_used u2 s)) in H1.
    change (ArtistSelector.min_weight q (ArtistSelector.set_used u1 s))
      with (ArtistSelector.min_weight q (ArtistSelector.set_used u2 s)) in H1.
    change (ArtistSelector.max_weight q (ArtistSelector.set_used u1 s))
      with (ArtistSelector.max_weight q (ArtistSelector.set_used u2 s)) in H1.
    rewrite H2 in H1. unfold relabel in H1. cbn in H1.
    by injection H1 as <- <-.
  - intros q s u1 u2 t out Hm w1 o1 w2 o2 H1 H2.
    rewrite character_select_engine, select_random in H1, H2 by done.
    cbn [self] in H1, H2.
    erewrite (random_mode_blind CharacterSelector.characters_df
                CharacterSelector.csv_path _ _ _ _ _ _
                (CharacterSelector.set_used u1 s)
                (CharacterSelector.set_used u2 s))
      in H1 by done.
    change (CharacterSelector.min_total_works q
              (CharacterSelector.set_used u1 s))
      with (CharacterSelector.min_total_works q
              (CharacterSelector.set_used u2 s)) in H1.
    change (CharacterSelector.min_solo_works q
              (CharacterSelector.set_used u1 s))
      with (CharacterSelector.min_solo_works q
              (CharacterSelector.set_used u2 s)) in H1.
    change (CharacterSelector.min_count q (CharacterSelector.set_used u1 s))
      with (CharacterSelector.min_count q (CharacterSelector.set_used u2 s))
      in H1.
    change (CharacterSelector.max_count q (CharacterSelector.set_used u1 s))
      with (CharacterSelector.max_count q (CharacterSelector.set_used u2 s))
      in H1.
    change (CharacterSelector.min_weight q (CharacterSelector.set_used u1 s))
      with (CharacterSelector.min_weight q (CharacterSelector.set_used u2 s))
      in H1.
    change (CharacterSelector.max_weight q (CharacterSelector.set_used u1 s))
      with (CharacterSelector.max_weight q (CharacterSelector.set_used u2 s))
      in H1.
    rewrite H2 in H1. unfold relabel in H1. cbn in H1.
    by injection H1 as <- <-.
Qed.

(** X2 at the five artists: no used-set against two tokens used. *)
Lemma random_mode_ignores_used_set_witness :
  let r1 := ArtistSelector.select Fixture.artist_defaults
              (Fixture.artist_world "random" Fixture.artists None) in
  let r2 := ArtistSelector.select Fixture.artist_defaults
              (Fixture.artist_world "random" Fixture.artists
                 (Some {["ann"; "dee"]})) in
  r1.2 = r2.2 ∧ rng r1.1 = rng r2.1 ∧ stdout r1.1 = stdout r2.1.
Proof.
  exact (proj1 random_mode_ignores_used_set Fixture.artist_defaults
    (Fixture.artist_selector "random" Fixture.artists None)
    None (Some {["ann"; "dee"]}) Fixture.draws [] eq_refl _ _ _ _
    (surjective_pairing _) (surjective_pairing _)).
Defined.

(** X3: whatever the mode and whatever the outcome, a call leaves the
    dataset, the configuration and the path of the selector as they were:
    the used-set is the only thing of the object it may write. *)
Theorem select_keeps_dataset_and_config :
  (∀ q (w w' : world ArtistSelector.t) o,
     ArtistSelector.select q w = (w', o) →
     ArtistSelector.artists_df (self w') = ArtistSelector.artists_df (self w) ∧
     ArtistSelector.config (self w') = ArtistSelector.config (self w) ∧
     ArtistSelector.csv_path (self w') = ArtistSelector.csv_path (self w)) ∧
  (∀ q (w w' : world CharacterSelector.t) o,
     CharacterSelector.select q w = (w', o) →
     CharacterSelector.characters_df (self w') =
       CharacterSelector.characters_df (self w) ∧
     CharacterSelector.config (self w') = CharacterSelector.config (self w) ∧
     CharacterSelector.csv_path (self w') =
       CharacterSelector.csv_path (self w)).
Proof.
  split.
  - intros q w w' o Hrun. rewrite artist_select_engine in Hrun.
    eapply (select_self _ _ _ _ _ _ _ fst snd) in Hrun;
      [|field_laws..].
    by destruct Hrun as [->|[u ->]].
  - intros q w w' o Hrun. rewrite character_select_engine in Hrun.
    eapply (select_self _ _ _ _ _ _ _ (λ e, e.1.1) (λ e, e.1.2)) in Hrun;
      [|field_laws..].
    by destruct Hrun as [->|[u ->]].
Qed.

(** X3 at a call in "only" mode that marks two artists. *)
Lemma select_keeps_dataset_and_config_witness :
  ∃ w' res,
    ArtistSelector.select Fixture.artist_defaults
      (Fixture.artist_world "only" Fixture.artists None) = (w', Returned res) ∧
    ArtistSelector.used (self w') ≠ ∅ ∧
    ArtistSelector.artists_df (self w') = Some Fixture.artists ∧
    ArtistSelector.config (self w') = Fixture.artist_settings "only" ∧
    ArtistSelector.csv_path (self w') = "artists.csv".
Proof.
  eexists _, _. split; [vm_compute; reflexivity|].
  split; [by vm_compute|].
  exact (proj1 select_keeps_dataset_and_config Fixture.artist_defaults
    (Fixture.artist_world "only" Fixture.artists None) _ _ eq_refl).
Defined.

(** ** The used-set and the dataset *)

Lemma size_list_to_set_le (l : list string) :
  (size (list_to_set l : gset string) ≤ length l)%nat.
Proof.
  induction l as [|x l IH]; [cbn; rewrite size_empty; lia|].
  cbn [list_to_set length]. rewrite size_union_alt, size_singleton.
  pose proof (subseteq_size (list_to_set l ∖ {[x]}) (list_to_set l : gset string)
                ltac:(set_solver)).
  lia.
Qed.

Lemma artist_eligible_elem m df r :
  r ∈ ArtistSelector.eligible m df ↔ r ∈ df ∧ m ≤ ArtistSelector.count r.
Proof. unfold ArtistSelector.eligible. rewrite list_elem_of_filter. tauto. Qed.

Lemma character_eligible_elem m n f df r :
  r ∈ CharacterSelector.eligible m n f df ↔
  r ∈ df ∧ m ≤ CharacterSelector.count r ∧
  n ≤ CharacterSelector.solo_count r ∧
  match f with
  | Some (c :: cs) => CharacterSelector.copyright r ∈ c :: cs
  | _ => True
  end.
Proof.
  unfold CharacterSelector.eligible.
  destruct f as [[|c cs]|]; rewrite ?list_elem_of_filter; tauto.
Qed.

Lemma artist_select_entries q (w w' : world ArtistSelector.t) res df :
  ArtistSelector.artists_df (self w) = Some df →
  ArtistSelector.select q w = (w', Returned res) →
  ∃ rows ws, rows ⊆+ ArtistSelector.pool q (self w) df ∧
    res = zip_with (λ r x, (ArtistSelector.trigger r, x)) rows ws.
Proof.
  intros Hdf Hrun. rewrite artist_select_engine in Hrun.
  eapply (select_returned _ _ ArtistSelector._used_artists) in Hrun
    as (_ & _ & k & rows & ws & _ & _ & Hsub & _ & _ & _ & ->);
    [|field_laws..].
  by exists rows, ws.
Qed.

Lemma character_select_entries q (w w' : world CharacterSelector.t) res df :
  CharacterSelector.characters_df (self w) = Some df →
  CharacterSelector.select q w = (w', Returned res) →
  ∃ rows ws, rows ⊆+ CharacterSelector.pool q (self w) df ∧
    res = zip_with (λ r x, (CharacterSelector.trigger r, x,
                            CharacterSelector.core_tags r)) rows ws.
Proof.
  intros Hdf Hrun. rewrite character_select_engine in Hrun.
  eapply (select_returned _ _ CharacterSelector._used_characters) in Hrun
    as (_ & _ & k & rows & ws & _ & _ & Hsub & _ & _ & _ & ->);
    [|field_laws..].
  by exists rows, ws.
Qed.

Lemma artist_select_self q (w w' : world ArtistSelector.t) o :
  ArtistSelector.select q w = (w', o) →
  ∃ u, self w' = ArtistSelector.set_used u (self w).
Proof.
  intros Hrun. rewrite artist_select_engine in Hrun.
  eapply (select_self _ _ _ _ _ _ _ fst snd) in Hrun; [|field_laws..].
  destruct Hrun as [->|[u ->]]; [|by eexists].
  exists (ArtistSelector._used_artists (self w)). by destruct (self w).
Qed.

Lemma character_select_self q (w w' : world CharacterSelector.t) o :
  CharacterSelector.select q w = (w', o) →
  ∃ u, self w' = CharacterSelector.set_used u (self w).
Proof.
  intros Hrun. rewrite character_select_engine in Hrun.
  eapply (select_self _ _ _ _ _ _ _ (λ e, e.1.1) (λ e, e.1.2)) in Hrun;
    [|field_laws..].
  destruct Hrun as [->|[u ->]]; [|by eexists].
  exists (CharacterSelector._used_characters (self w)). by destruct (self w).
Qed.

Lemma artist_step_within df q (w w' : world ArtistSelector.t) o :
  ArtistSelector.artists_df (self w) = Some df →
  ArtistSelector.select q w = (w', o) →
  ArtistSelector.artists_df (self w') = Some df ∧
  ArtistSelector.used (self w') ⊆
    ArtistSelector.used (self w) ∪
    list_to_set (ArtistSelector.trigger <$> df).
Proof.
  intros Hdf Hrun. split.
  { destruct (artist_select_self q w w' o Hrun) as [u ->]. exact Hdf. }
  destruct (decide (ArtistSelector.cfg_mode (ArtistSelector.config (self w)) =
                      Some "only")) as [Hm|Hm].
  - destruct (artist_only_step q w w' o df Hdf Hm Hrun) as (_ & _ & Hsub & _).
    etrans; [exact Hsub|]. apply union_mono_l.
    destruct o as [e|res]; [set_solver|]. cbn [returned_tokens].
    destruct (artist_select_returned q w w' res df Hdf Hrun)
      as (_ & _ & k & rows & _ & Hrows & _ & -> & _).
    intros tok [r [-> Hr]]%elem_of_list_to_set%list_elem_of_fmap.
    apply elem_of_list_to_set, list_elem_of_fmap. exists r. split; [done|].
    eapply elem_of_submseteq in Hr; [|exact Hrows].
    eapply elem_of_submseteq in Hr; [|apply artist_pool_submseteq].
    by apply artist_eligible_elem in Hr as [? _].
  - rewrite artist_select_engine in Hrun.
    eapply select_self_not_only in Hrun; [|done]. rewrite Hrun. set_solver.
Qed.

Lemma character_step_within df q (w w' : world CharacterSelector.t) o :
  CharacterSelector.characters_df (self w) = Some df →
  CharacterSelector.select q w = (w', o) →
  CharacterSelector.characters_df (self w') = Some df ∧
  CharacterSelector.used (self w') ⊆
    CharacterSelector.used (self w) ∪
    list_to_set (CharacterSelector.trigger <$> df).
Proof.
  intros Hdf Hrun. split.
  { destruct (character_select_self q w w' o Hrun) as [u ->]. exact Hdf. }
  destruct (decide (CharacterSelector.cfg_mode
                      (CharacterSelector.config (self w)) = Some "only"))
    as [Hm|Hm].
  - destruct (character_only_step q w w' o df Hdf Hm Hrun)
      as (_ & _ & Hsub & _).
    etrans; [exact Hsub|]. apply union_mono_l.
    destruct o as [e|res]; [set_solver|]. cbn [returned_tokens].
    destruct (character_select_returned q w w' res df Hdf Hrun)
      as (_ & _ & k & rows & _ & Hrows & _ & -> & _).
    intros tok [r [-> Hr]]%elem_of_list_to_set%list_elem_of_fmap.
    apply elem_of_list_to_set, list_elem_of_fmap. exists r. split; [done|].
    eapply elem_of_submseteq in Hr; [|exact Hrows].
    eapply elem_of_submseteq in Hr; [|apply character_pool_submseteq].
    by apply character_eligible_elem in Hr as [? _].
  - rewrite character_select_engine in Hrun.
    eapply select_self_not_only in Hrun; [|done]. rewrite Hrun. set_solver.
Qed.

(** X4: along any sequence of calls on one selector, in any mix of
    outcomes, the used-set never holds anything but triggers of the
    dataset (given that it started so, as an object that has no used-set
    yet does), and so never holds more tokens than the dataset has rows. *)
Theorem used_set_within_dataset :
  (∀ qs (w : world ArtistSelector.t) df m wm om wm',
     ArtistSelector.artists_df (self w) = Some df →
     ArtistSelector.used (self w) ⊆
       list_to_set (ArtistSelector.trigger <$> df) →
     trace ArtistSelector.select qs w !! m = Some (wm, om, wm') →
     ArtistSelector.used (self wm') ⊆
       list_to_set (ArtistSelector.trigger <$> df) ∧
     (size (ArtistSelector.used (self wm')) ≤ length df)%nat) ∧
  (∀ qs (w : world CharacterSelector.t) df m wm om wm',
     CharacterSelector.characters_df (self w) = Some df →
     CharacterSelector.used (self w) ⊆
       list_to_set (CharacterSelector.trigger <$> df) →
     trace CharacterSelector.select qs w !! m = Some (wm, om, wm') →
     CharacterSelector.used (self wm') ⊆
       list_to_set (CharacterSelector.trigger <$> df) ∧
     (size (CharacterSelector.used (self wm')) ≤ length df)%nat).
Proof.
  split.
  - intros qs w df m wm om wm' Hdf Hu Hm.
    pose (Inv := λ s : ArtistSelector.t,
            ArtistSelector.artists_df s = Some df ∧
            ArtistSelector.used s ⊆
              list_to_set (ArtistSelector.trigger <$> df)).
    assert (∀ q w w' o, Inv (self w) → ArtistSelector.select q w = (w', o) →
              Inv (self w')) as Hstep.
    { intros q v v' o [Hd Hs] Hrun.
      destruct (artist_step_within df q v v' o Hd Hrun) as [Hd' Hs'].
      split; [done|]. set_solver. }
    destruct (trace_lookup ArtistSelector.select Inv Hstep qs w m wm om wm'
                (conj Hdf Hu) Hm) as (qm & _ & Hrun & Hinv).
    destruct (Hstep qm wm wm' om Hinv Hrun) as [_ Hsub].
    split; [done|]. etrans; [exact (subseteq_size _ _ Hsub)|].
    etrans; [apply size_list_to_set_le|]. by rewrite length_fmap.
  - intros qs w df m wm om wm' Hdf Hu Hm.
    pose (Inv := λ s : CharacterSelector.t,
            CharacterSelector.characters_df s = Some df ∧
            CharacterSelector.used s ⊆
              list_to_set (CharacterSelector.trigger <$> df)).
    assert (∀ q w w' o, Inv (self w) →
              CharacterSelector.select q w = (w', o) → Inv (self w'))
      as Hstep.
    { intros q v v' o [Hd Hs] Hrun.
      destruct (character_step_within df q v v' o Hd Hrun) as [Hd' Hs'].
      split; [done|]. set_solver. }
    destruct (trace_lookup CharacterSelector.select Inv Hstep qs w m wm om wm'
                (conj Hdf Hu) Hm) as (qm & _ & Hrun & Hinv).
    destruct (Hstep qm wm wm' om Hinv Hrun) as [_ Hsub].
    split; [done|]. etrans; [exact (subseteq_size _ _ Hsub)|].
    etrans; [apply size_list_to_set_le|]. by rewrite length_fmap.
Qed.

(** X4 at two calls in "only" mode on the five artists, the second of
    which starts the tokens over. *)
Lemma used_set_within_dataset_witness :
  ∃ wm om wm',
    trace ArtistSelector.select
      [Fixture.at_least_ten; Fixture.at_least_ten]
      (Fixture.artist_world "only" Fixture.artists None) !! 1%nat =
      Some (wm, om, wm') ∧
    ArtistSelector.used (self wm') ⊆
      list_to_set (ArtistSelector.trigger <$> Fixture.artists) ∧
    (size (ArtistSelector.used (self wm')) ≤ length Fixture.artists)%nat.
Proof.
  eexists _, _, _. split; [vm_compute; reflexivity|].
  eapply (proj1 used_set_within_dataset
            [Fixture.at_least_ten; Fixture.at_least_ten]
            (Fixture.artist_world "only" Fixture.artists None)
            Fixture.artists 1%nat).
  - reflexivity.
  - apply empty_subseteq.
  - vm_compute; reflexivity.
Defined.

(** ** What a result is made of *)

(** X5: every entry of a result is read off one row of the dataset that
    passes the thresholds of the call (and, for characters, its copyright
    filter): the entry carries that row's trigger and, for characters, that
    row's core tags as they are. *)
Theorem returned_entries_are_eligible_rows :
  (∀ q (w w' : world ArtistSelector.t) res df e,
     ArtistSelector.artists_df (self w) = Some df →
     ArtistSelector.select q w = (w', Returned res) → e ∈ res →
     ∃ r, r ∈ df ∧ r ∈ ArtistSelector.pool q (self w) df ∧
       ArtistSelector.min_works q (self w) ≤ ArtistSelector.count r ∧
       e.1 = ArtistSelector.trigger r) ∧
  (∀ q (w w' : world CharacterSelector.t) res df e,
     CharacterSelector.characters_df (self w) = Some df →
     CharacterSelector.select q w = (w', Returned res) → e ∈ res →
     ∃ r, r ∈ df ∧ r ∈ CharacterSelector.pool q (self w) df ∧
       CharacterSelector.min_total_works q (self w) ≤
         CharacterSelector.count r ∧
       CharacterSelector.min_solo_works q (self w) ≤
         CharacterSelector.solo_count r ∧
       match CharacterSelector.arg_copyright_filter q with
       | Some (c :: cs) => CharacterSelector.copyright r ∈ c :: cs
       | _ => True
       end ∧
       e.1.1 = CharacterSelector.trigger r ∧
       e.2 = CharacterSelector.core_tags r).
Proof.
  split.
  - intros q w w' res df e Hdf Hrun He.
    destruct (artist_select_entries q w w' res df Hdf Hrun)
      as (rows & ws & Hrows & ->).
    apply elem_of_zip_with in He as (r & x & -> & Hr & _).
    eapply elem_of_submseteq in Hr; [|exact Hrows].
    pose proof Hr as Hall.
    eapply elem_of_submseteq in Hall; [|apply artist_pool_submseteq].
    apply artist_eligible_elem in Hall as [? ?]. by exists r.
  - intros q w w' res df e Hdf Hrun He.
    destruct (character_select_entries q w w' res df Hdf Hrun)
      as (rows & ws & Hrows & ->).
    apply elem_of_zip_with in He as (r & x & -> & Hr & _).
    eapply elem_of_submseteq in Hr; [|exact Hrows].
    pose proof Hr as Hall.
    eapply elem_of_submseteq in Hall; [|apply character_pool_submseteq].
    apply character_eligible_elem in Hall as (? & ? & ? & ?). by exists r.
Qed.

(** X5 at a call for the characters of "fate": the first entry is Rin's. *)
Lemma returned_entries_are_eligible_rows_witness :
  ∃ w' e res r,
    CharacterSelector.select Fixture.fate_only
      (Fixture.character_world "random" Fixture.characters None) =
      (w', Returned (e :: res)) ∧
    r ∈ Fixture.characters ∧
    CharacterSelector.copyright r = "fate" ∧
    e.1.1 = CharacterSelector.trigger r ∧
    e.2 = CharacterSelector.core_tags r.
Proof.
  pose proof (proj2 returned_entries_are_eligible_rows Fixture.fate_only
    (Fixture.character_world "random" Fixture.characters None)) as H.
  destruct (CharacterSelector.select Fixture.fate_only
              (Fixture.character_world "random" Fixture.characters None))
    as [w' o] eqn:Hrun.
  vm_compute in Hrun. injection Hrun as <- <-.
  edestruct H as (r & Hr & _ & _ & _ & Hc & He1 & He2);
    [reflexivity|reflexivity|apply list_elem_of_here|].
  eexists _, _, _, r. split; [reflexivity|].
  split; [exact Hr|]. split; [|by split].
  cbn in Hc. by apply list_elem_of_singleton in Hc.
Defined.

(** ** Reset, explicit and automatic *)

Lemma artist_used_attr_of_exhausted q s df :
  ArtistSelector.all_eligible q s df ≠ [] →
  ArtistSelector.available q s df = [] →
  ∃ u, ArtistSelector._used_artists s = Some u.
Proof.
  intros Hsome Hnone.
  destruct (ArtistSelector._used_artists s) as [u|] eqn:Hu; [by eexists|].
  exfalso. apply Hsome. rewrite <- Hnone.
  unfold ArtistSelector.available, ArtistSelector.used. rewrite Hu. symmetry.
  exact (unused_of_empty ArtistSelector.trigger _).
Qed.

Lemma character_used_attr_of_exhausted q s df :
  CharacterSelector.all_eligible q s df ≠ [] →
  CharacterSelector.available q s df = [] →
  ∃ u, CharacterSelector._used_characters s = Some u.
Proof.
  intros Hsome Hnone.
  destruct (CharacterSelector._used_characters s) as [u|] eqn:Hu;
    [by eexists|].
  exfalso. apply Hsome. rewrite <- Hnone.
  unfold CharacterSelector.available, CharacterSelector.used.
  rewrite Hu. symmetry.
  exact (unused_of_empty CharacterSelector.trigger _).
Qed.

(** X6: the automatic reset is the explicit one.  In "only" mode, with
    ranges in order, when something is eligible but nothing of it is
    unused, a call does exactly what these three steps do: the explicit
    reset, the notice, the same call. *)
Theorem exhausted_select_is_reset_then_select :
  (∀ q (w : world ArtistSelector.t) df,
     ArtistSelector.only_ready df (self w) →
     ArtistSelector.min_count q (self w) ≤ ArtistSelector.max_count q (self w) →
     (ArtistSelector.min_weight q (self w) <=
        ArtistSelector.max_weight q (self w))%Q →
     ArtistSelector.all_eligible q (self w) df ≠ [] →
     ArtistSelector.available q (self w) df = [] →
     ArtistSelector.select q w =
     (do csv <- gets ArtistSelector.csv_path;
      do_ ArtistSelector.reset_used_artists;
      do_ print (ResetNotice csv);
      ArtistSelector.select q) w) ∧
  (∀ q (w : world CharacterSelector.t) df,
     CharacterSelector.only_ready df (self w) →
     CharacterSelector.min_count q (self w) ≤
       CharacterSelector.max_count q (self w) →
     (CharacterSelector.min_weight q (self w) <=
        CharacterSelector.max_weight q (self w))%Q →
     CharacterSelector.all_eligible q (self w) df ≠ [] →
     CharacterSelector.available q (self w) df = [] →
     CharacterSelector.select q w =
     (do csv <- gets CharacterSelector.csv_path;
      do_ CharacterSelector.reset_used_characters;
      do_ print (ResetNotice csv);
      CharacterSelector.select q) w).
Proof.
  split.
  - intros q w df [Hdf Hm] Hab Hxy Hsome Hnone.
    destruct (artist_used_attr_of_exhausted q (self w) df Hsome Hnone)
      as [u Hu].
    rewrite bind_gets. unfold ArtistSelector.reset_used_artists.
    rewrite bind_modify, bind_print. cbn [self rng stdout]. rewrite Hu.
    rewrite !artist_select_engine, !select_only by done.
    cbn [self].
    exact (only_mode_auto_reset ArtistSelector.artists_df
      ArtistSelector.csv_path ArtistSelector._used_artists
      ArtistSelector.set_used ArtistSelector.trigger
      (λ r x, (ArtistSelector.trigger r, x))
      ltac:(field_laws) ltac:(field_laws) ltac:(field_laws)
      ltac:(field_laws) ltac:(field_laws)
      (ArtistSelector.eligible (ArtistSelector.min_works q (self w)))
      _ _ _ _ w df Hdf Hab Hxy Hsome Hnone).
  - intros q w df [Hdf Hm] Hab Hxy Hsome Hnone.
    destruct (character_used_attr_of_exhausted q (self w) df Hsome Hnone)
      as [u Hu].
    rewrite bind_gets. unfold CharacterSelector.reset_used_characters.
    rewrite bind_modify, bind_print. cbn [self rng stdout]. rewrite Hu.
    rewrite !character_select_engine, !select_only by done.
    cbn [self].
    exact (only_mode_auto_reset CharacterSelector.characters_df
      CharacterSelector.csv_path CharacterSelector._used_characters
      CharacterSelector.set_used CharacterSelector.trigger
      (λ r x, (CharacterSelector.trigger r, x, CharacterSelector.core_tags r))
      ltac:(field_laws) ltac:(field_laws) ltac:(field_laws)
      ltac:(field_laws) ltac:(field_laws)
      (CharacterSelector.eligible
         (CharacterSelector.min_total_works q (self w))
         (CharacterSelector.min_solo_works q (self w))
         (CharacterSelector.arg_copyright_filter q))
      _ _ _ _ w df Hdf Hab Hxy Hsome Hnone).
Qed.

(** X6 at the two artists with ten works, both used. *)
Lemma exhausted_select_is_reset_then_select_witness :
  let w := Fixture.artist_world "only" Fixture.artists
             (Some {["ann"; "dee"]}) in
  ArtistSelector.select Fixture.at_least_ten w =
  (do csv <- gets ArtistSelector.csv_path;
   do_ ArtistSelector.reset_used_artists;
   do_ print (ResetNotice csv);
   ArtistSelector.select Fixture.at_least_ten) w.
Proof.
  intros w.
  apply (proj1 exhausted_select_is_reset_then_select Fixture.at_least_ten w
           Fixture.artists (conj eq_refl eq_refl)).
  - vm_compute. by intros [=].
  - vm_compute. by intros [=].
  - by vm_compute.
  - by vm_compute.
Defined.

(** X7: in "only" mode, a call made right after the explicit reset does
    what it would do on the same object had it never selected anything:
    same result, same draws, same output, same used-set afterwards. *)
Theorem select_after_reset_is_fresh_select :
  (∀ q (w : world ArtistSelector.t),
     ArtistSelector.cfg_mode (ArtistSelector.config (self w)) = Some "only" →
     (do_ ArtistSelector.reset_used_artists; ArtistSelector.select q) w =
     ArtistSelector.select q
       (World (ArtistSelector.set_used None (self w)) (rng w) (stdout w))) ∧
  (∀ q (w : world CharacterSelector.t),
     CharacterSelector.cfg_mode (CharacterSelector.config (self w)) =
       Some "only" →
     (do_ CharacterSelector.reset_used_characters;
      CharacterSelector.select q) w =
     CharacterSelector.select q
       (World (CharacterSelector.set_used None (self w)) (rng w) (stdout w))).
Proof.
  split.
  - intros q [[csv df cfg [u|]] t out] Hm;
      unfold ArtistSelector.reset_used_artists; rewrite bind_modify;
      [|reflexivity].
    cbn [self rng stdout ArtistSelector._used_artists].
    rewrite !artist_select_engine, !select_only by done.
    exact (only_mode_reset_fresh ArtistSelector.artists_df
      ArtistSelector.csv_path ArtistSelector._used_artists
      ArtistSelector.set_used ArtistSelector.trigger
      (λ r x, (ArtistSelector.trigger r, x))
      ltac:(field_laws) ltac:(field_laws) _ _ _ _ _
      (ArtistSelector.Make csv df cfg (Some u)) t out).
  - intros q [[csv df cfg [u|]] t out] Hm;
      unfold CharacterSelector.reset_used_characters; rewrite bind_modify;
      [|reflexivity].
    cbn [self rng stdout CharacterSelector._used_characters].
    rewrite !character_select_engine, !select_only by done.
    exact (only_mode_reset_fresh CharacterSelector.characters_df
      CharacterSelector.csv_path CharacterSelector._used_characters
      CharacterSelector.set_used CharacterSelector.trigger
      (λ r x, (CharacterSelector.trigger r, x, CharacterSelector.core_tags r))
      ltac:(field_laws) ltac:(field_laws) _ _ _ _ _
      (CharacterSelector.Make csv df cfg (Some u)) t out).
Qed.

(** X7 at the five artists with one token used. *)
Lemma select_after_reset_is_fresh_select_witness :
  (do_ ArtistSelector.reset_used_artists;
   ArtistSelector.select Fixture.artist_defaults)
    (Fixture.artist_world "only" Fixture.artists (Some {["ann"]})) =
  ArtistSelector.select Fixture.artist_defaults
    (Fixture.artist_world "only" Fixture.artists None).
Proof.
  exact (proj1 select_after_reset_is_fresh_select Fixture.artist_defaults
    (Fixture.artist_world "only" Fixture.artists (Some {["ann"]})) eq_refl).
Defined.

(** ** When a call returns and when it fails *)

Lemma artist_pool_nonempty q s df :
  ArtistSelector.all_eligible q s df ≠ [] → ArtistSelector.pool q s df ≠ [].
Proof.
  intros Hsome. unfold ArtistSelector.pool.
  destruct (decide _); [|done]. by destruct (ArtistSelector.available q s df).
Qed.

Lemma character_pool_nonempty q s df :
  CharacterSelector.all_eligible q s df ≠ [] →
  CharacterSelector.pool q s df ≠ [].
Proof.
  intros Hsome. unfold CharacterSelector.pool.
  destruct (decide _); [|done].
  by destruct (CharacterSelector.available q s df).
Qed.

(** X8: a call on a loaded selector in one of the two modes, with both
    ranges in order, a smallest count that is not negative and at least one
    record passing the thresholds, returns a result; the result is not
    empty when the smallest count is at least one. *)
Theorem select_returns_when_eligible :
  (∀ q (w : world ArtistSelector.t) df,
     ArtistSelector.artists_df (self w) = Some df →
     ArtistSelector.cfg_mode (ArtistSelector.config (self w)) = Some "random" ∨
     ArtistSelector.cfg_mode (ArtistSelector.config (self w)) = Some "only" →
     ArtistSelector.min_count q (self w) ≤ ArtistSelector.max_count q (self w) →
     (ArtistSelector.min_weight q (self w) <=
        ArtistSelector.max_weight q (self w))%Q →
     0 ≤ ArtistSelector.min_count q (self w) →
     ArtistSelector.all_eligible q (self w) df ≠ [] →
     ∃ w' res, ArtistSelector.select q w = (w', Returned res) ∧
       (1 ≤ ArtistSelector.min_count q (self w) → res ≠ [])) ∧
  (∀ q (w : world CharacterSelector.t) df,
     CharacterSelector.characters_df (self w) = Some df →
     CharacterSelector.cfg_mode (CharacterSelector.config (self w)) =
       Some "random" ∨
     CharacterSelector.cfg_mode (CharacterSelector.config (self w)) =
       Some "only" →
     CharacterSelector.min_count q (self w) ≤
       CharacterSelector.max_count q (self w) →
     (CharacterSelector.min_weight q (self w) <=
        CharacterSelector.max_weight q (self w))%Q →
     0 ≤ CharacterSelector.min_count q (self w) →
     CharacterSelector.all_eligible q (self w) df ≠ [] →
     ∃ w' res, CharacterSelector.select q w = (w', Returned res) ∧
       (1 ≤ CharacterSelector.min_count q (self w) → res ≠ [])).
Proof.
  split.
  - intros q w df Hdf Hm Hab Hxy Ha Hsome.
    assert (∃ w' res, ArtistSelector.select q w = (w', Returned res))
      as (w' & res & Hrun).
    { rewrite artist_select_engine.
      eapply select_succeeds; first [eassumption | field_laws]. }
    exists w', res. split; [done|]. intros Hone ->.
    destruct (artist_select_returned q w w' [] df Hdf Hrun)
      as (_ & _ & k & rows & Hk & _ & Hlen & _ & Hres & _).
    pose proof (artist_pool_nonempty q (self w) df Hsome) as Hpool.
    destruct (ArtistSelector.pool q (self w) df); [done|].
    cbn in Hres, Hlen. lia.
  - intros q w df Hdf Hm Hab Hxy Ha Hsome.
    assert (∃ w' res, CharacterSelector.select q w = (w', Returned res))
      as (w' & res & Hrun).
    { rewrite character_select_engine.
      eapply select_succeeds; first [eassumption | field_laws]. }
    exists w', res. split; [done|]. intros Hone ->.
    destruct (character_select_returned q w w' [] df Hdf Hrun)
      as (_ & _ & k & rows & Hk & _ & Hlen & _ & Hres & _).
    pose proof (character_pool_nonempty q (self w) df Hsome) as Hpool.
    destruct (CharacterSelector.pool q (self w) df); [done|].
    cbn in Hres, Hlen. lia.
Qed.

(** X8 at the five artists in "only" mode with every eligible token used. *)
Lemma select_returns_when_eligible_witness :
  ∃ w' res,
    ArtistSelector.select Fixture.at_least_ten
      (Fixture.artist_world "only" Fixture.artists (Some {["ann"; "dee"]})) =
      (w', Returned res) ∧
    res ≠ [].
Proof.
  destruct (proj1 select_returns_when_eligible Fixture.at_least_ten
    (Fixture.artist_world "only" Fixture.artists (Some {["ann"; "dee"]}))
    Fixture.artists eq_refl (or_intror eq_refl))
    as (w' & res & Hrun & Hres).
  - vm_compute. by intros [=].
  - vm_compute. by intros [=].
  - vm_compute. by intros [=].
  - by vm_compute.
  - exists w', res. split; [exact Hrun|]. apply Hres.
    vm_compute. by intros [=].
Defined.

(** X9: a largest count below zero makes every call fail once something is
    eligible: with ranges in order the call raises out of the sampling
    step, after one draw, whatever the random source holds. *)
Theorem select_negative_count_fails :
  (∀ q (w : world ArtistSelector.t) df,
     ArtistSelector.artists_df (self w) = Some df →
     ArtistSelector.cfg_mode (ArtistSelector.config (self w)) = Some "random" ∨
     ArtistSelector.cfg_mode (ArtistSelector.config (self w)) = Some "only" →
     ArtistSelector.min_count q (self w) ≤ ArtistSelector.max_count q (self w) →
     (ArtistSelector.min_weight q (self w) <=
        ArtistSelector.max_weight q (self w))%Q →
     ArtistSelector.max_count q (self w) < 0 →
     ArtistSelector.all_eligible q (self w) df ≠ [] →
     ∃ w', ArtistSelector.select q w = (w', Raised SampleSizeError) ∧
           rng w' = tl (rng w)) ∧
  (∀ q (w : world CharacterSelector.t) df,
     CharacterSelector.characters_df (self w) = Some df →
     CharacterSelector.cfg_mode (CharacterSelector.config (self w)) =
       Some "random" ∨
     CharacterSelector.cfg_mode (CharacterSelector.config (self w)) =
       Some "only" →
     CharacterSelector.min_count q (self w) ≤
       CharacterSelector.max_count q (self w) →
     (CharacterSelector.min_weight q (self w) <=
        CharacterSelector.max_weight q (self w))%Q →
     CharacterSelector.max_count q (self w) < 0 →
     CharacterSelector.all_eligible q (self w) df ≠ [] →
     ∃ w', CharacterSelector.select q w = (w', Raised SampleSizeError) ∧
           rng w' = tl (rng w)).
Proof.
  split.
  - intros q w df Hdf Hm Hab Hxy Hb Hsome. rewrite artist_select_engine.
    eapply select_negative; first [eassumption | field_laws].
  - intros q w df Hdf Hm Hab Hxy Hb Hsome. rewrite character_select_engine.
    eapply select_negative; first [eassumption | field_laws].
Qed.

(** X9 at a call for between -3 and -1 artists. *)
Lemma select_negative_count_fails_witness :
  ∃ w',
    ArtistSelector.select
      (ArtistSelector.Request (Some (-3)) (Some (-1)) None None None None)
      (Fixture.artist_world "random" Fixture.artists None) =
      (w', Raised SampleSizeError) ∧
    rng w' = tl Fixture.draws.
Proof.
  apply (proj1 select_negative_count_fails
    (ArtistSelector.Request (Some (-3)) (Some (-1)) None None None None)
    (Fixture.artist_world "random" Fixture.artists None)
    Fixture.artists eq_refl (or_introl eq_refl)).
  - vm_compute. by intros [=].
  - vm_compute. by intros [=].
  - reflexivity.
  - by vm_compute.
Defined.

(** X10: in "random" mode, with ranges in order, a call reports that no
    record is eligible exactly when none passes the thresholds; it has then
    drawn nothing, printed nothing and changed nothing. *)
Theorem random_no_eligible_iff :
  (∀ q (w : world ArtistSelector.t) df,
     ArtistSelector.artists_df (self w) = Some df →
     ArtistSelector.cfg_mode (ArtistSelector.config (self w)) = Some "random" →
     ArtistSelector.min_count q (self w) ≤ ArtistSelector.max_count q (self w) →
     (ArtistSelector.min_weight q (self w) <=
        ArtistSelector.max_weight q (self w))%Q →
     (ArtistSelector.all_eligible q (self w) df = [] →
        ArtistSelector.select q w = (w, Raised NoEligibleRecordsError)) ∧
     (∀ w', ArtistSelector.select q w = (w', Raised NoEligibleRecordsError) →
        ArtistSelector.all_eligible q (self w) df = [])) ∧
  (∀ q (w : world CharacterSelector.t) df,
     CharacterSelector.characters_df (self w) = Some df →
     CharacterSelector.cfg_mode (CharacterSelector.config (self w)) =
       Some "random" →
     CharacterSelector.min_count q (self w) ≤
       CharacterSelector.max_count q (self w) →
     (CharacterSelector.min_weight q (self w) <=
        CharacterSelector.max_weight q (self w))%Q →
     (CharacterSelector.all_eligible q (self w) df = [] →
        CharacterSelector.select q w = (w, Raised NoEligibleRecordsError)) ∧
     (∀ w', CharacterSelector.select q w =
              (w', Raised NoEligibleRecordsError) →
        CharacterSelector.all_eligible q (self w) df = [])).
Proof.
  split.
  - intros q w df Hdf Hm Hab Hxy.
    rewrite artist_select_engine, select_random by done.
    by eapply random_no_eligible.
  - intros q w df Hdf Hm Hab Hxy.
    rewrite character_select_engine, select_random by done.
    by eapply random_no_eligible.
Qed.

(** X10 at a copyright no character has. *)
Lemma random_no_eligible_iff_witness :
  CharacterSelector.select Fixture.unknown_copyright
    (Fixture.character_world "random" Fixture.characters (Some {["rin"]})) =
    (Fixture.character_world "random" Fixture.characters (Some {["rin"]}),
     Raised NoEligibleRecordsError).
Proof.
  apply (proj2 random_no_eligible_iff Fixture.unknown_copyright
    (Fixture.character_world "random" Fixture.characters (Some {["rin"]}))
    Fixture.characters eq_refl eq_refl).
  - vm_compute. by intros [=].
  - vm_compute. by intros [=].
  - by vm_compute.
Defined.

(** X11: the order of the first checks.  The mode is read from the
    configuration before anything else: without a ['mode'] key the call
    raises [KeyError], with a mode that is neither of the two it raises the
    invalid-mode error, and in both cases nothing has been touched, whether
    or not a dataset is loaded and whatever the ranges are.  With a valid
    mode and no dataset the call raises the not-loaded error before it looks
    at the ranges; "only" mode has by then given the object its empty
    used-set. *)
Theorem select_checks_mode_then_dataset :
  (∀ q (w : world ArtistSelector.t),
     let mode := ArtistSelector.cfg_mode (ArtistSelector.config (self w)) in
     (mode = None →
        ArtistSelector.select q w = (w, Raised (KeyError "mode"))) ∧
     (∀ m, mode = Some m → m ≠ "random" → m ≠ "only" →
        ArtistSelector.select q w = (w, Raised InvalidModeError)) ∧
     (mode = Some "random" → ArtistSelector.artists_df (self w) = None →
        ArtistSelector.select q w = (w, Raised NotLoadedError)) ∧
     (mode = Some "only" → ArtistSelector.artists_df (self w) = None →
        ArtistSelector.select q w =
          (World (ArtistSelector.set_used
                    (Some (ArtistSelector.used (self w))) (self w))
             (rng w) (stdout w),
           Raised NotLoadedError))) ∧
  (∀ q (w : world CharacterSelector.t),
     let mode :=
       CharacterSelector.cfg_mode (CharacterSelector.config (self w)) in
     (mode = None →
        CharacterSelector.select q w = (w, Raised (KeyError "mode"))) ∧
     (∀ m, mode = Some m → m ≠ "random" → m ≠ "only" →
        CharacterSelector.select q w = (w, Raised InvalidModeError)) ∧
     (mode = Some "random" →
      CharacterSelector.characters_df (self w) = None →
        CharacterSelector.select q w = (w, Raised NotLoadedError)) ∧
     (mode = Some "only" →
      CharacterSelector.characters_df (self w) = None →
        CharacterSelector.select q w =
          (World (CharacterSelector.set_used
                    (Some (CharacterSelector.used (self w))) (self w))
             (rng w) (stdout w),
           Raised NotLoadedError))).
Proof.
  split.
  - intros q w mode. rewrite artist_select_engine. split_and!.
    + intros Hm. by apply select_mode_missing.
    + intros m Hm Hr Ho. by eapply select_mode_unknown.
    + intros Hm Hdf. by eapply select_not_loaded; [field_laws|..].
    + intros Hm Hdf.
      rewrite <- (fresh_with ArtistSelector._used_artists
                    ArtistSelector.set_used ltac:(field_laws)).
      by eapply select_not_loaded; [field_laws|..].
  - intros q w mode. rewrite character_select_engine. split_and!.
    + intros Hm. by apply select_mode_missing.
    + intros m Hm Hr Ho. by eapply select_mode_unknown.
    + intros Hm Hdf. by eapply select_not_loaded; [field_laws|..].
    + intros Hm Hdf.
      rewrite <- (fresh_with CharacterSelector._used_characters
                    CharacterSelector.set_used ltac:(field_laws)).
      by eapply select_not_loaded; [field_laws|..].
Qed.

(** X11 at a selector without a mode asked for an empty range, and at one
    without a dataset in "only" mode. *)
Lemma select_checks_mode_then_dataset_witness :
  (let w := World (ArtistSelector.Make "artists.csv" None
                     (ArtistSelector.Settings 5 1 (1 # 2) (3 # 2) 5 None) None)
              Fixture.draws [] in
   ArtistSelector.select Fixture.artist_defaults w =
     (w, Raised (KeyError "mode"))) ∧
  (let w := World (ArtistSelector.Make "artists.csv" None
                     (Fixture.artist_settings "only") None)
              Fixture.draws [] in
   ArtistSelector.select Fixture.artist_defaults w =
     (World (ArtistSelector.Make "artists.csv" None
               (Fixture.artist_settings "only") (Some ∅))
        Fixture.draws [],
      Raised NotLoadedError)).
Proof.
  split.
  - intros w.
    exact (proj1 (proj1 select_checks_mode_then_dataset
                    Fixture.artist_defaults w) eq_refl).
  - intros w.
    exact (proj2 (proj2 (proj2 (proj1 select_checks_mode_then_dataset
                    Fixture.artist_defaults w))) eq_refl eq_refl).
Defined.

(** ** What a successful call prints *)

(** X12: the line a successful call prints last tells the truth about the
    call.  In "random" mode the call prints that one line: the number of
    rows of the dataset, the number of eligible ones and the length of the
    result.  In "only" mode it prints the reset notice first exactly when
    nothing eligible was unused, and then the line with, besides those
    numbers, the size of the pool drawn from and the size of the used-set
    as the call leaves it. *)
Theorem report_matches_result :
  (∀ q (w w' : world ArtistSelector.t) res df,
     ArtistSelector.artists_df (self w) = Some df →
     ArtistSelector.select q w = (w', Returned res) →
     let csv := ArtistSelector.csv_path (self w) in
     let all := ArtistSelector.all_eligible q (self w) df in
     (ArtistSelector.cfg_mode (ArtistSelector.config (self w)) =
        Some "random" ∧
      stdout w' = stdout w ++
        [RandomReport csv (Z.of_nat (length df)) (Z.of_nat (length all))
           (Z.of_nat (length res))])
     ∨ (ArtistSelector.cfg_mode (ArtistSelector.config (self w)) =
          Some "only" ∧
        stdout w' = stdout w ++
          (if bool_decide (ArtistSelector.available q (self w) df = [])
           then [ResetNotice csv] else []) ++
          [OnlyReport csv (Z.of_nat (length df)) (Z.of_nat (length all))
             (Z.of_nat (length (ArtistSelector.pool q (self w) df)))
             (Z.of_nat (size (ArtistSelector.used (self w'))))
             (Z.of_nat (length res))])) ∧
  (∀ q (w w' : world CharacterSelector.t) res df,
     CharacterSelector.characters_df (self w) = Some df →
     CharacterSelector.select q w = (w', Returned res) →
     let csv := CharacterSelector.csv_path (self w) in
     let all := CharacterSelector.all_eligible q (self w) df in
     (CharacterSelector.cfg_mode (CharacterSelector.config (self w)) =
        Some "random" ∧
      stdout w' = stdout w ++
        [RandomReport csv (Z.of_nat (length df)) (Z.of_nat (length all))
           (Z.of_nat (length res))])
     ∨ (CharacterSelector.cfg_mode (CharacterSelector.config (self w)) =
          Some "only" ∧
        stdout w' = stdout w ++
          (if bool_decide (CharacterSelector.available q (self w) df = [])
           then [ResetNotice csv] else []) ++
          [OnlyReport csv (Z.of_nat (length df)) (Z.of_nat (length all))
             (Z.of_nat (length (CharacterSelector.pool q (self w) df)))
             (Z.of_nat (size (CharacterSelector.used (self w'))))
             (Z.of_nat (length res))])).
Proof.
  split.
  - intros q w w' res df Hdf Hrun csv all.
    rewrite artist_select_engine in Hrun.
    eapply (select_report _ _ ArtistSelector._used_artists) in Hrun;
      [|first [eassumption | field_laws]..].
    exact Hrun.
  - intros q w w' res df Hdf Hrun csv all.
    rewrite character_select_engine in Hrun.
    eapply (select_report _ _ CharacterSelector._used_characters) in Hrun;
      [|first [eassumption | field_laws]..].
    exact Hrun.
Qed.

(** X12 at a call in "only" mode that finds both eligible tokens used. *)
Lemma report_matches_result_witness :
  ∃ w' res,
    ArtistSelector.select Fixture.at_least_ten
      (Fixture.artist_world "only" Fixture.artists (Some {["ann"; "dee"]})) =
      (w', Returned res) ∧
    stdout w' =
      [ResetNotice "artists.csv";
       OnlyReport "artists.csv" 5 2 2
         (Z.of_nat (size (ArtistSelector.used (self w'))))
         (Z.of_nat (length res))].
Proof.
  assert (∃ w' res,
    ArtistSelector.select Fixture.at_least_ten
      (Fixture.artist_world "only" Fixture.artists (Some {["ann"; "dee"]})) =
      (w', Returned res)) as (w' & res & Hrun).
  { eexists _, _. vm_compute; reflexivity. }
  exists w', res. split; [exact Hrun|].
  destruct (proj1 report_matches_result Fixture.at_least_ten
    (Fixture.artist_world "only" Fixture.artists (Some {["ann"; "dee"]}))
    w' res Fixture.artists eq_refl Hrun) as [[Hm _]|[_ Hout]];
    [discriminate Hm|exact Hout].
Defined.

(** ** Eligibility *)

Lemma bind_ext {S A B} (m : M S A) (f g : A → M S B) w :
  (∀ a w', f a w' = g a w') → bind m f w = bind m g w.
Proof. intros H. unfold bind. destruct (m w) as [w' [e|a]]; [done|apply H]. Qed.

Section EngineExt.
Context {S Row B : Type}.
Variable frame : S → option (list Row).
Variable path : S → string.
Variable used_attr : S → option (gset string).
Variable with_used : option (gset string) → S → S.
Variable token : Row → string.
Variable entry : Row → Q → B.
Variable mode_of : S → option string.

(** A call depends on the eligibility test through the rows it lets pass
    on the dataset at hand. *)
Lemma select_ext elig1 elig2 a b x y (w : world S) :
  (∀ df, elig1 df = elig2 df) →
  engine_select frame path used_attr with_used token entry mode_of
    elig1 a b x y w =
  engine_select frame path used_attr with_used token entry mode_of
    elig2 a b x y w.
Proof.
  intros H. unfold engine_select. apply bind_ext. intros [m|] w1; [|done].
  repeat case_decide; [| |done].
  - unfold engine_random. apply bind_ext. intros df w2. by rewrite H.
  - unfold engine_only. apply bind_ext. intros _ w2.
    apply bind_ext. intros df w3. by rewrite H.
Qed.

End EngineExt.

Lemma filter_sublist_impl {A} (P Q : A → Prop)
    `{∀ x, Decision (P x)} `{∀ x, Decision (Q x)} (l k : list A) :
  (∀ x, P x → Q x) → l `sublist_of` k →
  filter P l `sublist_of` filter Q k.
Proof.
  intros HPQ Hlk. induction Hlk as [|x l k Hlk IH|x l k Hlk IH]; [done| |].
  - destruct (decide (P x)) as [HP|HP].
    + rewrite !filter_cons_True by auto. by constructor.
    + rewrite (filter_cons_False P) by done.
      destruct (decide (Q x)).
      * rewrite filter_cons_True by done. by constructor.
      * by rewrite filter_cons_False.
  - destruct (decide (Q x)).
    + rewrite filter_cons_True by done. by constructor.
    + by rewrite filter_cons_False.
Qed.

Lemma filter_ext_elem {A} (P Q : A → Prop)
    `{∀ x, Decision (P x)} `{∀ x, Decision (Q x)} (l : list A) :
  (∀ x, P x ↔ Q x) → filter P l = filter Q l.
Proof.
  intros HPQ. induction l as [|x l IH]; [done|].
  destruct (decide (P x)) as [HP|HP].
  - rewrite !filter_cons_True by (done || by apply HPQ). by rewrite IH.
  - rewrite !filter_cons_False by (done || by rewrite <- HPQ). done.
Qed.

(** X13: what the copyright filter of a character call is.  An empty list
    is no filter: the call does what it does with the filter left out.  A
    filter matters through the names it holds, not through their order or
    their repeats: two filters with the same names give the same call. *)
Theorem copyright_filter_by_membership :
  (∀ a b x y m n md (w : world CharacterSelector.t),
     CharacterSelector.select_characters a b x y m n (Some []) md w =
     CharacterSelector.select_characters a b x y m n None md w) ∧
  (∀ a b x y m n md (f1 f2 : list string) (w : world CharacterSelector.t),
     (∀ c, c ∈ f1 ↔ c ∈ f2) →
     CharacterSelector.select_characters a b x y m n (Some f1) md w =
     CharacterSelector.select_characters a b x y m n (Some f2) md w).
Proof.
  split; [reflexivity|].
  intros a b x y m n md f1 f2 w Hf.
  change (CharacterSelector.select
            (CharacterSelector.Request a b x y m n (Some f1) md) w =
          CharacterSelector.select
            (CharacterSelector.Request a b x y m n (Some f2) md) w).
  rewrite !character_select_engine. apply select_ext. intros df.
  unfold CharacterSelector.eligible.
  cbn [CharacterSelector.arg_copyright_filter].
  destruct f1 as [|c1 f1], f2 as [|c2 f2]; [done| | |].
  - specialize (Hf c2). set_solver.
  - specialize (Hf c1). set_solver.
  - by apply filter_ext_elem.
Qed.

(** X13 at the filter "fate", "vocaloid" against the same names the other
    way round and one of them twice. *)
Lemma copyright_filter_by_membership_witness :
  CharacterSelector.select_characters None None None None None None
    (Some ["fate"; "vocaloid"]) None
    (Fixture.character_world "only" Fixture.characters None) =
  CharacterSelector.select_characters None None None None None None
    (Some ["vocaloid"; "fate"; "vocaloid"]) None
    (Fixture.character_world "only" Fixture.characters None).
Proof.
  apply (proj2 copyright_filter_by_membership None None None None None None
           None ["fate"; "vocaloid"] ["vocaloid"; "fate"; "vocaloid"]
           (Fixture.character_world "only" Fixture.characters None)).
  intros c. set_solver.
Defined.

(** X14: raising a threshold of a call, or narrowing its copyright filter,
    only removes rows from the eligible ones and keeps the others in the
    order of the dataset; the eligible rows are themselves rows of the
    dataset in its order. *)
Theorem eligible_shrinks_with_thresholds :
  (∀ m m' df,
     m ≤ m' →
     ArtistSelector.eligible m' df `sublist_of` ArtistSelector.eligible m df ∧
     ArtistSelector.eligible m df `sublist_of` df) ∧
  (∀ m m' n n' f f' df,
     m ≤ m' → n ≤ n' →
     match f, f' with
     | Some (c :: cs), Some (c' :: cs') => ∀ x, x ∈ c' :: cs' → x ∈ c :: cs
     | Some (_ :: _), _ => False
     | _, _ => True
     end →
     CharacterSelector.eligible m' n' f' df `sublist_of`
       CharacterSelector.eligible m n f df ∧
     CharacterSelector.eligible m n f df `sublist_of` df).
Proof.
  split.
  - intros m m' df Hm. split; [|apply sublist_filter].
    apply filter_sublist_impl; [|done]. intros r. lia.
  - intros m m' n n' f f' df Hm Hn Hf.
    assert (filter (λ r, m' ≤ CharacterSelector.count r ∧
                         n' ≤ CharacterSelector.solo_count r) df
            `sublist_of`
            filter (λ r, m ≤ CharacterSelector.count r ∧
                         n ≤ CharacterSelector.solo_count r) df) as Hthr.
    { apply filter_sublist_impl; [|done]. intros r. lia. }
    split; last first.
    { unfold CharacterSelector.eligible.
      destruct f as [[|c cs]|]; try apply sublist_filter.
      etrans; apply sublist_filter. }
    unfold CharacterSelector.eligible.
    destruct f as [[|c cs]|], f' as [[|c' cs']|]; cbn in Hf; try done;
      try exact (transitivity (sublist_filter _ _) Hthr).
    apply filter_sublist_impl; [|done]. intros r. apply Hf.
Qed.

(** X14 at the five characters: at least ten works and the filter "fate"
    against at least five works and no filter. *)
Lemma eligible_shrinks_with_thresholds_witness :
  CharacterSelector.eligible 10 2 (Some ["fate"]) Fixture.characters
    `sublist_of` CharacterSelector.eligible 5 2 None Fixture.characters.
Proof.
  apply (proj2 eligible_shrinks_with_thresholds 5 10 2 2 None (Some ["fate"])
           Fixture.characters); [lia|lia|exact I].
Defined.

(** ** The catalogue and the calls *)

Lemma catalogue_run df thr (w : world CharacterSelector.t) :
  CharacterSelector.characters_df (self w) = Some df →
  ∃ catalogue,
    CharacterSelector.get_available_copyrights thr w =
      (w, Returned catalogue) ∧
    ∀ c, c ∈ catalogue ↔
         c ∈ CharacterSelector.copyright <$> df ∧
         thr ≤ wrap64 (CharacterSelector.total_works c df).
Proof.
  intros Hdf. eexists. split.
  - unfold CharacterSelector.get_available_copyrights.
    unfold CharacterSelector.loaded_df.
    rewrite bind_assoc, bind_gets, Hdf, bind_ret. reflexivity.
  - intros c. rewrite merge_sort_Permutation, list_elem_of_fmap. split.
    + intros ([c' v] & -> & Hin). cbn.
      apply elem_of_map_to_list, map_lookup_filter_Some in Hin as [Hc Hv].
      rewrite copyright_counts_lookup in Hc. cbn in Hv.
      case_decide; by simplify_eq.
    + intros [Hc Hv].
      exists (c, wrap64 (CharacterSelector.total_works c df)).
      split; [done|]. apply elem_of_map_to_list, map_lookup_filter_Some.
      split; [|done]. rewrite copyright_counts_lookup. by rewrite decide_True.
Qed.

(** With no negative count, a copyright's works sum to at least the works
    of each of its rows. *)
Lemma total_works_lower df r :
  Forall (λ r, 0 ≤ CharacterSelector.count r) df → r ∈ df →
  CharacterSelector.count r ≤
    CharacterSelector.total_works (CharacterSelector.copyright r) df.
Proof.
  intros Hpos Hr. unfold CharacterSelector.total_works.
  assert (∀ c l, Forall (λ r, 0 ≤ CharacterSelector.count r) l →
            0 ≤ foldr Z.add 0 (CharacterSelector.count <$>
                    filter (λ r, CharacterSelector.copyright r = c) l))
    as Hsum.
  { intros c l Hl. induction Hl as [|x l Hx Hl IH]; [done|].
    destruct (decide (CharacterSelector.copyright x = c)).
    - rewrite filter_cons_True by done. cbn. lia.
    - by rewrite filter_cons_False. }
  induction Hpos as [|x l Hx Hl IH]; [by apply elem_of_nil in Hr|].
  apply elem_of_cons in Hr as [->|Hr].
  - rewrite filter_cons_True by done. cbn.
    specialize (Hsum (CharacterSelector.copyright x) l Hl). lia.
  - specialize (IH Hr).
    destruct (decide (CharacterSelector.copyright x =
                      CharacterSelector.copyright r)).
    + rewrite filter_cons_True by done. cbn. lia.
    + by rewrite filter_cons_False.
Qed.

(** X15: the catalogue covers what a call can return.  On a dataset
    without negative counts where no copyright's works sum past the int64
    range, every record eligible for a call has its copyright in the
    catalogue taken at the call's threshold on the works (or at any lower
    one, the default 0 included when that threshold is not negative); so
    does every entry of a result. *)
Theorem catalogue_covers_eligible :
  ∀ q (w : world CharacterSelector.t) df thr r,
    CharacterSelector.characters_df (self w) = Some df →
    Forall (λ r, 0 ≤ CharacterSelector.count r) df →
    CharacterSelector.sums_fit df →
    thr ≤ CharacterSelector.min_total_works q (self w) →
    r ∈ CharacterSelector.all_eligible q (self w) df →
    ∃ catalogue,
      CharacterSelector.get_available_copyrights thr w =
        (w, Returned catalogue) ∧
      CharacterSelector.copyright r ∈ catalogue.
Proof.
  intros q w df thr r Hdf Hpos Hfit Hthr Hr.
  destruct (catalogue_run df thr w Hdf) as (catalogue & Hrun & Hin).
  exists catalogue. split; [done|]. apply Hin.
  apply character_eligible_elem in Hr as (Hr & Hc & _).
  assert (CharacterSelector.copyright r ∈ CharacterSelector.copyright <$> df)
    as Hcr by (apply list_elem_of_fmap; by exists r).
  split; [done|]. rewrite (sums_fit_total df _ Hfit Hcr).
  pose proof (total_works_lower df r Hpos Hr). lia.
Qed.

(** X15 at Saber, eligible by default, and the catalogue from 0. *)
Lemma catalogue_covers_eligible_witness :
  ∃ catalogue,
    CharacterSelector.get_available_copyrights 0
      (Fixture.character_world "only" Fixture.characters None) =
      (Fixture.character_world "only" Fixture.characters None,
       Returned catalogue) ∧
    "fate" ∈ catalogue.
Proof.
  apply (catalogue_covers_eligible Fixture.character_defaults
           (Fixture.character_world "only" Fixture.characters None)
           Fixture.characters 0
           (CharacterSelector.Row "Saber" "fate" "saber" 50 20 "u2"
              ["armor"; "blonde"]) eq_refl).
  - repeat constructor; by vm_compute.
  - repeat constructor; by vm_compute.
  - vm_compute. by intros [=].
  - vm_compute. set_solver.
Defined.

(** X16: the catalogue shrinks as the threshold grows; with a threshold of
    at most 0 on a dataset without negative counts where no copyright's
    works sum past the int64 range it lists every copyright of the dataset;
    on an object without a dataset the call raises and changes nothing. *)
Theorem catalogue_by_threshold :
  (∀ (w : world CharacterSelector.t) df thr thr' l l',
     CharacterSelector.characters_df (self w) = Some df →
     thr ≤ thr' →
     CharacterSelector.get_available_copyrights thr w = (w, Returned l) →
     CharacterSelector.get_available_copyrights thr' w = (w, Returned l') →
     l' ⊆ l) ∧
  (∀ (w : world CharacterSelector.t) df thr l,
     CharacterSelector.characters_df (self w) = Some df →
     Forall (λ r, 0 ≤ CharacterSelector.count r) df →
     CharacterSelector.sums_fit df →
     thr ≤ 0 →
     CharacterSelector.get_available_copyrights thr w = (w, Returned l) →
     ∀ c, c ∈ l ↔ c ∈ CharacterSelector.copyright <$> df) ∧
  (∀ (w : world CharacterSelector.t) thr,
     CharacterSelector.characters_df (self w) = None →
     CharacterSelector.get_available_copyrights thr w =
       (w, Raised NotLoadedError)).
Proof.
  split_and!.
  - intros w df thr thr' l l' Hdf Hle Hl Hl' c Hc.
    destruct (catalogue_run df thr w Hdf) as (k & Hk & Hin).
    destruct (catalogue_run df thr' w Hdf) as (k' & Hk' & Hin').
    assert (k = l) as -> by congruence. assert (k' = l') as -> by congruence.
    apply Hin. apply Hin' in Hc as [? ?]. split; [done|lia].
  - intros w df thr l Hdf Hpos Hfit Hthr Hl c.
    destruct (catalogue_run df thr w Hdf) as (k & Hk & Hin).
    assert (k = l) as -> by congruence. rewrite Hin. split; [tauto|].
    intros Hc. split; [done|]. rewrite (sums_fit_total df c Hfit Hc).
    apply list_elem_of_fmap in Hc as (r & -> & Hr).
    pose proof (total_works_lower df r Hpos Hr).
    rewrite Forall_forall in Hpos. specialize (Hpos r Hr). lia.
  - intros w thr Hdf. unfold CharacterSelector.get_available_copyrights.
    unfold CharacterSelector.loaded_df.
    rewrite bind_assoc, bind_gets, Hdf. by destruct w.
Qed.

(** X16 at the five characters, thresholds 10 and 90. *)
Lemma catalogue_by_threshold_witness :
  ∃ l l',
    CharacterSelector.get_available_copyrights 10
      (Fixture.character_world "random" Fixture.characters None) =
      (Fixture.character_world "random" Fixture.characters None,
       Returned l) ∧
    CharacterSelector.get_available_copyrights 90
      (Fixture.character_world "random" Fixture.characters None) =
      (Fixture.character_world "random" Fixture.characters None,
       Returned l') ∧
    l' ⊆ l.
Proof.
  assert (∃ l, CharacterSelector.get_available_copyrights 10
      (Fixture.character_world "random" Fixture.characters None) =
      (Fixture.character_world "random" Fixture.characters None,
       Returned l)) as [l Hl].
  { eexists. vm_compute. reflexivity. }
  assert (∃ l', CharacterSelector.get_available_copyrights 90
      (Fixture.character_world "random" Fixture.characters None) =
      (Fixture.character_world "random" Fixture.characters None,
       Returned l')) as [l' Hl'].
  { eexists. vm_compute. reflexivity. }
  exists l, l'. split; [exact Hl|]. split; [exact Hl'|].
  exact (proj1 catalogue_by_threshold
    (Fixture.character_world "random" Fixture.characters None)
    Fixture.characters 10 90 l l' eq_refl ltac:(lia) Hl Hl').
Defined.

(** * Loading the dataset *)

(** ** Splitting the core tags *)

Lemma split_commas_cons x : ∃ piece pieces, split_commas x = piece :: pieces.
Proof.
  destruct x as [|c rest]; [by eexists _, _|]. cbn [split_commas].
  case_decide; [by eexists _, _|].
  destruct (split_commas rest); by eexists _, _.
Qed.

Lemma concat_cons_cons sep (x y : string) (l : list string) :
  String.concat sep (x :: y :: l) = x +:+ sep +:+ String.concat sep (y :: l).
Proof. done. Qed.

(** A string that holds no comma. *)
Lemma split_commas_plain_cons c p :
  String c EmptyString ≠ "," →
  (∀ a b, p ≠ a +:+ "," +:+ b) →
  ∀ a b, String c p ≠ a +:+ "," +:+ b.
Proof.
  intros Hc Hp [|c' a] b Heq.
  - cbn in Heq. injection Heq as -> _. by apply Hc.
  - cbn in Heq. injection Heq as _ Heq. by apply (Hp a b).
Qed.

Lemma split_commas_join x : String.concat "," (split_commas x) = x.
Proof.
  induction x as [|c rest IH]; [done|]. cbn [split_commas].
  destruct (split_commas_cons rest) as (piece & pieces & Hrest).
  rewrite Hrest in IH |- *. case_decide as Hc.
  - rewrite concat_cons_cons, IH. by injection Hc as ->.
  - destruct pieces as [|piece' pieces].
    + cbn in IH |- *. by rewrite IH.
    + rewrite concat_cons_cons in IH |- *. cbn. by rewrite <- IH.
Qed.

Lemma split_commas_plain x :
  Forall (λ p, ∀ a b, p ≠ a +:+ "," +:+ b) (split_commas x).
Proof.
  induction x as [|c rest IH].
  { constructor; [|done]. by intros [|??] ?. }
  cbn [split_commas]. case_decide as Hc.
  - constructor; [|done]. by intros [|??] ?.
  - destruct (split_commas rest) as [|piece pieces].
    + constructor; [|done].
      apply split_commas_plain_cons; [done|]. by intros [|??] ?.
    + inversion IH as [|?? Hp Hps]; subst. constructor; [|done].
      by apply split_commas_plain_cons.
Qed.

Lemma split_commas_of_join p ps :
  Forall (λ p, ∀ a b, p ≠ a +:+ "," +:+ b) (p :: ps) →
  split_commas (String.concat "," (p :: ps)) = p :: ps.
Proof.
  revert p. induction ps as [|p' ps IH]; intros p Hall.
  - inversion Hall as [|?? Hp _]; subst. clear Hall. cbn [String.concat].
    induction p as [|c p IHp]; [done|]. cbn [split_commas].
    assert (String c EmptyString ≠ ",") as Hc.
    { intros Hc. injection Hc as ->. by apply (Hp "" p). }
    rewrite decide_False by done. rewrite IHp; [done|].
    intros a b ->. by apply (Hp (String c a) b).
  - inversion Hall as [|?? Hp Hps]; subst. clear Hall.
    rewrite concat_cons_cons. specialize (IH p' Hps). revert IH.
    generalize (String.concat "," (p' :: ps)). intros rest IH.
    induction p as [|c p IHp].
    + change (split_commas ("" +:+ "," +:+ rest))
        with ("" :: split_commas rest). by rewrite IH.
    + change (String c p +:+ "," +:+ rest)
        with (String c (p +:+ "," +:+ rest)).
      cbn [split_commas].
      assert (String c EmptyString ≠ ",") as Hc.
      { intros Hc. injection Hc as ->. by apply (Hp "" p). }
      rewrite decide_False by done.
      rewrite IHp; [done|]. intros a b ->. by apply (Hp (String c a) b).
Qed.

(** X17: splitting on commas loses nothing and leaves no comma behind.
    The pieces of any string, joined again with commas, are the string; there
    is always at least one piece and no piece holds a comma; and splitting
    the join of such pieces gives the pieces back. *)
Theorem split_commas_round_trip :
  (∀ x, String.concat "," (split_commas x) = x) ∧
  (∀ x, split_commas x ≠ [] ∧
        Forall (λ p, ∀ a b, p ≠ a +:+ "," +:+ b) (split_commas x)) ∧
  (∀ p ps, Forall (λ p, ∀ a b, p ≠ a +:+ "," +:+ b) (p :: ps) →
           split_commas (String.concat "," (p :: ps)) = p :: ps).
Proof.
  split_and!.
  - apply split_commas_join.
  - intros x. split; [|apply split_commas_plain].
    by destruct (split_commas_cons x) as (? & ? & ->).
  - apply split_commas_of_join.
Qed.

(** X17 at a cell of two tags, the second of which starts with a space. *)
Lemma split_commas_round_trip_witness :
  split_commas (String.concat "," ["twintails"; " red coat"]) =
    ["twintails"; " red coat"].
Proof.
  exact (proj2 (proj2 split_commas_round_trip) "twintails" [" red coat"]
           (proj2 (proj1 (proj2 split_commas_round_trip)
                     "twintails, red coat"))).
Defined.

(** ** The column check and the rows *)

Lemma missing_of_present (present : string → bool) (required : list string) :
  missing_of ((λ col, (col, present col)) <$> required) =
  filter (λ col, present col = false) required.
Proof.
  unfold missing_of. induction required as [|col l IH]; [done|].
  rewrite fmap_cons. destruct (present col) eqn:Hcol.
  - rewrite filter_cons_False by (cbn; congruence).
    rewrite (filter_cons_False _ col) by congruence. exact IH.
  - rewrite filter_cons_True by done.
    rewrite (filter_cons_True _ col) by done. rewrite fmap_cons. by f_equal.
Qed.

Lemma missing_columns_elem (columns required : list string) col :
  col ∈ missing_of ((λ col, (col, bool_decide (col ∈ columns))) <$> required)
  ↔ col ∈ required ∧ col ∉ columns.
Proof.
  rewrite (missing_of_present (λ col, bool_decide (col ∈ columns))).
  rewrite list_elem_of_filter, bool_decide_eq_false. tauto.
Qed.

Lemma missing_columns_nil (columns required : list string) :
  missing_of ((λ col, (col, bool_decide (col ∈ columns))) <$> required) = []
  ↔ required ⊆ columns.
Proof.
  split.
  - intros Hnil col Hcol. destruct (decide (col ∈ columns)) as [|Hn]; [done|].
    assert (col ∈ missing_of ((λ col, (col, bool_decide (col ∈ columns)))
                               <$> required)) as Hin
      by by apply missing_columns_elem.
    rewrite Hnil in Hin. by apply elem_of_nil in Hin.
  - intros Hsub.
    destruct (missing_of _) as [|col cols] eqn:Hm; [done|].
    assert (col ∈ col :: cols) as Hin by left.
    rewrite <- Hm in Hin. apply missing_columns_elem in Hin as [? Hn].
    destruct Hn. by apply Hsub.
Qed.

(** X18: what the column check of the two loaders lets through.  A frame
    that was read loads exactly when it has every required column, whatever
    other columns it has and in whatever order; the artist rows are then
    taken as they are.  Otherwise the load fails naming the required columns
    that are missing, each once, and no others.  A read that raised fails
    the load too. *)
Theorem load_checks_required_columns :
  (∀ df,
     (ArtistConstruction.required_columns ⊆ ArtistConstruction.columns df →
        ArtistConstruction._load_csv (Some df) =
          inr (ArtistConstruction.rows df)) ∧
     (¬ ArtistConstruction.required_columns ⊆ ArtistConstruction.columns df →
        ∃ cols, ArtistConstruction._load_csv (Some df) =
                  inl (MissingColumns cols) ∧
          cols ≠ [] ∧ NoDup cols ∧
          ∀ col, col ∈ cols ↔
                 col ∈ ArtistConstruction.required_columns ∧
                 col ∉ ArtistConstruction.columns df)) ∧
  (∀ blank csv df,
     (CharacterConstruction.required_columns ⊆
        CharacterConstruction.columns df →
        ∃ rows line, CharacterConstruction._load_csv blank csv (Some df) =
                       inr (rows, line)) ∧
     (¬ CharacterConstruction.required_columns ⊆
          CharacterConstruction.columns df →
        ∃ cols, CharacterConstruction._load_csv blank csv (Some df) =
                  inl (MissingColumns cols) ∧
          cols ≠ [] ∧ NoDup cols ∧
          ∀ col, col ∈ cols ↔
                 col ∈ CharacterConstruction.required_columns ∧
                 col ∉ CharacterConstruction.columns df)) ∧
  ArtistConstruction._load_csv None = inl ReadFailed ∧
  (∀ blank csv,
     CharacterConstruction._load_csv blank csv None = inl ReadFailed).
Proof.
  split_and!; [| |done|done].
  - intros df. unfold ArtistConstruction._load_csv. split.
    + intros Hsub. by rewrite (proj2 (missing_columns_nil _ _) Hsub).
    + intros Hsub.
      pose proof (missing_columns_elem (ArtistConstruction.columns df)
                    ArtistConstruction.required_columns) as Hin.
      pose proof (missing_of_present
                    (λ col, bool_decide (col ∈ ArtistConstruction.columns df))
                    ArtistConstruction.required_columns) as Hf.
      destruct (missing_of _) as [|col cols] eqn:Hm.
      { destruct Hsub. by apply missing_columns_nil. }
      eexists. split; [done|]. split; [done|]. split; [|done].
      rewrite Hf. apply NoDup_filter.
      unfold ArtistConstruction.required_columns.
      by apply (bool_decide_unpack _).
  - intros blank csv df. unfold CharacterConstruction._load_csv. split.
    + intros Hsub. rewrite (proj2 (missing_columns_nil _ _) Hsub).
      case_decide; by eexists _, _.
    + intros Hsub.
      pose proof (missing_columns_elem (CharacterConstruction.columns df)
                    CharacterConstruction.required_columns) as Hin.
      pose proof (missing_of_present
                    (λ col,
                       bool_decide (col ∈ CharacterConstruction.columns df))
                    CharacterConstruction.required_columns) as Hf.
      destruct (missing_of _) as [|col cols] eqn:Hm.
      { destruct Hsub. by apply missing_columns_nil. }
      eexists. split; [done|]. split; [done|]. split; [|done].
      rewrite Hf. apply NoDup_filter.
      unfold CharacterConstruction.required_columns.
      by apply (bool_decide_unpack _).
Qed.

(** X18 at a frame of artists without the [count] and [url] columns. *)
Lemma load_checks_required_columns_witness :
  ∃ cols,
    ArtistConstruction._load_csv
      (Some (ArtistConstruction.Frame ["trigger"; "artist"; "notes"] [])) =
      inl (MissingColumns cols) ∧
    ("count" ∈ cols ∧ "url" ∈ cols ∧ "artist" ∉ cols).
Proof.
  destruct (proj2 (proj1 load_checks_required_columns
                     (ArtistConstruction.Frame
                        ["trigger"; "artist"; "notes"] [])))
    as (cols & Hrun & _ & _ & Hin).
  - intros Hsub. specialize (Hsub "count"). cbn in Hsub. set_solver.
  - exists cols. split; [exact Hrun|]. rewrite !Hin. cbn. set_solver.
Defined.

(** X19: what the character loader does to the rows.  A load that succeeds
    keeps the rows in number and order and each row's six fields as read,
    and says in its printed line whether the frame had a [core_tags] column.
    The tags of a row are empty unless that column is there and the cell is
    a string that is not blank; then they are the pieces of the cell between
    its commas: at least one, none with a comma in it, and joined with
    commas they spell the cell, so nothing is trimmed or dropped. *)
Theorem load_keeps_rows_and_splits_tags :
  ∀ blank csv df loaded line,
    CharacterConstruction._load_csv blank csv (Some df) = inr (loaded, line) →
    length loaded = length (CharacterConstruction.rows df) ∧
    line = (if bool_decide ("core_tags" ∈ CharacterConstruction.columns df)
            then TagsLoaded csv else TagsAbsent csv) ∧
    ∀ i raw, CharacterConstruction.rows df !! i = Some raw →
      ∃ r, loaded !! i = Some r ∧
        CharacterSelector.character r = CharacterConstruction.character raw ∧
        CharacterSelector.copyright r = CharacterConstruction.copyright raw ∧
        CharacterSelector.trigger r = CharacterConstruction.trigger raw ∧
        CharacterSelector.count r = CharacterConstruction.count raw ∧
        CharacterSelector.solo_count r =
          CharacterConstruction.solo_count raw ∧
        CharacterSelector.url r = CharacterConstruction.url raw ∧
        Forall (λ p, ∀ a b, p ≠ a +:+ "," +:+ b)
          (CharacterSelector.core_tags r) ∧
        match CharacterConstruction.core_tags_cell raw with
        | Some x =>
            if bool_decide ("core_tags" ∈ CharacterConstruction.columns df)
               && negb (blank x)
            then CharacterSelector.core_tags r ≠ [] ∧
                 String.concat "," (CharacterSelector.core_tags r) = x
            else CharacterSelector.core_tags r = []
        | None => CharacterSelector.core_tags r = []
        end.
Proof.
  intros blank csv df loaded line Hload.
  unfold CharacterConstruction._load_csv in Hload.
  destruct (missing_of _) as [|col cols]; [|done].
  assert (∃ has,
    has = bool_decide ("core_tags" ∈ CharacterConstruction.columns df) ∧
    loaded = CharacterConstruction.with_tags blank has <$>
               CharacterConstruction.rows df ∧
    line = if has then TagsLoaded csv else TagsAbsent csv)
    as (has & Hhas & -> & ->).
  { case_decide as Hcol; injection Hload as <- <-.
    - exists true. by rewrite bool_decide_eq_true_2.
    - exists false. by rewrite bool_decide_eq_false_2. }
  rewrite <- Hhas. split; [by rewrite length_fmap|]. split; [done|].
  intros i raw Hraw. eexists. rewrite list_lookup_fmap, Hraw.
  split; [reflexivity|]. cbn. split_and!; try done.
  - destruct has; [|done]. unfold core_tags_of.
    destruct (CharacterConstruction.core_tags_cell raw) as [x|]; [|done].
    destruct (blank x); [done|]. apply split_commas_plain.
  - unfold core_tags_of.
    destruct (CharacterConstruction.core_tags_cell raw) as [x|], has;
      try done.
    destruct (blank x); [done|]. cbn. split; [|apply split_commas_join].
    by destruct (split_commas_cons x) as (? & ? & ->).
Qed.

(** X19 at a frame of three characters: a cell of two tags, a cell that is
    not a string and a cell of blanks. *)
Lemma load_keeps_rows_and_splits_tags_witness :
  ∃ loaded,
    CharacterConstruction._load_csv ascii_blank "characters.csv"
      (Some Fixture2.character_frame) =
      inr (loaded, TagsLoaded "characters.csv") ∧
    CharacterSelector.core_tags <$> loaded =
      [["twintails"; " red coat"]; []; []] ∧
    length loaded = 3%nat.
Proof.
  eexists. split; [reflexivity|]. split; [reflexivity|].
  exact (proj1 (load_keeps_rows_and_splits_tags ascii_blank "characters.csv"
                  Fixture2.character_frame _ _ eq_refl)).
Defined.

(** * Building a selector *)

Lemma artist_init_inv csv read config s :
  ArtistConstruction.__init__ csv read config = inr s →
  ∃ df section a b x y m,
    ArtistConstruction._load_csv read = inr df ∧
    config ≫= artist_selector = Some section ∧
    artist_min_count section = Some a ∧ artist_max_count section = Some b ∧
    artist_min_weight section = Some x ∧ artist_max_weight section = Some y ∧
    artist_min_works section = Some m ∧
    s = ArtistSelector.Make csv (Some df)
          (ArtistSelector.Settings a b x y m (artist_mode section)) None.
Proof.
  unfold ArtistConstruction.__init__. intros H.
  destruct (ArtistConstruction._load_csv read) as [e|df]; [done|].
  destruct (config ≫= artist_selector) as [section|]; [|done].
  destruct section as [[a|] [b|] [x|] [y|] [m|] md]; try done.
  injection H as <-. by eexists df, _, a, b, x, y, m.
Qed.

Lemma character_init_inv blank csv read config lines s :
  CharacterConstruction.__init__ blank csv read config = (lines, inr s) →
  ∃ df line section a b x y m n,
    CharacterConstruction._load_csv blank csv read = inr (df, line) ∧
    lines = [line] ∧
    config ≫= character_selector = Some section ∧
    character_min_count section = Some a ∧
    character_max_count section = Some b ∧
    character_min_weight section = Some x ∧
    character_max_weight section = Some y ∧
    character_min_total_works section = Some m ∧
    character_min_solo_works section = Some n ∧
    s = CharacterSelector.Make csv (Some df)
          (CharacterSelector.Settings a b x y m n (character_mode section))
          None.
Proof.
  unfold CharacterConstruction.__init__. intros H.
  destruct (CharacterConstruction._load_csv blank csv read)
    as [e|[df line]]; [done|].
  destruct (config ≫= character_selector) as [section|]; [|done].
  destruct section as [[a|] [b|] [x|] [y|] [m|] [n|] md]; try done.
  injection H as <- <-. by eexists df, line, _, a, b, x, y, m, n.
Qed.

Lemma missing_of_elem k (required : list (string * bool)) :
  k ∈ missing_of required ↔ (k, false) ∈ required.
Proof.
  unfold missing_of. rewrite list_elem_of_fmap. split.
  - intros ([k' p] & -> & [Hp Hin]%list_elem_of_filter). cbn in *. by subst.
  - intros Hin. exists (k, false). split; [done|].
    by apply list_elem_of_filter.
Qed.

Lemma absent_key {A} (key : option A) :
  false = bool_decide (is_Some key) ↔ key = None.
Proof.
  by destruct key.
Qed.

Ltac missing_key :=
  rewrite missing_of_elem, !elem_of_cons, elem_of_nil;
  split;
  [ intros H; repeat destruct H as [H|H]; try done;
    injection H as H; try done; by apply absent_key
  | intros H; apply absent_key in H; rewrite <- H; tauto ].

(** The keys reported missing are the required keys that are absent. *)
Lemma artist_missing_config_elem section :
  ("min_count" ∈ ArtistConstruction.missing_config section ↔
     artist_min_count section = None) ∧
  ("max_count" ∈ ArtistConstruction.missing_config section ↔
     artist_max_count section = None) ∧
  ("min_weight" ∈ ArtistConstruction.missing_config section ↔
     artist_min_weight section = None) ∧
  ("max_weight" ∈ ArtistConstruction.missing_config section ↔
     artist_max_weight section = None) ∧
  ("min_works" ∈ ArtistConstruction.missing_config section ↔
     artist_min_works section = None) ∧
  "mode" ∉ ArtistConstruction.missing_config section.
Proof.
  unfold ArtistConstruction.missing_config. split_and!; try missing_key.
  rewrite missing_of_elem, !elem_of_cons, elem_of_nil.
  intros H; repeat destruct H as [H|H]; done.
Qed.

Lemma character_missing_config_elem section :
  ("min_count" ∈ CharacterConstruction.missing_config section ↔
     character_min_count section = None) ∧
  ("max_count" ∈ CharacterConstruction.missing_config section ↔
     character_max_count section = None) ∧
  ("min_weight" ∈ CharacterConstruction.missing_config section ↔
     character_min_weight section = None) ∧
  ("max_weight" ∈ CharacterConstruction.missing_config section ↔
     character_max_weight section = None) ∧
  ("min_total_works" ∈ CharacterConstruction.missing_config section ↔
     character_min_total_works section = None) ∧
  ("min_solo_works" ∈ CharacterConstruction.missing_config section ↔
     character_min_solo_works section = None) ∧
  "mode" ∉ CharacterConstruction.missing_config section.
Proof.
  unfold CharacterConstruction.missing_config. split_and!; try missing_key.
  rewrite missing_of_elem, !elem_of_cons, elem_of_nil.
  intros H; repeat destruct H as [H|H]; done.
Qed.

(** X20: when the constructors fail and with what.  The dataset is loaded
    before the configuration is looked at, so a load that fails is what the
    constructor reports whatever the configuration is; the character
    constructor has printed nothing then, and has printed its one line about
    the tags in every other case, also when the configuration is refused.
    With the dataset loaded, a configuration that is empty or lacks the
    selector's section is refused as invalid, and a section that lacks
    required keys is refused with exactly those keys, never ['mode']. *)
Theorem init_failures :
  (∀ csv read config,
     (∀ e, ArtistConstruction._load_csv read = inl e →
        ArtistConstruction.__init__ csv read config = inl (LoadFailed e)) ∧
     (∀ df, ArtistConstruction._load_csv read = inr df →
        (config ≫= artist_selector = None →
           ArtistConstruction.__init__ csv read config = inl ConfigInvalid) ∧
        (∀ section, config ≫= artist_selector = Some section →
           ArtistConstruction.missing_config section ≠ [] →
           ArtistConstruction.__init__ csv read config =
             inl (ConfigMissing (ArtistConstruction.missing_config section)) ∧
           ("min_count" ∈ ArtistConstruction.missing_config section ↔
              artist_min_count section = None) ∧
           ("max_count" ∈ ArtistConstruction.missing_config section ↔
              artist_max_count section = None) ∧
           ("min_weight" ∈ ArtistConstruction.missing_config section ↔
              artist_min_weight section = None) ∧
           ("max_weight" ∈ ArtistConstruction.missing_config section ↔
              artist_max_weight section = None) ∧
           ("min_works" ∈ ArtistConstruction.missing_config section ↔
              artist_min_works section = None) ∧
           "mode" ∉ ArtistConstruction.missing_config section))) ∧
  (∀ blank csv read config,
     (∀ e, CharacterConstruction._load_csv blank csv read = inl e →
        CharacterConstruction.__init__ blank csv read config =
          ([], inl (LoadFailed e))) ∧
     (∀ df line,
        CharacterConstruction._load_csv blank csv read = inr (df, line) →
        (CharacterConstruction.__init__ blank csv read config).1 = [line] ∧
        (config ≫= character_selector = None →
           (CharacterConstruction.__init__ blank csv read config).2 =
             inl ConfigInvalid) ∧
        (∀ section, config ≫= character_selector = Some section →
           CharacterConstruction.missing_config section ≠ [] →
           (CharacterConstruction.__init__ blank csv read config).2 =
             inl (ConfigMissing
                    (CharacterConstruction.missing_config section)) ∧
           ("min_count" ∈ CharacterConstruction.missing_config section ↔
              character_min_count section = None) ∧
           ("max_count" ∈ CharacterConstruction.missing_config section ↔
              character_max_count section = None) ∧
           ("min_weight" ∈ CharacterConstruction.missing_config section ↔
              character_min_weight section = None) ∧
           ("max_weight" ∈ CharacterConstruction.missing_config section ↔
              character_max_weight section = None) ∧
           ("min_total_works" ∈
              CharacterConstruction.missing_config section ↔
              character_min_total_works section = None) ∧
           ("min_solo_works" ∈
              CharacterConstruction.missing_config section ↔
              character_min_solo_works section = None) ∧
           "mode" ∉ CharacterConstruction.missing_config section))).
Proof.
  split.
  - intros csv read config. unfold ArtistConstruction.__init__. split.
    + by intros e ->.
    + intros df ->. split; [by intros ->|]. intros section -> Hmiss. split.
      * by destruct section as [[a|] [b|] [x|] [y|] [m|] md].
      * apply artist_missing_config_elem.
  - intros blank csv read config. unfold CharacterConstruction.__init__.
    split.
    + by intros e ->.
    + intros df line ->. split; [done|]. split; [by intros ->|].
      intros section -> Hmiss. split.
      * by destruct section as [[a|] [b|] [x|] [y|] [m|] [n|] md].
      * apply character_missing_config_elem.
Qed.

(** X20 at a file that cannot be read together with an empty
    configuration, and at a section without its two weights. *)
Lemma init_failures_witness :
  ArtistConstruction.__init__ "artists.csv" None None =
    inl (LoadFailed ReadFailed) ∧
  ArtistConstruction.__init__ "artists.csv" (Some Fixture2.artist_frame)
    (Some (ConfigDict
             (Some (ArtistKeys (Some 1) (Some 2) None None (Some 0)
                      (Some "only")))
             None)) =
    inl (ConfigMissing ["min_weight"; "max_weight"]).
Proof.
  split.
  - exact (proj1 (proj1 init_failures "artists.csv" None None)
             ReadFailed eq_refl).
  - refine (proj1 (proj2 (proj2 (proj1 init_failures "artists.csv"
              (Some Fixture2.artist_frame)
              (Some (ConfigDict
                       (Some (ArtistKeys (Some 1) (Some 2) None None (Some 0)
                                (Some "only")))
                       None))) Fixture.artists eq_refl)
              (ArtistKeys (Some 1) (Some 2) None None (Some 0) (Some "only"))
              eq_refl _)).
    by vm_compute.
Defined.

(** X21: when the constructors succeed and what they build.  An artist
    selector is built exactly when the file was read with the four required
    columns and the configuration has the selector's section with its five
    required keys; a character selector likewise with its six columns and
    six keys.  The object then holds the path it was given, the rows of the
    frame (for characters with the tags split), the values of the section,
    ['mode'] included if it is there, and no used-set. *)
Theorem init_builds_selector :
  (∀ csv read config s,
     ArtistConstruction.__init__ csv read config = inr s ↔
     ∃ frame section a b x y m,
       read = Some frame ∧
       ArtistConstruction.required_columns ⊆
         ArtistConstruction.columns frame ∧
       config ≫= artist_selector = Some section ∧
       artist_min_count section = Some a ∧
       artist_max_count section = Some b ∧
       artist_min_weight section = Some x ∧
       artist_max_weight section = Some y ∧
       artist_min_works section = Some m ∧
       s = ArtistSelector.Make csv (Some (ArtistConstruction.rows frame))
             (ArtistSelector.Settings a b x y m (artist_mode section)) None) ∧
  (∀ blank csv read config s,
     (CharacterConstruction.__init__ blank csv read config).2 = inr s ↔
     ∃ frame section a b x y m n,
       read = Some frame ∧
       CharacterConstruction.required_columns ⊆
         CharacterConstruction.columns frame ∧
       config ≫= character_selector = Some section ∧
       character_min_count section = Some a ∧
       character_max_count section = Some b ∧
       character_min_weight section = Some x ∧
       character_max_weight section = Some y ∧
       character_min_total_works section = Some m ∧
       character_min_solo_works section = Some n ∧
       s = CharacterSelector.Make csv
             (Some (CharacterConstruction.with_tags blank
                      (bool_decide
                         ("core_tags" ∈ CharacterConstruction.columns frame))
                      <$> CharacterConstruction.rows frame))
             (CharacterSelector.Settings a b x y m n (character_mode section))
             None).
Proof.
  split.
  - intros csv read config s. split.
    + intros (df & section & a & b & x & y & m & Hload & Hsec & Ha & Hb &
              Hx & Hy & Hm & ->)%artist_init_inv.
      unfold ArtistConstruction._load_csv in Hload.
      destruct read as [frame|]; [|done].
      destruct (missing_of _) as [|col cols] eqn:Hmiss; [|done].
      injection Hload as <-. apply missing_columns_nil in Hmiss.
      by exists frame, section, a, b, x, y, m.
    + intros (frame & section & a & b & x & y & m & -> & Hcols & Hsec & Ha &
              Hb & Hx & Hy & Hm & ->).
      unfold ArtistConstruction.__init__, ArtistConstruction._load_csv.
      rewrite (proj2 (missing_columns_nil _ _) Hcols), Hsec.
      by rewrite Ha, Hb, Hx, Hy, Hm.
  - intros blank csv read config s. split.
    + intros Hinit.
      destruct (CharacterConstruction.__init__ blank csv read config)
        as [lines o] eqn:Hrun. cbn in Hinit. subst o.
      apply character_init_inv in Hrun
        as (df & line & section & a & b & x & y & m & n & Hload & _ & Hsec &
            Ha & Hb & Hx & Hy & Hm & Hn & ->).
      unfold CharacterConstruction._load_csv in Hload.
      destruct read as [frame|]; [|done].
      destruct (missing_of _) as [|col cols] eqn:Hmiss; [|done].
      apply missing_columns_nil in Hmiss.
      exists frame, section, a, b, x, y, m, n. split_and!; try done.
      case_decide as Hcol; injection Hload as <- _.
      * by rewrite bool_decide_eq_true_2.
      * by rewrite bool_decide_eq_false_2.
    + intros (frame & section & a & b & x & y & m & n & -> & Hcols & Hsec &
              Ha & Hb & Hx & Hy & Hm & Hn & ->).
      unfold CharacterConstruction.__init__, CharacterConstruction._load_csv.
      rewrite (proj2 (missing_columns_nil _ _) Hcols).
      case_decide as Hcol; cbn [snd]; rewrite Hsec, Ha, Hb, Hx, Hy, Hm, Hn.
      * by rewrite bool_decide_eq_true_2.
      * by rewrite bool_decide_eq_false_2.
Qed.

(** X21 at the five artists and a configuration without ['mode']. *)
Lemma init_builds_selector_witness :
  ArtistConstruction.__init__ "artists.csv" (Some Fixture2.artist_frame)
    (Some Fixture2.modeless) =
  inr (ArtistSelector.Make "artists.csv" (Some Fixture.artists)
         (ArtistSelector.Settings 2 2 (1 # 2) (3 # 2) 5 None) None).
Proof.
  apply (proj1 init_builds_selector).
  eexists Fixture2.artist_frame, _, 2, 2, (1 # 2)%Q, (3 # 2)%Q, 5.
  split_and!; reflexivity.
Defined.

(** ** A built selector at work *)

(** X22: the constructors do not ask for ['mode'], the calls do.  A
    selector built from a configuration whose section has no ['mode'] key is
    built without complaint, and then every call on it, in any sequence,
    with any arguments, raises [KeyError] for that key and changes
    nothing. *)
Theorem modeless_selector_always_fails :
  (∀ csv read config s,
     ArtistConstruction.__init__ csv read config = inr s →
     (config ≫= artist_selector) ≫= artist_mode = None →
     ∀ qs t out m wm om wm',
       trace ArtistSelector.select qs (World s t out) !! m =
         Some (wm, om, wm') →
       om = Raised (KeyError "mode") ∧ wm' = wm) ∧
  (∀ blank csv read config s,
     (CharacterConstruction.__init__ blank csv read config).2 = inr s →
     (config ≫= character_selector) ≫= character_mode = None →
     ∀ qs t out m wm om wm',
       trace CharacterSelector.select qs (World s t out) !! m =
         Some (wm, om, wm') →
       om = Raised (KeyError "mode") ∧ wm' = wm).
Proof.
  split.
  - intros csv read config s Hinit Hmode qs t out m wm om wm' Hm.
    apply artist_init_inv in Hinit
      as (df & section & a & b & x & y & n & _ & Hsec & _ & _ & _ & _ & _ & ->).
    rewrite Hsec in Hmode. cbn in Hmode.
    pose (Inv := λ s : ArtistSelector.t,
            ArtistSelector.cfg_mode (ArtistSelector.config s) = None).
    assert (∀ q w w' o, Inv (self w) → ArtistSelector.select q w = (w', o) →
              Inv (self w')) as Hstep.
    { intros q v v' o Hv Hrun.
      destruct (artist_select_self q v v' o Hrun) as [u ->]. exact Hv. }
    eapply (trace_lookup ArtistSelector.select Inv Hstep) in Hm
      as (qm & _ & Hrun & Hinv); [|exact Hmode].
    rewrite artist_select_engine, select_mode_missing in Hrun by done.
    by injection Hrun as <- <-.
  - intros blank csv read config s Hinit Hmode qs t out m wm om wm' Hm.
    destruct (CharacterConstruction.__init__ blank csv read config)
      as [lines o] eqn:Hrun. cbn in Hinit. subst o.
    apply character_init_inv in Hrun
      as (df & line & section & a & b & x & y & n & k & _ & _ & Hsec &
          _ & _ & _ & _ & _ & _ & ->).
    rewrite Hsec in Hmode. cbn in Hmode.
    pose (Inv := λ s : CharacterSelector.t,
            CharacterSelector.cfg_mode (CharacterSelector.config s) = None).
    assert (∀ q w w' o, Inv (self w) →
              CharacterSelector.select q w = (w', o) → Inv (self w'))
      as Hstep.
    { intros q v v' o Hv Hrun.
      destruct (character_select_self q v v' o Hrun) as [u ->]. exact Hv. }
    eapply (trace_lookup CharacterSelector.select Inv Hstep) in Hm
      as (qm & _ & Hrun & Hinv); [|exact Hmode].
    rewrite character_select_engine, select_mode_missing in Hrun by done.
    by injection Hrun as <- <-.
Qed.

(** X22 at the five artists: the second of two calls. *)
Lemma modeless_selector_always_fails_witness :
  ∃ s wm wm',
    ArtistConstruction.__init__ "artists.csv" (Some Fixture2.artist_frame)
      (Some Fixture2.modeless) = inr s ∧
    trace ArtistSelector.select
      [Fixture.artist_defaults; Fixture.at_least_ten]
      (World s Fixture.draws []) !! 1%nat =
      Some (wm, Raised (KeyError "mode"), wm') ∧
    wm' = wm.
Proof.
  eexists _, _, _. split; [reflexivity|]. split; [reflexivity|].
  eapply (proj1 modeless_selector_always_fails "artists.csv"
            (Some Fixture2.artist_frame) (Some Fixture2.modeless) _
            eq_refl eq_refl
            [Fixture.artist_defaults; Fixture.at_least_ten]
            Fixture.draws [] 1%nat).
  reflexivity.
Defined.

(** X23: a built selector has its dataset and keeps it.  Along any sequence
    of calls on a selector the constructor returned, no call raises the
    not-loaded error, the dataset stays the one that was loaded, and the
    used-set holds nothing but triggers of that dataset; for characters the
    catalogue can be asked at any point and is returned. *)
Theorem built_selector_stays_loaded :
  (∀ csv read config s,
     ArtistConstruction.__init__ csv read config = inr s →
     ∃ df, ArtistSelector.artists_df s = Some df ∧
     ∀ qs t out m wm om wm',
       trace ArtistSelector.select qs (World s t out) !! m =
         Some (wm, om, wm') →
       om ≠ Raised NotLoadedError ∧
       ArtistSelector.artists_df (self wm') = Some df ∧
       ArtistSelector.used (self wm') ⊆
         list_to_set (ArtistSelector.trigger <$> df)) ∧
  (∀ blank csv read config s,
     (CharacterConstruction.__init__ blank csv read config).2 = inr s →
     ∃ df, CharacterSelector.characters_df s = Some df ∧
     ∀ qs t out m wm om wm',
       trace CharacterSelector.select qs (World s t out) !! m =
         Some (wm, om, wm') →
       om ≠ Raised NotLoadedError ∧
       CharacterSelector.characters_df (self wm') = Some df ∧
       CharacterSelector.used (self wm') ⊆
         list_to_set (CharacterSelector.trigger <$> df) ∧
       ∀ thr, ∃ catalogue,
         CharacterSelector.get_available_copyrights thr wm' =
           (wm', Returned catalogue)).
Proof.
  split.
  - intros csv read config s Hinit.
    apply artist_init_inv in Hinit
      as (df & section & a & b & x & y & n & _ & _ & _ & _ & _ & _ & _ & ->).
    exists df. split; [done|]. intros qs t out m wm om wm' Hm.
    pose (Inv := λ s : ArtistSelector.t,
            ArtistSelector.artists_df s = Some df ∧
            ArtistSelector.used s ⊆
              list_to_set (ArtistSelector.trigger <$> df)).
    assert (∀ q w w' o, Inv (self w) → ArtistSelector.select q w = (w', o) →
              Inv (self w')) as Hstep.
    { intros q v v' o [Hd Hs] Hrun.
      destruct (artist_step_within df q v v' o Hd Hrun) as [Hd' Hs'].
      split; [done|]. set_solver. }
    eapply (trace_lookup ArtistSelector.select Inv Hstep) in Hm
      as (qm & _ & Hrun & Hinv); [|exact (conj eq_refl (empty_subseteq _))].
    destruct (Hstep qm wm wm' om Hinv Hrun) as [Hdf' Hsub].
    split; [|done]. intros ->. destruct Hinv as [Hdf _].
    rewrite artist_select_engine in Hrun.
    by eapply select_loaded in Hrun; [|field_laws..|exact Hdf].
  - intros blank csv read config s Hinit.
    destruct (CharacterConstruction.__init__ blank csv read config)
      as [lines o] eqn:Hrun. cbn in Hinit. subst o.
    apply character_init_inv in Hrun
      as (df & line & section & a & b & x & y & n & k & _ & _ & _ &
          _ & _ & _ & _ & _ & _ & ->).
    exists df. split; [done|]. intros qs t out m wm om wm' Hm.
    pose (Inv := λ s : CharacterSelector.t,
            CharacterSelector.characters_df s = Some df ∧
            CharacterSelector.used s ⊆
              list_to_set (CharacterSelector.trigger <$> df)).
    assert (∀ q w w' o, Inv (self w) →
              CharacterSelector.select q w = (w', o) → Inv (self w'))
      as Hstep.
    { intros q v v' o [Hd Hs] Hrun.
      destruct (character_step_within df q v v' o Hd Hrun) as [Hd' Hs'].
      split; [done|]. set_solver. }
    eapply (trace_lookup CharacterSelector.select Inv Hstep) in Hm
      as (qm & _ & Hrun & Hinv); [|exact (conj eq_refl (empty_subseteq _))].
    destruct (Hstep qm wm wm' om Hinv Hrun) as [Hdf' Hsub].
    split_and!; [|done|done|].
    + intros ->. destruct Hinv as [Hdf _].
      rewrite character_select_engine in Hrun.
      by eapply select_loaded in Hrun; [|field_laws..|exact Hdf].
    + intros thr.
      destruct (catalogue_run df thr wm' Hdf') as (l & Hl & _). by exists l.
Qed.

(** X23 at the selector built from the five artists, made "only" by hand
    of the configuration: the second of two calls. *)
Lemma built_selector_stays_loaded_witness :
  ∃ s wm om wm',
    ArtistConstruction.__init__ "artists.csv" (Some Fixture2.artist_frame)
      (Some (ConfigDict
               (Some (ArtistKeys (Some 2) (Some 2) (Some (1 # 2))
                        (Some (3 # 2)) (Some 10) (Some "only")))
               None)) = inr s ∧
    trace ArtistSelector.select
      [Fixture.artist_defaults; Fixture.artist_defaults]
      (World s Fixture.draws []) !! 1%nat = Some (wm, om, wm') ∧
    om ≠ Raised NotLoadedError ∧
    ArtistSelector.artists_df (self wm') = Some Fixture.artists.
Proof.
  destruct (proj1 built_selector_stays_loaded "artists.csv"
              (Some Fixture2.artist_frame)
              (Some (ConfigDict
                       (Some (ArtistKeys (Some 2) (Some 2) (Some (1 # 2))
                                (Some (3 # 2)) (Some 10) (Some "only")))
                       None))
              _ eq_refl) as (df & Hdf & Hall).
  injection Hdf as <-.
  assert (∃ wm om wm',
    trace ArtistSelector.select
      [Fixture.artist_defaults; Fixture.artist_defaults]
      (World (ArtistSelector.Make "artists.csv" (Some Fixture.artists)
                (ArtistSelector.Settings 2 2 (1 # 2) (3 # 2) 10 (Some "only"))
                None) Fixture.draws []) !! 1%nat = Some (wm, om, wm'))
    as (wm & om & wm' & Htrace).
  { eexists _, _, _. vm_compute; reflexivity. }
  eexists _, wm, om, wm'. split; [reflexivity|]. split; [exact Htrace|].
  destruct (Hall _ _ _ _ _ _ _ Htrace) as (Hom & Hdf' & _).
  split; [exact Hom|exact Hdf'].
Defined.

(** X24: how the used-set grows.  A call in "only" mode that returns after
    finding something unused adds the tokens of its result to the used-set
    and nothing else; none of them was in it, so the set grows by as many
    tokens as the result has different ones. *)
Theorem only_call_marks_its_tokens :
  (∀ q (w w' : world ArtistSelector.t) res df,
     ArtistSelector.only_ready df (self w) →
     ArtistSelector.select q w = (w', Returned res) →
     ArtistSelector.available q (self w) df ≠ [] →
     ArtistSelector.used (self w') =
       ArtistSelector.used (self w) ∪ list_to_set (ArtistSelector.tokens res) ∧
     (∀ tok, tok ∈ ArtistSelector.tokens res →
        tok ∉ ArtistSelector.used (self w)) ∧
     size (ArtistSelector.used (self w')) =
       (size (ArtistSelector.used (self w)) +
        size (list_to_set (ArtistSelector.tokens res) : gset string))%nat) ∧
  (∀ q (w w' : world CharacterSelector.t) res df,
     CharacterSelector.only_ready df (self w) →
     CharacterSelector.select q w = (w', Returned res) →
     CharacterSelector.available q (self w) df ≠ [] →
     CharacterSelector.used (self w') =
       CharacterSelector.used (self w) ∪
       list_to_set (CharacterSelector.tokens res) ∧
     (∀ tok, tok ∈ CharacterSelector.tokens res →
        tok ∉ CharacterSelector.used (self w)) ∧
     size (CharacterSelector.used (self w')) =
       (size (CharacterSelector.used (self w)) +
        size (list_to_set (CharacterSelector.tokens res) : gset string))%nat).
Proof.
  split.
  - intros q w w' res df [Hdf Hm] Hrun Hsome.
    destruct (artist_only_step q w w' _ df Hdf Hm Hrun)
      as (_ & Hmarks & Honly & [[Hnone _]|(_ & Hkeeps & Hnew)]); [done|].
    cbn [returned_tokens] in *.
    assert (ArtistSelector.used (self w') =
            ArtistSelector.used (self w) ∪
            list_to_set (ArtistSelector.tokens res)) as Heq by set_solver.
    split; [done|]. split; [set_solver|].
    rewrite Heq. apply size_union. set_solver.
  - intros q w w' res df [Hdf Hm] Hrun Hsome.
    destruct (character_only_step q w w' _ df Hdf Hm Hrun)
      as (_ & Hmarks & Honly & [[Hnone _]|(_ & Hkeeps & Hnew)]); [done|].
    cbn [returned_tokens] in *.
    assert (CharacterSelector.used (self w') =
            CharacterSelector.used (self w) ∪
            list_to_set (CharacterSelector.tokens res)) as Heq by set_solver.
    split; [done|]. split; [set_solver|].
    rewrite Heq. apply size_union. set_solver.
Qed.

(** X24 at the five artists with "ann" used. *)
Lemma only_call_marks_its_tokens_witness :
  ∃ w' res,
    ArtistSelector.select Fixture.artist_defaults
      (Fixture.artist_world "only" Fixture.artists (Some {["ann"]})) =
      (w', Returned res) ∧
    ArtistSelector.used (self w') =
      {["ann"]} ∪ list_to_set (ArtistSelector.tokens res) ∧
    "ann" ∉ ArtistSelector.tokens res.
Proof.
  assert (∃ w' res,
    ArtistSelector.select Fixture.artist_defaults
      (Fixture.artist_world "only" Fixture.artists (Some {["ann"]})) =
      (w', Returned res)) as (w' & res & Hrun).
  { eexists _, _. vm_compute; reflexivity. }
  exists w', res. split; [exact Hrun|].
  destruct (proj1 only_call_marks_its_tokens Fixture.artist_defaults
    (Fixture.artist_world "only" Fixture.artists (Some {["ann"]}))
    w' res Fixture.artists (conj eq_refl eq_refl) Hrun)
    as (Heq & Hnew & _).
  - by vm_compute.
  - split; [exact Heq|]. intros Hin. apply (Hnew "ann" Hin).
    cbn. set_solver.
Defined.
